(** * Engineering-standards server: index engine and storage layer

    A shallow embedding of the TypeScript services [indexer] and [storage]
    (the in-memory index and the file-name / rename logic), followed by the
    properties proved about them.

    Conventions of the embedding.
    - A JavaScript string is a list of code units.  The model covers the
      code units 0..255 (Latin-1), carried by [ascii].
    - [undefined] is [None]; an optional field is an [option].
    - Node's [path] module is modelled in its POSIX flavour.
    - Asynchronous file-system calls are sequential state transformers over
      a finite map from full paths to file contents. *)

From Stdlib Require Import Ascii String ZArith Lia Permutation Sorted.
From stdpp Require Import base tactics option list strings gmap.

Abbreviation jstring := (list ascii).

(** String literals of the source are written [js "..."]. *)
Definition js (s : string) : jstring := list_ascii_of_string s.

(* ===================================================================== *)
(** * Part I: the program                                                 *)
(* ===================================================================== *)

(** ** JavaScript primitives used by the services *)
Module JS.

Definition code (c : ascii) : nat := nat_of_ascii c.

(** [String.prototype.toLowerCase] on one Latin-1 code unit: A-Z and the
    accented capitals U+00C0..U+00DE (except the multiplication sign
    U+00D7) move up by 32; everything else is unchanged. *)
Definition lower_char (c : ascii) : ascii :=
  let n := code c in
  if ((65 <=? n) && (n <=? 90)) || ((192 <=? n) && (n <=? 222) && negb (n =? 215))
  then ascii_of_nat (n + 32) else c.

Definition toLowerCase (s : jstring) : jstring := map lower_char s.

(** Case folding of a regular expression with the [i] flag and without
    the [u] flag: only A-Z fold onto a-z. *)
Definition fold_char (c : ascii) : ascii :=
  let n := code c in
  if (65 <=? n) && (n <=? 90) then ascii_of_nat (n + 32) else c.

(** [s.startsWith(q)] *)
Fixpoint startsWith (s q : jstring) : bool :=
  match q, s with
  | [], _ => true
  | _ :: _, [] => false
  | c :: q', d :: s' => bool_decide (c = d) && startsWith s' q'
  end.

(** [s.endsWith(q)] *)
Definition endsWith (s q : jstring) : bool :=
  (length q <=? length s) && bool_decide (drop (length s - length q) s = q).

(** [s.includes(q)] *)
Fixpoint includes (s q : jstring) : bool :=
  startsWith s q ||
  match s with
  | [] => false
  | _ :: s' => includes s' q
  end.

(** Position of the first occurrence of [q] in [s], if any. *)
Fixpoint firstOccurrence (s q : jstring) : option nat :=
  if startsWith s q then Some 0
  else match s with
       | [] => None
       | _ :: s' => S <$> firstOccurrence s' q
       end.

(** [s.indexOf(q, from)] for [from >= 0]: the start position is clamped to
    the length of [s]; [None] stands for [-1]. *)
Definition indexOf (s q : jstring) (from : nat) : option nat :=
  let k := Nat.min from (length s) in
  (fun i => k + i) <$> firstOccurrence (drop k s) q.

(** [l.slice(start, stop)] of arrays and strings alike: negative indices
    count from the end, and both ends are clamped. *)
Definition slice {A} (l : list A) (start stop : Z) : list A :=
  let len := Z.of_nat (length l) in
  let k := if (start <? 0)%Z then Z.max (len + start) 0 else Z.min start len in
  let final := if (stop <? 0)%Z then Z.max (len + stop) 0 else Z.min stop len in
  take (Z.to_nat (final - k)) (drop (Z.to_nat k) l).

(** [l.slice(start)] *)
Definition sliceFrom {A} (l : list A) (start : Z) : list A :=
  slice l start (Z.of_nat (length l)).

(** [s.split(sep)] for a one-character separator. *)
Fixpoint split (sep : ascii) (s : jstring) : list jstring :=
  match s with
  | [] => [[]]
  | c :: s' =>
      if bool_decide (c = sep) then [] :: split sep s'
      else match split sep s' with
           | [] => [[c]]
           | w :: ws => (c :: w) :: ws
           end
  end.

(** [parts.join(sep)] *)
Fixpoint join (sep : jstring) (parts : list jstring) : jstring :=
  match parts with
  | [] => []
  | p :: rest =>
      match rest with
      | [] => p
      | _ :: _ => p ++ sep ++ join sep rest
      end
  end.

Definition isSep (c : ascii) : bool :=
  bool_decide (c = "/"%char) || bool_decide (c = "\"%char).

(** The characters that [.] of a regular expression refuses. *)
Definition isLineTerminator (c : ascii) : bool :=
  bool_decide (c = "010"%char) || bool_decide (c = "013"%char).

(** Does [s] start with the literal [lit] (given in lower case) under
    the [i] flag? *)
Definition startsWithFolded (s lit : jstring) : bool :=
  startsWith (map fold_char s) lit.

(** What [/^[/\\]?standards[/\\]/i] matches at the start of [p]: the
    number of characters of the match. *)
Definition standardsPrefixLength (p : jstring) : option nat :=
  let try (skip : nat) :=
    let rest := drop skip p in
    if startsWithFolded rest (js "standards") then
      match drop 9 rest with
      | c :: _ => if isSep c then Some (skip + 10) else None
      | [] => None
      end
    else None in
  match p with
  | c :: _ =>
      if isSep c then
        match try 1 with
        | Some n => Some n
        | None => try 0
        end
      else try 0
  | [] => None
  end.

(** [p.replace(/^[/\\]?standards[/\\]/i, '')] *)
Definition stripStandardsPrefix (p : jstring) : jstring :=
  match standardsPrefixLength p with
  | Some n => drop n p
  | None => p
  end.

(** The longest prefix of [s] free of line terminators. *)
Fixpoint lineHead (s : jstring) : jstring :=
  match s with
  | [] => []
  | c :: s' => if isLineTerminator c then [] else c :: lineHead s'
  end.

(** The position just past the last separator of [l], if [l] has one. *)
Fixpoint afterLastSep (l : jstring) : option nat :=
  match l with
  | [] => None
  | c :: l' =>
      match afterLastSep l' with
      | Some k => Some (S k)
      | None => if isSep c then Some 1 else None
      end
  end.

(** [s.replace(/^.*[/\\]/, '')]: the greedy [.*] stops at the first line
    terminator and backtracks to the last separator before it. *)
Definition stripDirs (s : jstring) : jstring :=
  match afterLastSep (lineHead s) with
  | Some k => drop k s
  | None => s
  end.

(** [s.replace(/\.md$/i, '')] *)
Definition stripMdExt (s : jstring) : jstring :=
  if (3 <=? length s) && bool_decide (map fold_char (drop (length s - 3) s) = js ".md")
  then take (length s - 3) s else s.

(** [Array.prototype.sort(compare)]: the language makes the sort stable,
    so for a consistent comparator the outcome is that of any stable
    sort; an insertion sort stands for it. *)
Fixpoint sortInsert {A} (compare : A -> A -> Z) (x : A) (l : list A) : list A :=
  match l with
  | [] => [x]
  | y :: l' => if (compare x y <=? 0)%Z then x :: y :: l'
               else y :: sortInsert compare x l'
  end.

Fixpoint sort {A} (compare : A -> A -> Z) (l : list A) : list A :=
  match l with
  | [] => []
  | x :: l' => sortInsert compare x (sort compare l')
  end.

End JS.

(** ** Data model (types.ts) *)

Record StandardMetadata := mkMetadata {
  type : jstring;
  tier : jstring;
  process : jstring;
  tags : list jstring;
  version : jstring;
  status : jstring;
  author : jstring;
  created : jstring;
  updated : jstring;
}.

Record Standard := mkStandard {
  metadata : StandardMetadata;
  content : jstring;
  path : jstring;
}.

(** [FilterOptions]: every criterion is optional. *)
Record FilterOptions := mkFilterOptions {
  opt_type : option jstring;
  opt_tier : option jstring;
  opt_process : option jstring;
  opt_status : option jstring;
  opt_tags : option (list jstring);
}.

Record SearchMatch := mkSearchMatch {
  context : jstring;
  startIndex : nat;
  endIndex : nat;
}.

Record SearchResult := mkSearchResult {
  standard : Standard;
  matches : list SearchMatch;
  score : nat;
}.

Global Instance StandardMetadata_eq_dec : EqDecision StandardMetadata.
Proof. solve_decision. Defined.
Global Instance Standard_eq_dec : EqDecision Standard.
Proof. solve_decision. Defined.

(** ** Node's [path] module, POSIX flavour *)
Module Path.
Import JS.

(** [path.isAbsolute(p)] *)
Definition isAbsolute (p : jstring) : bool :=
  match p with
  | c :: _ => bool_decide (c = "/"%char)
  | [] => false
  end.

(** One step of [normalizeString]: [acc] is the stack of segments kept so
    far, innermost first. *)
Definition pushSegment (allowAboveRoot : bool) (acc : list jstring) (seg : jstring)
    : list jstring :=
  if bool_decide (seg = []) || bool_decide (seg = js ".") then acc
  else if bool_decide (seg = js "..") then
    match acc with
    | top :: below =>
        if bool_decide (top = js "..")
        then (if allowAboveRoot then seg :: acc else acc)
        else below
    | [] => if allowAboveRoot then [seg] else []
    end
  else seg :: acc.

(** The segments of [p] once [.], [..] and empty segments are resolved. *)
Definition normalizeSegments (allowAboveRoot : bool) (p : jstring) : list jstring :=
  rev (fold_left (pushSegment allowAboveRoot) (split "/" p) []).

Definition normalizeString (p : jstring) (allowAboveRoot : bool) : jstring :=
  JS.join (js "/") (normalizeSegments allowAboveRoot p).

(** [path.normalize(p)] *)
Definition normalize (p : jstring) : jstring :=
  match p with
  | [] => js "."
  | _ :: _ =>
      let absolute := isAbsolute p in
      let trailingSeparator := endsWith p (js "/") in
      let body := normalizeString p (negb absolute) in
      match body with
      | [] => if absolute then js "/" else if trailingSeparator then js "./" else js "."
      | _ :: _ =>
          let body := if trailingSeparator then body ++ js "/" else body in
          if absolute then js "/" ++ body else body
      end
  end.

(** [path.join(a, b)] *)
Definition join (a b : jstring) : jstring :=
  match a, b with
  | [], [] => js "."
  | [], _ :: _ => normalize b
  | _ :: _, [] => normalize a
  | _ :: _, _ :: _ => normalize (a ++ js "/" ++ b)
  end.

(** The segments of [path.resolve(p)] below the root, [cwd] being the
    working directory of the process (an absolute path). *)
Definition resolveSegments (cwd p : jstring) : list jstring :=
  normalizeSegments false (if isAbsolute p then p else cwd ++ js "/" ++ p).

(** Length of the longest common prefix of two segment lists. *)
Fixpoint commonSegments (a b : list jstring) : nat :=
  match a, b with
  | x :: a', y :: b' => if bool_decide (x = y) then S (commonSegments a' b') else 0
  | _, _ => 0
  end.

(** [path.relative(from, to)]: climb out of what is left of [from] after
    the common directories, then descend into what is left of [to]. *)
Definition relative (cwd from to : jstring) : jstring :=
  if bool_decide (from = to) then []
  else
    let f := resolveSegments cwd from in
    let t := resolveSegments cwd to in
    let k := commonSegments f t in
    JS.join (js "/") (replicate (length f - k) (js "..") ++ drop k t).

(** Drop the trailing slashes of [p]. *)
Fixpoint dropTrailingSlashes (rp : jstring) : jstring :=
  match rp with
  | c :: rp' => if bool_decide (c = "/"%char) then dropTrailingSlashes rp' else rp
  | [] => []
  end.

Fixpoint takeUntilSlash (rp : jstring) : jstring :=
  match rp with
  | c :: rp' => if bool_decide (c = "/"%char) then [] else c :: takeUntilSlash rp'
  | [] => []
  end.

(** [path.basename(p)]: the last segment, trailing slashes ignored. *)
Definition basename (p : jstring) : jstring :=
  rev (takeUntilSlash (dropTrailingSlashes (rev p))).

End Path.

(** ** The storage layer (services/storage.ts) *)
Module Storage.
Import JS.

(** Modelled from the spec: constants.ts is not among the sources; the
    store holds files named [...-{status}.md] (section 6), so
    [MARKDOWN_EXTENSION] is [".md"]. *)
Definition MARKDOWN_EXTENSION : jstring := js ".md".

Definition isLowerAlnum (c : ascii) : bool :=
  let n := code c in
  ((97 <=? n) && (n <=? 122)) || ((48 <=? n) && (n <=? 57)).

(** [s.replace(/[^a-z0-9]+/g, '-')]; [inRun] tells that the previous
    character already belongs to the run being replaced. *)
Fixpoint replaceNonAlnumRuns (inRun : bool) (s : jstring) : jstring :=
  match s with
  | [] => []
  | c :: s' =>
      if isLowerAlnum c then c :: replaceNonAlnumRuns false s'
      else if inRun then replaceNonAlnumRuns true s'
      else "-"%char :: replaceNonAlnumRuns true s'
  end.

(** [s.replace(/-+/g, '-')] *)
Fixpoint collapseHyphens (inRun : bool) (s : jstring) : jstring :=
  match s with
  | [] => []
  | c :: s' =>
      if bool_decide (c = "-"%char)
      then (if inRun then collapseHyphens true s' else c :: collapseHyphens true s')
      else c :: collapseHyphens false s'
  end.

(** [s.replace(/^-|-$/g, '')]: one leading and one trailing hyphen go. *)
Definition trimHyphens (s : jstring) : jstring :=
  let s1 := match s with
            | c :: r => if bool_decide (c = "-"%char) then r else s
            | [] => s
            end in
  match rev s1 with
  | c :: r => if bool_decide (c = "-"%char) then rev r else s1
  | [] => s1
  end.

Definition sanitizeFilename (filename : jstring) : jstring :=
  let base := stripStandardsPrefix filename in
  let base := Path.basename base in
  let base := if endsWith (toLowerCase base) MARKDOWN_EXTENSION
              then slice base 0 (- Z.of_nat (length MARKDOWN_EXTENSION))
              else base in
  let sanitized :=
    trimHyphens (collapseHyphens false (replaceNonAlnumRuns false (toLowerCase base))) in
  sanitized ++ MARKDOWN_EXTENSION.

Definition generateDefaultFilename (m : StandardMetadata) : jstring :=
  match tags m with
  | t :: _ => sanitizeFilename t
  | [] =>
      match tier m with
      | _ :: _ => sanitizeFilename (tier m)
      | [] => sanitizeFilename (type m)
      end
  end.

Definition nonEmpty (s : jstring) : bool :=
  match s with
  | [] => false
  | _ :: _ => true
  end.

Definition generateFilePath (m : StandardMetadata) (filename : option jstring) : jstring :=
  let sanitizedFilename :=
    match filename with
    | Some (c :: f) => sanitizeFilename (c :: f)
    | _ => generateDefaultFilename m
    end in
  let prefixParts := map toLowerCase (List.filter nonEmpty [type m; tier m; process m]) in
  let titleBase :=
    if endsWith sanitizedFilename MARKDOWN_EXTENSION
    then slice sanitizedFilename 0 (- Z.of_nat (length MARKDOWN_EXTENSION))
    else sanitizedFilename in
  let prefix := JS.join (js "-") prefixParts ++ js "-" in
  let suffix := js "-" ++ toLowerCase (status m) in
  let finalBase := toLowerCase titleBase in
  let finalBase := if startsWith finalBase prefix
                   then sliceFrom finalBase (Z.of_nat (length prefix))
                   else finalBase in
  let finalBase := if endsWith finalBase suffix
                   then slice finalBase 0 (- Z.of_nat (length suffix))
                   else finalBase in
  prefix ++ finalBase ++ suffix ++ MARKDOWN_EXTENSION.

(** The position just past the last dot of [s], if [s] has one. *)
Fixpoint afterLastDot (s : jstring) : option nat :=
  match s with
  | [] => None
  | c :: s' =>
      match afterLastDot s' with
      | Some k => Some (S k)
      | None => if bool_decide (c = "."%char) then Some 1 else None
      end
  end.

(** [s.replace(/\.[^.]+$/, '')]: the last extension goes, unless the
    string ends in a dot. *)
Definition stripLastExtension (s : jstring) : jstring :=
  match afterLastDot s with
  | Some k => if k <? length s then take (k - 1) s else s
  | None => s
  end.

(** The local function of [updateStandard] that recovers the title part
    of an existing file name. *)
Definition extractTitleBaseFromFilename (basename : jstring) (m : StandardMetadata)
    : jstring :=
  let parts := split "-" basename in
  let fallback :=
    if 3 <? length parts then JS.join (js "-") (sliceFrom parts 3) else basename in
  if 5 <=? length parts then
    let possibleStatus := parts !! 3 in
    let lastPart := parts !! (length parts - 1) in
    if bool_decide (lastPart = Some (status m)) then
      JS.join (js "-") (slice parts 3 (Z.of_nat (length parts) - 1))
    else if bool_decide (possibleStatus = Some (status m)) then
      JS.join (js "-") (sliceFrom parts 4)
    else fallback
  else fallback.

(** *** The file system and the errors of the service *)

Record File := mkFile {
  data : jstring;
  readable : bool;
}.

Inductive Error :=
| ErrnoException (errno : jstring)        (* a failed [fs] call and its [code] *)
| StandardNotFound (filePath : jstring)   (* ERROR_MESSAGES.STANDARD_NOT_FOUND *)
| FileReadError (cause : Error)           (* ERROR_MESSAGES.FILE_READ_ERROR *)
| FileWriteError (cause : Error)          (* ERROR_MESSAGES.FILE_WRITE_ERROR *)
| TargetExists (newRelativePath : jstring)
| MalformedDocument                       (* thrown by the parser *)
| ValidationError.                        (* thrown by the validator *)

(** [error.code] *)
Definition errorCode (e : Error) : option jstring :=
  match e with
  | ErrnoException c => Some c
  | _ => None
  end.

Definition ENOENT : jstring := js "ENOENT".
Definition EACCES : jstring := js "EACCES".

(** The world a storage call runs in: the regular files by full path, the
    file systems observed after each mutating call (oldest first), and
    what was written to the console.  Directories are not entries of the
    map: a path that names a directory, or that passes through a regular
    file, is answered like a path that names nothing ([ENOENT]), where
    the file system answers [EISDIR] or [ENOTDIR]. *)
Record World := mkWorld {
  files : gmap jstring File;
  history : list (gmap jstring File);
  console : list (jstring * Error);
}.

Inductive Result (A : Type) :=
| Ok (a : A)
| Throw (e : Error).
Arguments Ok {A} a.
Arguments Throw {A} e.

(** An asynchronous function returning [A]. *)
Definition Async (A : Type) : Type := World -> Result A * World.

Definition ret {A} (a : A) : Async A := fun w => (Ok a, w).
Definition throw {A} (e : Error) : Async A := fun w => (Throw e, w).
Definition bind {A B} (m : Async A) (k : A -> Async B) : Async B :=
  fun w => match m w with
           | (Ok a, w') => k a w'
           | (Throw e, w') => (Throw e, w')
           end.
(** [try { m } catch (e) { handler(e) }] *)
Definition tryCatch {A} (m : Async A) (handler : Error -> Async A) : Async A :=
  fun w => match m w with
           | (Ok a, w') => (Ok a, w')
           | (Throw e, w') => handler e w'
           end.

Notation "'await' x <- m ; k" := (bind m (fun x => k))
  (at level 10, x name, m at level 100, k at level 200).
Notation "m ;; k" := (bind m (fun _ => k))
  (at level 100, k at level 200, right associativity).

Definition setFiles (fs : gmap jstring File) : Async unit :=
  fun w => (Ok tt, {| files := fs; history := history w ++ [fs]; console := console w |}).

(** [fs.access(p)] *)
Definition access (p : jstring) : Async unit :=
  fun w => match files w !! p with
           | Some _ => (Ok tt, w)
           | None => (Throw (ErrnoException ENOENT), w)
           end.

(** [fs.readFile(p, 'utf-8')] *)
Definition readFile (p : jstring) : Async jstring :=
  fun w => match files w !! p with
           | Some f => if readable f then (Ok (data f), w)
                       else (Throw (ErrnoException EACCES), w)
           | None => (Throw (ErrnoException ENOENT), w)
           end.

(** [fs.writeFile(p, text, 'utf-8')]: creates the file or replaces its
    content. *)
Definition writeFile (p text : jstring) : Async unit :=
  fun w =>
    let f := match files w !! p with
             | Some old => {| data := text; readable := readable old |}
             | None => {| data := text; readable := true |}
             end in
    setFiles (<[p := f]> (files w)) w.

(** [fs.rename(from, to)]: one atomic step; an existing target is
    replaced. *)
Definition rename (from to : jstring) : Async unit :=
  fun w => match files w !! from with
           | Some f => setFiles (<[to := f]> (delete from (files w))) w
           | None => (Throw (ErrnoException ENOENT), w)
           end.

(** [fs.mkdir(path.dirname(fullPath), { recursive: true })]: directories
    are not part of the model, the call succeeds without effect. *)
Definition mkdirFor (fullPath : jstring) : Async unit := ret tt.

(** [console.error(`Error reading standard ${file}:`, error)] *)
Definition consoleError (file : jstring) (e : Error) : Async unit :=
  fun w => (Ok tt, {| files := files w; history := history w;
                      console := console w ++ [(file, e)] |}).

(** A partial metadata record, as [updates.metadata] carries. *)
Record PartialMetadata := mkPartial {
  p_type : option jstring;
  p_tier : option jstring;
  p_process : option jstring;
  p_tags : option (list jstring);
  p_version : option jstring;
  p_status : option jstring;
  p_author : option jstring;
  p_created : option jstring;
  p_updated : option jstring;
}.

Record Updates := mkUpdates {
  u_content : option jstring;
  u_metadata : option PartialMetadata;
}.

(** [{ ...existing, ...patch, updated: now }] *)
Definition mergeMetadata (existing : StandardMetadata) (patch : PartialMetadata)
    (now : jstring) : StandardMetadata :=
  {| type := default (type existing) (p_type patch);
     tier := default (tier existing) (p_tier patch);
     process := default (process existing) (p_process patch);
     tags := default (tags existing) (p_tags patch);
     version := default (version existing) (p_version patch);
     status := default (status existing) (p_status patch);
     author := default (author existing) (p_author patch);
     created := default (created existing) (p_created patch);
     updated := now |}.

Section Service.
(** [STANDARDS_DIR] (constants.ts) and the working directory. *)
Variable STANDARDS_DIR : jstring.
Variable cwd : jstring.
(** services/parser.ts is not among the sources: what the parser reads
    off a raw file (the metadata and the body, or nothing when the
    metadata block is malformed) and the serializer are parameters. *)
Variable parseFrontmatter : jstring -> option (StandardMetadata * jstring).
Variable serializeStandard : Standard -> jstring.
(** services/validator.ts is not among the sources: [validateMetadata]
    (the normalized metadata, or nothing when it throws) and the value of
    [generateISODate()] are parameters. *)
Variable validateMetadata : StandardMetadata -> option StandardMetadata.
Variable generateISODate : jstring.

(** Modelled from the spec: [parseStandard] of services/parser.ts is not
    among the sources.  [parse(raw, path)] yields the document whose
    metadata and body are those stored in [raw] and whose path is [path];
    it fails on a malformed metadata block (section 4.1). *)
Definition parseStandard (raw relativePath : jstring) : Async Standard :=
  match parseFrontmatter raw with
  | Some (m, body) => ret {| metadata := m; content := body; path := relativePath |}
  | None => throw MalformedDocument
  end.

Definition normalizeTargetPath (p : jstring) : jstring :=
  match p with
  | [] => p
  | _ :: _ =>
      if Path.isAbsolute p then Path.relative cwd STANDARDS_DIR p
      else stripStandardsPrefix p
  end.

Definition fullPathOf (normalized : jstring) : jstring :=
  if Path.isAbsolute normalized then normalized
  else Path.join STANDARDS_DIR normalized.

Definition readStandard (filePath : jstring) : Async Standard :=
  tryCatch
    (let normalized := normalizeTargetPath filePath in
     let fullPath := fullPathOf normalized in
     await raw <- readFile fullPath;
     let relativePath := Path.relative cwd STANDARDS_DIR fullPath in
     parseStandard raw relativePath)
    (fun error =>
       if bool_decide (errorCode error = Some ENOENT)
       then throw (StandardNotFound filePath)
       else throw (FileReadError error)).

Definition writeStandard (standard : Standard) (targetPath : option jstring)
    : Async jstring :=
  tryCatch
    (let target := match targetPath with
                   | Some (c :: t) => c :: t
                   | _ => path standard
                   end in
     let filePath := normalizeTargetPath target in
     let fullPath := fullPathOf filePath in
     mkdirFor fullPath ;;
     let text := serializeStandard standard in
     writeFile fullPath text ;;
     ret (Path.relative cwd STANDARDS_DIR fullPath))
    (fun error => throw (FileWriteError error)).

Definition updateStandard (filePath : jstring) (updates : Updates) : Async Standard :=
  await existing <- readStandard filePath;
  let newContent := default (content existing) (u_content updates) in
  let newMetadata :=
    match u_metadata updates with
    | Some patch => mergeMetadata (metadata existing) patch generateISODate
    | None => metadata existing
    end in
  match validateMetadata newMetadata with
  | None => throw ValidationError
  | Some validatedNewMetadata =>
      let existingBasename := stripLastExtension (Path.basename (path existing)) in
      let titleBase := extractTitleBaseFromFilename existingBasename (metadata existing) in
      let newFilename := generateFilePath validatedNewMetadata (Some titleBase) in
      let newRelativePath := normalizeTargetPath newFilename in
      let oldRelativePath := normalizeTargetPath (path existing) in
      let oldFullPath := Path.join STANDARDS_DIR oldRelativePath in
      let newFullPath := Path.join STANDARDS_DIR newRelativePath in
      let updated := {| metadata := validatedNewMetadata;
                        content := newContent;
                        path := Path.relative cwd STANDARDS_DIR newFullPath |} in
      (if bool_decide (oldFullPath <> newFullPath) then
         tryCatch
           (access newFullPath ;; throw (TargetExists newRelativePath))
           (fun e => if bool_decide (errorCode e <> Some ENOENT)
                     then throw e else ret tt) ;;
         mkdirFor newFullPath ;;
         rename oldFullPath newFullPath ;;
         let contentToWrite := serializeStandard updated in
         writeFile newFullPath contentToWrite
       else
         writeStandard updated None ;; ret tt) ;;
      ret updated
  end.

(** [glob('*.md', { cwd: STANDARDS_DIR, nodir: true })] belongs to a
    library; the names it reports for a file system are a parameter. *)
Variable glob : gmap jstring File -> list jstring.

Definition listAllStandardFiles : Async (list jstring) :=
  fun w =>
    let found := glob (files w) in
    let absoluteFiles := map (Path.join STANDARDS_DIR) found in
    (Ok (map (Path.relative cwd STANDARDS_DIR) absoluteFiles), w).

(** The [for (const file of files)] loop of [readAllStandards]. *)
Fixpoint readEach (fileNames : list jstring) (standards : list Standard)
    : Async (list Standard) :=
  match fileNames with
  | [] => ret standards
  | file :: rest =>
      await standards' <-
        tryCatch
          (await standard <- readStandard file; ret (standards ++ [standard]))
          (fun error => consoleError file error ;; ret standards);
      readEach rest standards'
  end.

Definition readAllStandards : Async (list Standard) :=
  await fileNames <- listAllStandardFiles;
  readEach fileNames [].
End Service.

(** *** Creating, deleting and probing documents *)

(** [fs.unlink(p)] *)
Definition unlink (p : jstring) : Async unit :=
  fun w => match files w !! p with
           | Some _ => setFiles (delete p (files w)) w
           | None => (Throw (ErrnoException ENOENT), w)
           end.

(** [Omit<StandardMetadata, 'version' | 'created' | 'updated'>], the
    metadata a caller of [createStandard] supplies. *)
Record MetadataInput := mkInput {
  i_type : jstring;
  i_tier : jstring;
  i_process : jstring;
  i_tags : list jstring;
  i_status : jstring;
  i_author : jstring;
}.

(** What [createStandard] and [deleteStandard] throw: an error of the
    calls they make, or one of their own two. *)
Inductive Failure :=
| Raised (e : Error)
| StandardExists (filePath : jstring)   (* Standard already exists at: ... *)
| DeleteError (cause : Error).          (* Error deleting standard: ... *)

Section Lifecycle.
Variable STANDARDS_DIR : jstring.
Variable cwd : jstring.
Variable serializeStandard : Standard -> jstring.
Variable validateMetadata : StandardMetadata -> option StandardMetadata.
(** [generateInitialVersion()] and the values of the two successive
    calls of [generateISODate()] in [createStandard]. *)
Variable generateInitialVersion : jstring.
Variable createdDate : jstring.
Variable updatedDate : jstring.

(** [{ ...metadata, version, created, updated }] *)
Definition completeMetadata (input : MetadataInput) : StandardMetadata :=
  {| type := i_type input; tier := i_tier input; process := i_process input;
     tags := i_tags input;
     version := generateInitialVersion;
     status := i_status input; author := i_author input;
     created := createdDate;
     updated := updatedDate |}.

(** [createStandard].  The error thrown inside the [try] when the file
    exists carries no [code], so the [catch] throws it again. *)
Definition createStandard (input : MetadataInput) (content0 : jstring)
    (filename : option jstring) (w : World) : (Standard + Failure) * World :=
  match validateMetadata (completeMetadata input) with
  | None => (inr (Raised ValidationError), w)
  | Some validatedMetadata =>
      let filePath :=
        normalizeTargetPath STANDARDS_DIR cwd (generateFilePath validatedMetadata filename) in
      let fullPath := Path.join STANDARDS_DIR filePath in
      match access fullPath w with
      | (Ok _, w1) => (inr (StandardExists filePath), w1)
      | (Throw error, w1) =>
          if bool_decide (errorCode error <> Some ENOENT)
          then (inr (Raised error), w1)
          else
            let standard := {| metadata := validatedMetadata;
                               content := content0;
                               path := Path.relative cwd STANDARDS_DIR fullPath |} in
            match writeStandard STANDARDS_DIR cwd serializeStandard standard None w1 with
            | (Ok _, w2) => (inl standard, w2)
            | (Throw e, w2) => (inr (Raised e), w2)
            end
      end
  end.

(** [deleteStandard] *)
Definition deleteStandard (filePath : jstring) (w : World) : (unit + Failure) * World :=
  let normalized := normalizeTargetPath STANDARDS_DIR cwd filePath in
  let fullPath := fullPathOf STANDARDS_DIR normalized in
  match unlink fullPath w with
  | (Ok _, w1) => (inl tt, w1)
  | (Throw error, w1) =>
      if bool_decide (errorCode error = Some ENOENT)
      then (inr (Raised (StandardNotFound filePath)), w1)
      else (inr (DeleteError error), w1)
  end.

(** [fileExists] *)
Definition fileExists (filePath : jstring) : Async bool :=
  tryCatch
    (let normalized := normalizeTargetPath STANDARDS_DIR cwd filePath in
     let fullPath := fullPathOf STANDARDS_DIR normalized in
     access fullPath ;;
     ret true)
    (fun _ => ret false).
End Lifecycle.

End Storage.

(** ** The index engine (services/indexer.ts) *)
Module Indexer.
Import JS.

Definition normalizeIndexPath (p : jstring) : jstring :=
  match p with
  | [] => p
  | _ :: _ => stripStandardsPrefix p
  end.

Definition normalizeTypeName (t : jstring) : jstring :=
  match t with
  | [] => t
  | _ :: _ =>
      let lower := toLowerCase t in
      if bool_decide (lower = js "standards") then js "standard"
      else if bool_decide (lower = js "principles") then js "principle"
      else if bool_decide (lower = js "practices") then js "practice"
      else if bool_decide (lower = js "technical-stack") then js "tech-stack"
      else lower
  end.

(** [o && test(o)] for an optional string [o]. *)
Definition given (o : option jstring) (test : jstring -> bool) : bool :=
  match o with
  | Some (c :: q) => test (c :: q)
  | _ => false
  end.

(** The callback of [StandardsIndex.filter]: [true] keeps the document. *)
Definition filterCallback (options : FilterOptions) (standard : Standard) : bool :=
  let m := metadata standard in
  if given (opt_type options)
       (fun t => negb (bool_decide (normalizeTypeName (type m) = normalizeTypeName t)))
  then false
  else if given (opt_tier options) (fun t => negb (bool_decide (tier m = t)))
  then false
  else if given (opt_process options) (fun t => negb (bool_decide (process m = t)))
  then false
  else if given (opt_status options) (fun t => negb (bool_decide (status m = t)))
  then false
  else
    match opt_tags options with
    | Some (t :: ts) =>
        let hasAllTags := forallb (fun tag => bool_decide (tag ∈ tags m)) (t :: ts) in
        if negb hasAllTags then false else true
    | _ => true
    end.

(** [StandardsIndex.filter] over the snapshot [standards]. *)
Definition filter (standards : list Standard) (options : FilterOptions) : list Standard :=
  List.filter (filterCallback options) standards.

(** File name without directories and extension, lower-cased. *)
Definition baseName (p : jstring) : jstring :=
  toLowerCase (stripMdExt (stripDirs p)).

(** [StandardsIndex.findByPath] *)
Definition findByPath (standards : list Standard) (p : jstring) : option Standard :=
  let normalized := normalizeIndexPath p in
  match normalized with
  | [] => None
  | _ :: _ =>
      match List.find (fun s => bool_decide (path s = normalized)) standards with
      | Some m => Some m
      | None =>
          let normalizedBase := baseName normalized in
          List.find
            (fun s =>
               let sBase := baseName (path s) in
               if bool_decide (sBase = normalizedBase) then true
               else if includes sBase normalizedBase then true
               else false)
            standards
      end
  end.

(** The state of the [StandardsIndex] singleton. *)
Record StandardsIndex := mkIndex {
  standards : list Standard;
  lastRefresh : option jstring;
}.

Definition emptyIndex : StandardsIndex := {| standards := []; lastRefresh := None |}.

Section Refresh.
Variable STANDARDS_DIR : jstring.
Variable cwd : jstring.
Variable parseFrontmatter : jstring -> option (StandardMetadata * jstring).
Variable glob : gmap jstring Storage.File -> list jstring.
(** The value of [new Date()] at the end of the refresh. *)
Variable newDate : jstring.

(** [StandardsIndex.refresh] *)
Definition refresh (this : StandardsIndex) : Storage.Async StandardsIndex :=
  Storage.bind (Storage.readAllStandards STANDARDS_DIR cwd parseFrontmatter glob)
    (fun all => Storage.ret {| standards := all; lastRefresh := Some newDate |}).
End Refresh.

Definition getCount (this : StandardsIndex) : nat := length (standards this).

(** *** Full-text search *)
Section Search.
(** [extractContext] (services/parser.ts) and [SEARCH_CONTEXT_LENGTH]
    (constants.ts) are not part of the sources at hand; the search is
    parametric in them. *)
Variable extractContext : jstring -> nat -> nat -> jstring.
Variable SEARCH_CONTEXT_LENGTH : nat.

(** The [while (index !== -1)] loop over the body.  [fuel] bounds the
    number of iterations; [None] means the loop is still running when
    the fuel is spent. *)
Fixpoint scanContent (fuel : nat) (content0 contentLower queryLower : jstring)
    (queryLength : nat) (index : option nat)
    (matches0 : list SearchMatch) (score0 : nat)
    : option (list SearchMatch * nat) :=
  match index with
  | None => Some (matches0, score0)
  | Some i =>
      match fuel with
      | 0 => None
      | S fuel' =>
          let m := {| context := extractContext content0 i SEARCH_CONTEXT_LENGTH;
                      startIndex := i;
                      endIndex := i + queryLength |} in
          scanContent fuel' content0 contentLower queryLower queryLength
            (indexOf contentLower queryLower (i + 1))
            (matches0 ++ [m]) (score0 + 1)
      end
  end.

Definition metadataText (m : StandardMetadata) : jstring :=
  toLowerCase (join (js " ") ([type m; tier m; process m] ++ tags m ++ [author m])).

(** One iteration of the [for (const standard of filtered)] loop: the
    result pushed for [standard], if any. *)
Definition searchOne (fuel : nat) (query queryLower : jstring) (standard : Standard)
    : option (option SearchResult) :=
  let contentLower := toLowerCase (content standard) in
  match scanContent fuel (content standard) contentLower queryLower (length query)
          (indexOf contentLower queryLower 0) [] 0 with
  | None => None
  | Some (matches1, score1) =>
      let score2 := if includes (metadataText (metadata standard)) queryLower
                    then score1 + 2 else score1 in
      let score3 := if includes (toLowerCase (path standard)) queryLower
                    then score2 + 1 else score2 in
      if (0 <? length matches1) || (0 <? score3)
      then Some (Some {| standard := standard;
                         matches := slice matches1 0 3;
                         score := score3 |})
      else Some None
  end.

Fixpoint searchLoop (fuel : nat) (query queryLower : jstring) (filtered : list Standard)
    (results : list SearchResult) : option (list SearchResult) :=
  match filtered with
  | [] => Some results
  | standard :: rest =>
      match searchOne fuel query queryLower standard with
      | None => None
      | Some None => searchLoop fuel query queryLower rest results
      | Some (Some r) => searchLoop fuel query queryLower rest (results ++ [r])
      end
  end.

(** The comparator [(a, b) => b.score - a.score]. *)
Definition byScore (a b : SearchResult) : Z :=
  (Z.of_nat (score b) - Z.of_nat (score a))%Z.

(** [StandardsIndex.search]; an omitted [limit] is 10. *)
Definition search (fuel : nat) (standards : list Standard) (query : jstring)
    (options : FilterOptions) (limit : option Z) : option (list SearchResult) :=
  let limit := default 10%Z limit in
  let queryLower := toLowerCase query in
  let filtered := filter standards options in
  match searchLoop fuel query queryLower filtered [] with
  | None => None
  | Some results => Some (slice (sort byScore results) 0 limit)
  end.
End Search.

(** [StandardsIndex.findByMetadata] *)
Definition findByMetadata (standards : list Standard) (options : FilterOptions)
    : list Standard :=
  filter standards options.

(** *** The hierarchical index and the metadata list *)

(** An entry [{ path, metadata }]. *)
Record Entry := mkEntry {
  e_path : jstring;
  e_metadata : StandardMetadata;
}.

Definition entryOf (s : Standard) : Entry :=
  {| e_path := path s; e_metadata := metadata s |}.

(** [StandardsIndex.getMetadataList] *)
Definition getMetadataList (standards : list Standard) (options : FilterOptions)
    : list Entry :=
  let filtered := filter standards options in
  map entryOf filtered.

(** [HierarchicalIndex]: an object from type to tier to process to the
    entries, as a finite map of its own properties. *)
Abbreviation Processes := (gmap jstring (list Entry)).
Abbreviation Tiers := (gmap jstring Processes).
Abbreviation HierarchicalIndex := (gmap jstring Tiers).

(** The names every object inherits from [Object.prototype].  For such a
    name [k], [index[k]] is not [undefined] on an object without own
    properties. *)
Definition inheritedNames : list jstring :=
  [js "constructor"; js "hasOwnProperty"; js "isPrototypeOf";
   js "propertyIsEnumerable"; js "toLocaleString"; js "toString"; js "valueOf";
   js "__proto__"; js "__defineGetter__"; js "__defineSetter__";
   js "__lookupGetter__"; js "__lookupSetter__"].

(** The keys of [standard] name own properties only. *)
Definition ownKeys (standard : Standard) : bool :=
  let m := metadata standard in
  bool_decide (type m ∉ inheritedNames) &&
  bool_decide (tier m ∉ inheritedNames) &&
  bool_decide (process m ∉ inheritedNames).

(** The body of the [for (const standard of filtered)] loop of
    [buildHierarchicalIndex], for keys that name own properties. *)
Definition addEntry (index : HierarchicalIndex) (standard : Standard) : HierarchicalIndex :=
  let type := type (metadata standard) in
  let tier := tier (metadata standard) in
  let process := process (metadata standard) in
  let index := match index !! type with
               | None => <[type := ∅]> index
               | Some _ => index
               end in
  let tiers := default ∅ (index !! type) in
  let tiers := match tiers !! tier with
               | None => <[tier := ∅]> tiers
               | Some _ => tiers
               end in
  let processes := default ∅ (tiers !! tier) in
  let processes := match processes !! process with
                   | None => <[process := []]> processes
                   | Some _ => processes
                   end in
  let entries := default [] (processes !! process) in
  <[type := <[tier := <[process := entries ++ [entryOf standard]]> processes]> tiers]> index.

Fixpoint buildLoop (filtered : list Standard) (index : HierarchicalIndex)
    : option HierarchicalIndex :=
  match filtered with
  | [] => Some index
  | standard :: rest =>
      if ownKeys standard then buildLoop rest (addEntry index standard) else None
  end.

(** [StandardsIndex.buildHierarchicalIndex].  The result is [None] when a
    type, tier or process of a filtered document is an inherited name:
    the code then reads a built-in object in place of a group, and what
    it does is not a property of the index. *)
Definition buildHierarchicalIndex (standards : list Standard) (options : FilterOptions)
    : option HierarchicalIndex :=
  let filtered := filter standards options in
  buildLoop filtered ∅.

(** [Object.values(o)] *)
Definition values {A} (o : gmap jstring A) : list A := (map_to_list o).*2.

(** The count of [listIndex] (tools/list.ts): the three nested loops over
    [Object.values]. *)
Definition totalCount (hierarchicalIndex : HierarchicalIndex) : nat :=
  foldl (fun (totalCount : nat) (tiers : Tiers) =>
    foldl (fun (totalCount : nat) (processes : Processes) =>
      foldl (fun (totalCount : nat) (entries : list Entry) =>
               totalCount + length entries)
        totalCount (values processes))
      totalCount (values tiers))
    0 (values hierarchicalIndex).

End Indexer.

(* ===================================================================== *)
(** * Part II: the vocabulary of the properties                           *)
(* ===================================================================== *)

Section Vocabulary.
Import JS Storage Indexer.
Variable STANDARDS_DIR : jstring.
Variable cwd : jstring.
Variable parseFrontmatter : jstring -> option (StandardMetadata * jstring).
Variable serializeStandard : Standard -> jstring.
Variable validateMetadata : StandardMetadata -> option StandardMetadata.
Variable generateISODate : jstring.
Variable glob : gmap jstring File -> list jstring.
Variable extractContext : jstring -> nat -> nat -> jstring.
Variable SEARCH_CONTEXT_LENGTH : nat.

Local Abbreviation normalizeTargetPath := (Storage.normalizeTargetPath STANDARDS_DIR cwd).
Local Abbreviation fullPathOf := (Storage.fullPathOf STANDARDS_DIR).

(** [q] occurs in [s] at position [i]. *)
Definition occursAt (s q : jstring) (i : nat) : Prop :=
  i <= length s /\ q `prefix_of` drop i s.

Global Instance occursAt_dec s q i : Decision (occursAt s q i).
Proof. unfold occursAt. apply _. Defined.

(** A string criterion is present when it is supplied and, by JavaScript
    truthiness, not the empty string. *)
Definition present (o : option jstring) (v : jstring) : Prop :=
  o = Some v /\ v <> [].

(** The type names of the data model. *)
Definition typeNames : list jstring :=
  [js "principle"; js "standard"; js "practice"; js "tech-stack"; js "process"].

(** The English plural of a type name. *)
Definition pluralOf (name : jstring) : jstring :=
  if endsWith name (js "s") then name ++ js "es" else name ++ js "s".

(** Plural-to-singular normalization, read on the type names: the plural
    of a type name stands for that type, every other value for itself. *)
Definition singularOf (t : jstring) : jstring :=
  match List.find (fun name => bool_decide (pluralOf name = t)) typeNames with
  | Some name => name
  | None => t
  end.

(** The spellings the comparison of types folds, each with the type name
    it stands for: three plurals and one older name. *)
Definition legacySpellings : list (jstring * jstring) :=
  [(js "standards", js "standard");
   (js "principles", js "principle");
   (js "practices", js "practice");
   (js "technical-stack", js "tech-stack")].

(** The type a value stands for in a comparison: the value in lower
    case, replaced by its type name when it is one of the legacy
    spellings. *)
Definition canonicalType (t : jstring) : jstring :=
  let lower := toLowerCase t in
  match List.find (fun spelling => bool_decide (fst spelling = lower)) legacySpellings with
  | Some spelling => snd spelling
  | None => lower
  end.

(** The document [d] matches the criteria: every present criterion
    matches; the types are compared by what they stand for; every
    requested tag is among the tags of the document. *)
Definition criteriaMatch (options : FilterOptions) (d : Standard) : Prop :=
  (forall t, present (opt_type options) t ->
     canonicalType (type (metadata d)) = canonicalType t) /\
  (forall t, present (opt_tier options) t -> tier (metadata d) = t) /\
  (forall t, present (opt_process options) t -> process (metadata d) = t) /\
  (forall t, present (opt_status options) t -> status (metadata d) = t) /\
  (forall requested tag, opt_tags options = Some requested ->
     tag ∈ requested -> tag ∈ tags (metadata d)).

(** The criteria as the claims read them: the types compared after
    plural-to-singular normalization of both sides. *)
Definition claimedMatch (options : FilterOptions) (d : Standard) : Prop :=
  (forall t, present (opt_type options) t ->
     singularOf (type (metadata d)) = singularOf t) /\
  (forall t, present (opt_tier options) t -> tier (metadata d) = t) /\
  (forall t, present (opt_process options) t -> process (metadata d) = t) /\
  (forall t, present (opt_status options) t -> status (metadata d) = t) /\
  (forall requested tag, opt_tags options = Some requested ->
     tag ∈ requested -> tag ∈ tags (metadata d)).

(** Two strings that differ only in letter case. *)
Definition differsOnlyInCase (a b : jstring) : Prop :=
  toLowerCase a = toLowerCase b /\ a <> b.

Definition typeOnly (t : jstring) : FilterOptions :=
  {| opt_type := Some t; opt_tier := None; opt_process := None;
     opt_status := None; opt_tags := None |}.

Definition sampleMetadata : StandardMetadata :=
  {| type := js "standard"; tier := js "backend"; process := js "development";
     tags := [js "spring-boot"; js "security"]; version := js "1.0.0";
     status := js "active"; author := js "platform-team";
     created := js "2024-01-01T00:00:00.000Z";
     updated := js "2024-01-01T00:00:00.000Z" |}.

Definition sampleDocument (p body : string) : Standard :=
  {| metadata := sampleMetadata; content := js body; path := js p |}.

Definition tierOnly (t : jstring) : FilterOptions :=
  {| opt_type := None; opt_tier := Some t; opt_process := None;
     opt_status := None; opt_tags := None |}.

(** The positions among [k, k+1, ..., length s] where [q] occurs. *)
Definition occurrencesFrom (s q : jstring) (k : nat) : list nat :=
  base.filter (occursAt s q) (seq k (S (length s) - k)).

(** [a] may stand before [b] in a list sorted by descending score. *)
Definition scoreGe (a b : SearchResult) : Prop := score b <= score a.

(** The match recorded for an occurrence at position [i]. *)
Definition matchAt (body : jstring) (queryLength i : nat) : SearchMatch :=
  {| context := extractContext body i SEARCH_CONTEXT_LENGTH;
     startIndex := i;
     endIndex := i + queryLength |}.

(** The starting positions at which the lower-cased query occurs in the
    lower-cased body, overlapping occurrences included. *)
Definition bodyOccurrences (body query : jstring) : list nat :=
  occurrencesFrom (toLowerCase body) (toLowerCase query) 0.

(** The parts one after the other, separated by single spaces. *)
Fixpoint spaced (parts : list jstring) : jstring :=
  match parts with
  | [] => []
  | [part] => part
  | part :: rest => part ++ " "%char :: spaced rest
  end.

(** The concatenation of type, tier, process, tags and author. *)
Definition concatenation (m : StandardMetadata) : jstring :=
  spaced (type m :: tier m :: process m :: tags m ++ [author m]).

(** [q] occurs somewhere in [s], letter case ignored. *)
Definition occursIn (s q : jstring) : Prop :=
  exists i, occursAt (toLowerCase s) (toLowerCase q) i.

Global Instance occursIn_dec s q : Decision (occursIn s q).
Proof.
  refine (cast_if (decide (Exists (occursAt (toLowerCase s) (toLowerCase q))
                             (seq 0 (S (length (toLowerCase s)))))));
    unfold occursIn; rewrite Exists_exists in *.
  - destruct e as (i & _ & Hi). by exists i.
  - intros (i & Hi). apply n. exists i. split; [|done].
    apply elem_of_seq. destruct Hi as [Hi _]. lia.
Defined.

(** The score of the specification: one point per occurrence in the
    body, two points flat when the query occurs in the concatenation of
    type, tier, process, tags and author, one point flat when it occurs
    in the path. *)
Definition specScore (d : Standard) (query : jstring) : nat :=
  length (bodyOccurrences (content d) query)
  + (if bool_decide (occursIn (concatenation (metadata d)) query) then 2 else 0)
  + (if bool_decide (occursIn (path d) query) then 1 else 0).

(** The result of the specification for one document: none when nothing
    matched, otherwise the score with at most three snippets. *)
Definition specResult (query : jstring) (d : Standard) : option SearchResult :=
  if specScore d query =? 0 then None
  else Some {| standard := d;
               matches := take 3 (map (matchAt (content d) (length query))
                                      (bodyOccurrences (content d) query));
               score := specScore d query |}.

(** A stand-in for [extractContext]: the window of [windowSize] characters
    around the match, clipped to the text. *)
Definition windowAround (text : jstring) (matchIndex windowSize : nat) : jstring :=
  take windowSize (drop (matchIndex - windowSize / 2) text).

Definition noCriteria : FilterOptions :=
  {| opt_type := None; opt_tier := None; opt_process := None;
     opt_status := None; opt_tags := None |}.

(** A path segment proper: not empty, not [.] or [..], free of slashes. *)
Definition plainSegment (s : jstring) : Prop :=
  s <> [] /\ s <> js "." /\ s <> js ".." /\ "/"%char ∉ s.

(** A file name that lies directly in the store: a plain segment without
    backslashes. *)
Definition flatName (s : jstring) : Prop :=
  s <> [] /\ s <> js "." /\ s <> js ".." /\ Forall (fun c => isSep c = false) s.

(** The absolute directory whose segments are [segs]. *)
Definition canonicalDir (segs : list jstring) : jstring :=
  "/"%char :: JS.join (js "/") segs.

Definition hyphenFree (seg : jstring) : Prop := "-"%char ∉ seg.

(** What loading the file named [filePath] yields in the file system
    [fs]: the parsed document, or the error [readStandard] throws. *)
Definition loadFrom (fs : gmap jstring File) (filePath : jstring) : Result Standard :=
  let fullPath := fullPathOf (normalizeTargetPath filePath) in
  match fs !! fullPath with
  | None => Throw (StandardNotFound filePath)
  | Some f =>
      if readable f then
        match parseFrontmatter (data f) with
        | Some (m, body) =>
            Ok {| metadata := m; content := body;
                  path := Path.relative cwd STANDARDS_DIR fullPath |}
        | None => Throw (FileReadError MalformedDocument)
        end
      else Throw (FileReadError (ErrnoException EACCES))
  end.

(** The values [updateStandard] computes from the existing document and
    the validated metadata. *)
Definition mergedMetadata (existing : Standard) (updates : Updates) : StandardMetadata :=
  match u_metadata updates with
  | Some patch => mergeMetadata (metadata existing) patch generateISODate
  | None => metadata existing
  end.

Definition newFilenameFor (existing : Standard) (validated : StandardMetadata) : jstring :=
  generateFilePath validated
    (Some (extractTitleBaseFromFilename
             (stripLastExtension (Path.basename (path existing))) (metadata existing))).

Definition oldFullPathOf (existing : Standard) : jstring :=
  Path.join STANDARDS_DIR (normalizeTargetPath (path existing)).

Definition newFullPathOf (existing : Standard) (validated : StandardMetadata) : jstring :=
  Path.join STANDARDS_DIR (normalizeTargetPath (newFilenameFor existing validated)).

Definition updatedDocument (existing : Standard) (updates : Updates)
    (validated : StandardMetadata) : Standard :=
  {| metadata := validated;
     content := default (content existing) (u_content updates);
     path := Path.relative cwd STANDARDS_DIR (newFullPathOf existing validated) |}.

(** The file written by [fs.writeFile(p, text)] into [fs]. *)
Definition written (fs : gmap jstring File) (p text : jstring) : gmap jstring File :=
  <[p := {| data := text;
            readable := match fs !! p with Some old => readable old | None => true end |}]> fs.

Definition rewritten (fs : gmap jstring File) (p : jstring) (doc : Standard)
  : gmap jstring File :=
  written fs p (serializeStandard doc).

Definition renamed (fs : gmap jstring File) (from to : jstring) (f : File)
  : gmap jstring File :=
  <[to := f]> (delete from fs).

Definition after (w : World) (steps : list (gmap jstring File)) : World :=
  {| files := default (files w) (last steps);
     history := history w ++ steps;
     console := console w |}.

Definition sepFree (s : jstring) : Prop := Forall (fun c => isSep c = false) s.

(** The metadata fields that enter a file name are free of separators, as
    every value of the metadata enumerations is. *)
Definition separatorFree (m : StandardMetadata) : Prop :=
  sepFree (type m) /\ sepFree (tier m) /\ sepFree (process m) /\ sepFree (status m).

(** The document an enumerated file contributes, if it can be read and
    parsed. *)
Definition loaded (fs : gmap jstring File) (file : jstring) : option Standard :=
  match loadFrom fs file with
  | Ok d => Some d
  | Throw _ => None
  end.

(** The console entry an enumerated file causes, if it cannot. *)
Definition failure (fs : gmap jstring File) (file : jstring) : option (jstring * Error) :=
  match loadFrom fs file with
  | Ok _ => None
  | Throw e => Some (file, e)
  end.

(** The names [listAllStandardFiles] reports. *)
Definition enumerated (fs : gmap jstring File) : list jstring :=
  map (Path.relative cwd STANDARDS_DIR) (map (Path.join STANDARDS_DIR) (glob fs)).

Definition logging (w : World) (entries : list (jstring * Error)) : World :=
  {| files := files w; history := history w; console := console w ++ entries |}.

Global Instance plainSegment_dec s : Decision (plainSegment s).
Proof. unfold plainSegment. apply _. Defined.

Global Instance flatName_dec s : Decision (flatName s).
Proof. unfold flatName. apply _. Defined.

Global Instance separatorFree_dec m : Decision (separatorFree m).
Proof. unfold separatorFree, sepFree. apply _. Defined.

Definition storeSegments : list jstring := [js "srv"; js "kb"; js "standards"].

Definition storeCwd : jstring := js "/srv/kb".

(** A stand-in for the parser: a document starts with a [---] line. *)
Definition parseSample (raw : jstring) : option (StandardMetadata * jstring) :=
  if startsWith raw (js "---") then Some (sampleMetadata, drop 3 raw) else None.

Definition serializeSample (d : Standard) : jstring :=
  js "---" ++ status (metadata d) ++ js ";" ++ content d.

Definition validateSample (m : StandardMetadata) : option StandardMetadata := Some m.

Definition inStore (name : string) : jstring :=
  canonicalDir (storeSegments ++ [js name]).

Definition storedFile (raw : string) : File := {| data := js raw; readable := true |}.

Definition oneDocumentWorld : World :=
  {| files := {[ inStore "standard-backend-development-spring-boot-active.md"
                 := storedFile "---body" ]};
     history := [];
     console := [] |}.

Definition deprecate : Updates :=
  {| u_content := None;
     u_metadata := Some {| p_type := None; p_tier := None; p_process := None;
                           p_tags := None; p_version := Some (js "1.0.1");
                           p_status := Some (js "deprecated"); p_author := None;
                           p_created := None; p_updated := None |} |}.

Definition deprecatedMetadata : StandardMetadata :=
  mergeMetadata sampleMetadata
    {| p_type := None; p_tier := None; p_process := None;
       p_tags := None; p_version := Some (js "1.0.1");
       p_status := Some (js "deprecated"); p_author := None;
       p_created := None; p_updated := None |}
    (js "2024-06-01T00:00:00.000Z").

Definition threeFileWorld : World :=
  {| files := {[ inStore "a.md" := storedFile "---first";
                 inStore "b.md" := storedFile "no metadata block";
                 inStore "c.md" := storedFile "---third" ]};
     history := [];
     console := [] |}.

Definition globSample (fs : gmap jstring File) : list jstring :=
  [js "a.md"; js "b.md"; js "c.md"].

(** Lower-case alphanumerics and single hyphens; [prevHyphen] tells that a
    hyphen may not come next. *)
Fixpoint hyphenated (prevHyphen : bool) (s : jstring) : bool :=
  match s with
  | [] => true
  | c :: s' =>
      if bool_decide (c = "-"%char) then negb prevHyphen && hyphenated true s'
      else isLowerAlnum c && hyphenated false s'
  end.

(** Does [l] end in a hyphen?  The empty string inherits the answer. *)
Definition endsInHyphen (inherited : bool) (l : jstring) : bool :=
  match last l with
  | Some c => bool_decide (c = "-"%char)
  | None => inherited
  end.

(** Kebab case: not empty, words of lower-case alphanumerics separated by
    single hyphens. *)
Definition kebab (s : jstring) : Prop :=
  hyphenated true s = true /\ endsInHyphen true s = false.

Global Instance kebab_dec s : Decision (kebab s).
Proof. unfold kebab. apply _. Defined.

(** The type-tier-process word in front of every derived name. *)
Definition prefixWord (m : StandardMetadata) : jstring :=
  JS.join (js "-") (map toLowerCase (List.filter nonEmpty [type m; tier m; process m])).

(** The metadata make a kebab-case prefix and a kebab-case status, as
    every combination of values of the metadata enumerations does. *)
Definition kebabMetadata (m : StandardMetadata) : Prop :=
  kebab (prefixWord m) /\ kebab (toLowerCase (status m)).

(** The title [generateFilePath] works with: the sanitized file name (or
    the default one) without its extension. *)
Definition sanitizedTitle (m : StandardMetadata) (filename : option jstring) : jstring :=
  let sanitizedFilename :=
    match filename with
    | Some (c :: f) => sanitizeFilename (c :: f)
    | _ => generateDefaultFilename m
    end in
  if endsWith sanitizedFilename MARKDOWN_EXTENSION
  then slice sanitizedFilename 0 (- Z.of_nat (length MARKDOWN_EXTENSION))
  else sanitizedFilename.

(** The name made of the prefix, a title and the status suffix. *)
Definition nameWith (m : StandardMetadata) (title : jstring) : jstring :=
  (prefixWord m ++ js "-") ++ title ++ (js "-" ++ toLowerCase (status m))
  ++ MARKDOWN_EXTENSION.

Global Instance kebabMetadata_dec m : Decision (kebabMetadata m).
Proof. unfold kebabMetadata. apply _. Defined.

(** Modelled from the spec: the schema of services/validator.ts is not
    among the sources.  Valid metadata take their type, tier, process and
    status from the enumerations of section 3 and carry at least one tag,
    none of them empty (section 4.2). *)
Definition validMetadata (m : StandardMetadata) : Prop :=
  type m ∈ [js "principle"; js "standard"; js "practice"; js "tech-stack"; js "process"] /\
  tier m ∈ [js "frontend"; js "backend"; js "database"; js "infrastructure"; js "security"] /\
  process m ∈ [js "development"; js "testing"; js "delivery"; js "operations"] /\
  status m ∈ [js "active"; js "draft"; js "deprecated"] /\
  tags m <> [] /\ [] ∉ tags m.

(** A single word: kebab case without a hyphen. *)
Definition singleWord (s : jstring) : Prop := kebab s /\ hyphenFree s.

Global Instance singleWord_dec s : Decision (singleWord s).
Proof. unfold singleWord. apply _. Defined.

(** The type, tier, process and status are single words. *)
Definition singleWordMetadata (m : StandardMetadata) : Prop :=
  singleWord (type m) /\ singleWord (tier m) /\ singleWord (process m) /\
  singleWord (status m).

Global Instance singleWordMetadata_dec m : Decision (singleWordMetadata m).
Proof. unfold singleWordMetadata. apply _. Defined.

(** The stem of a name in the old layout: type-tier-process-status-title. *)
Definition oldLayoutName (m : StandardMetadata) (title : jstring) : jstring :=
  (prefixWord m ++ js "-") ++ (toLowerCase (status m) ++ js "-") ++ title
  ++ MARKDOWN_EXTENSION.

(** [title] neither starts with the prefix [generateFilePath] puts in
    front nor ends with the suffix it appends. *)
Definition freshTitle (m : StandardMetadata) (title : jstring) : Prop :=
  startsWith title (prefixWord m ++ js "-") = false /\
  endsWith title (js "-" ++ toLowerCase (status m)) = false.

Global Instance freshTitle_dec m title : Decision (freshTitle m title).
Proof. unfold freshTitle. apply _. Defined.

#[global] Typeclasses Opaque singleWord singleWordMetadata freshTitle.

(** The document stored under [p] with metadata [m]. *)
Definition storedAs (m : StandardMetadata) (p : jstring) : Standard :=
  {| metadata := m; content := []; path := p |}.

(** A document of type tech-stack. *)
Definition techStackMetadata : StandardMetadata :=
  {| type := js "tech-stack"; tier := js "backend"; process := js "development";
     tags := [js "spring-boot"]; version := js "1.0.0";
     status := js "active"; author := js "platform-team";
     created := js "2024-01-01T00:00:00.000Z";
     updated := js "2024-01-01T00:00:00.000Z" |}.

(** The group of [index] at [type], [tier] and [process], if the three
    levels are there, and its entries. *)
Definition groupAt (index : HierarchicalIndex) (ty ti pr : jstring)
    : option (list Entry) :=
  match index !! ty with
  | Some tiers =>
      match tiers !! ti with
      | Some processes => processes !! pr
      | None => None
      end
  | None => None
  end.

Definition entriesAt (index : HierarchicalIndex) (ty ti pr : jstring) : list Entry :=
  default [] (groupAt index ty ti pr).

(** The entry carries the type, tier and process of the group. *)
Definition inGroup (ty ti pr : jstring) (e : Entry) : bool :=
  bool_decide (type (e_metadata e) = ty) &&
  bool_decide (tier (e_metadata e) = ti) &&
  bool_decide (process (e_metadata e) = pr).

(** No level of the index holds an empty group. *)
Definition noEmptyGroup (index : HierarchicalIndex) : Prop :=
  forall ty tiers, index !! ty = Some tiers ->
    tiers <> ∅ /\
    forall ti processes, tiers !! ti = Some processes ->
      processes <> ∅ /\
      forall pr entries, processes !! pr = Some entries -> entries <> [].

(** A snapshot of three documents in two groups. *)
Definition sampleSnapshot : list Standard :=
  [sampleDocument "standard-backend-development-spring-boot-active.md" "Use Spring Boot.";
   storedAs techStackMetadata (js "tech-stack-backend-development-spring-boot-active.md");
   sampleDocument "standard-backend-development-security-active.md" "Use TLS."].

(** A document of type process. *)
Definition processMetadata : StandardMetadata :=
  {| type := js "process"; tier := js "backend"; process := js "delivery";
     tags := [js "release"]; version := js "1.0.0";
     status := js "active"; author := js "platform-team";
     created := js "2024-01-01T00:00:00.000Z";
     updated := js "2024-01-01T00:00:00.000Z" |}.

(** A store with a document in a sub-directory named like the store and
    another document of the same file name in the root. *)
Definition nestedWorld : World :=
  {| files := {[ inStore "standards/foo.md" := storedFile "---nested";
                 inStore "foo.md" := storedFile "---other" ]};
     history := [];
     console := [] |}.

(** The same store without the document in the root. *)
Definition nestedOnlyWorld : World :=
  {| files := {[ inStore "standards/foo.md" := storedFile "---nested" ]};
     history := [];
     console := [] |}.

(** A store whose root holds a file with a backslash in its name. *)
Definition backslashWorld : World :=
  {| files := {[ inStore "standards\a.md" := storedFile "---first";
                 inStore "a.md" := storedFile "---second" ]};
     history := [];
     console := [] |}.

Definition globBackslash (fs : gmap jstring File) : list jstring :=
  [js "standards\a.md"; js "a.md"].

(** The word standards in any letter case, followed by a separator: the
    redundant store-directory segment in front of a file name. *)
Definition storeSegment (prefix : jstring) : Prop :=
  exists word sep,
    prefix = word ++ [sep] /\ toLowerCase word = js "standards" /\ isSep sep = true.

(** The document stored under the file name [name] in the directory
    [segs], if the file is there, readable and well formed. *)
Definition documentOf (segs : list jstring) (fs : gmap jstring File) (name : jstring)
    : option Standard :=
  match fs !! canonicalDir (segs ++ [name]) with
  | Some f =>
      if readable f then
        match parseFrontmatter (data f) with
        | Some (m, body) => Some {| metadata := m; content := body; path := name |}
        | None => None
        end
      else None
  | None => None
  end.

(** A stand-in for the serializer that the stand-in parser reads back. *)
Definition serializeBody (d : Standard) : jstring := js "---" ++ content d.

(** A stand-in for the validator that normalizes to the sample metadata. *)
Definition validateToSample (m : StandardMetadata) : option StandardMetadata :=
  Some sampleMetadata.

Definition sampleInput : MetadataInput :=
  {| i_type := js "standards"; i_tier := js "backend"; i_process := js "development";
     i_tags := [js "spring-boot"; js "security"]; i_status := js "active";
     i_author := js "platform-team" |}.

Definition emptyStore : World := {| files := ∅; history := []; console := [] |}.

End Vocabulary.

(* ===================================================================== *)
(** * Part III: properties                                                *)
(* ===================================================================== *)

(** ** Facts about the string primitives *)
Section StringFacts.
Import JS.

Lemma startsWith_nil s : startsWith s [] = true.
Proof. by destruct s. Qed.

Lemma startsWith_prefix s q : startsWith s q = true <-> q `prefix_of` s.
Proof.
  revert s. induction q as [|c q IH]; intros s; simpl.
  - split; [intros _; apply prefix_nil | by destruct s].
  - destruct s as [|d s]; simpl.
    + split; [done | intros H; by apply prefix_nil_not in H].
    + rewrite andb_true_iff, bool_decide_eq_true, IH. split.
      * intros [-> H]. by apply prefix_cons.
      * intros H. split; [by apply prefix_cons_inv_1 in H | by apply prefix_cons_inv_2 in H].
Qed.

Lemma startsWith_refl s : startsWith s s = true.
Proof. by apply startsWith_prefix. Qed.

Lemma startsWith_app s t : startsWith (s ++ t) s = true.
Proof. apply startsWith_prefix. by apply prefix_app_r. Qed.

Lemma includes_refl s : includes s s = true.
Proof. destruct s; cbn [includes]; by rewrite startsWith_refl. Qed.

Lemma includes_occurs s q : includes s q = true <-> exists i, occursAt s q i.
Proof.
  induction s as [|c s IH]; cbn [includes].
  - rewrite orb_false_r, startsWith_prefix. split.
    + intros H. exists 0. split; [done | by rewrite drop_0].
    + intros (i & Hi & H). simpl in Hi. by replace i with 0 in H by lia.
  - rewrite orb_true_iff, startsWith_prefix, IH. split.
    + intros [H | (i & Hi & H)].
      * exists 0. split; [lia | done].
      * exists (S i). split; [simpl; lia | done].
    + intros ([|i] & Hi & H); [by left | right].
      exists i. split; [simpl in Hi; lia | done].
Qed.

Lemma toLowerCase_length s : length (toLowerCase s) = length s.
Proof. apply length_map. Qed.

Lemma toLowerCase_nil_inv s : toLowerCase s = [] -> s = [].
Proof. by destruct s. Qed.

End StringFacts.

(** ** The metadata filter *)
Section FilterFacts.
Import JS Indexer.

Lemma given_false o test :
  given o test = false <-> forall v, present o v -> test v = false.
Proof.
  unfold given, present. destruct o as [[|c q]|].
  - split; [intros _ v [[= <-] Hne]; done | done].
  - split; [intros H v [[= <-] _]; done | intros H; by apply H].
  - split; [intros _ v [[=] _] | done].
Qed.

Lemma negb_bool_decide_false (P : Prop) `{Decision P} :
  negb (bool_decide P) = false <-> P.
Proof. rewrite negb_false_iff. apply bool_decide_eq_true. Qed.

Lemma negb_bool_decide_false_1 (P : Prop) `{Decision P} :
  negb (bool_decide P) = false -> P.
Proof. apply negb_bool_decide_false. Qed.

(** [normalizeTypeName] computes the type a value stands for. *)
Lemma normalizeTypeName_canonical t : normalizeTypeName t = canonicalType t.
Proof.
  destruct t as [|c t]; [done|].
  unfold normalizeTypeName, canonicalType, legacySpellings.
  cbn [List.find fst snd]. generalize (toLowerCase (c :: t)). intros lower.
  repeat case_bool_decide; subst; cbn in *; congruence.
Qed.

Lemma filterCallback_criteria options d :
  filterCallback options d = true <-> criteriaMatch options d.
Proof.
  unfold filterCallback, criteriaMatch.
  rewrite (normalizeTypeName_canonical (type (metadata d))).
  assert (Hgiven : forall o,
    given o (fun t => negb (bool_decide
                              (canonicalType (type (metadata d)) = normalizeTypeName t)))
    = given o (fun t => negb (bool_decide
                                (canonicalType (type (metadata d)) = canonicalType t)))).
  { intros [[|c q]|]; [done| |done]. cbn [given]. by rewrite normalizeTypeName_canonical. }
  rewrite Hgiven.
  destruct (given (opt_type options) _) eqn:Ety.
  { split; [done|]. intros (H & _). apply not_false_iff_true in Ety.
    exfalso. apply Ety. apply given_false. intros v Hv.
    apply negb_bool_decide_false. by apply H. }
  destruct (given (opt_tier options) _) eqn:Eti.
  { split; [done|]. intros (_ & H & _). apply not_false_iff_true in Eti.
    exfalso. apply Eti. apply given_false. intros v Hv.
    apply negb_bool_decide_false. by apply H. }
  destruct (given (opt_process options) _) eqn:Epr.
  { split; [done|]. intros (_ & _ & H & _). apply not_false_iff_true in Epr.
    exfalso. apply Epr. apply given_false. intros v Hv.
    apply negb_bool_decide_false. by apply H. }
  destruct (given (opt_status options) _) eqn:Est.
  { split; [done|]. intros (_ & _ & _ & H & _). apply not_false_iff_true in Est.
    exfalso. apply Est. apply given_false. intros v Hv.
    apply negb_bool_decide_false. by apply H. }
  rewrite given_false in Ety, Eti, Epr, Est.
  assert (Htags :
    match opt_tags options with
    | Some (t :: ts) =>
        if negb (forallb (fun tag => bool_decide (tag ∈ tags (metadata d))) (t :: ts))
        then false else true
    | _ => true
    end = true <->
    forall requested tag, opt_tags options = Some requested ->
      tag ∈ requested -> tag ∈ tags (metadata d)).
  { destruct (opt_tags options) as [[|t ts]|].
    - split; [|done]. intros _ requested tag [= <-] Hin. by apply elem_of_nil in Hin.
    - destruct (forallb _ (t :: ts)) eqn:Hall; simpl.
      + split; [|done]. intros _ requested tag [= <-] Hin.
        rewrite forallb_forall in Hall.
        eapply bool_decide_eq_true_1, Hall. by apply list_elem_of_In.
      + split; [done|]. intros H. apply not_true_iff_false in Hall.
        exfalso. apply Hall. apply forallb_forall. intros tag Hin.
        apply bool_decide_eq_true_2. apply (H (t :: ts)); [done|].
        by apply list_elem_of_In.
    - split; [|done]. intros _ requested tag [=]. }
  rewrite Htags. split.
  - intros H. repeat split; try done.
    + intros t Ht. eapply negb_bool_decide_false_1. by apply Ety.
    + intros t Ht. eapply negb_bool_decide_false_1. by apply Eti.
    + intros t Ht. eapply negb_bool_decide_false_1. by apply Epr.
    + intros t Ht. eapply negb_bool_decide_false_1. by apply Est.
  - intros (_ & _ & _ & _ & H). done.
Qed.

Lemma list_filter_ext_dec {A} (f : A -> bool) (P : A -> Prop)
    `{forall x, Decision (P x)} (l : list A) :
  (forall x, f x = true <-> P x) -> List.filter f l = base.filter P l.
Proof.
  intros Hf. induction l as [|x l IH]; [done|]. simpl.
  rewrite filter_cons. destruct (decide (P x)) as [HP|HP].
  - apply Hf in HP. rewrite HP. by f_equal.
  - destruct (f x) eqn:E; [|done]. by apply Hf in E.
Qed.

(** C6, amended.  For every snapshot and criteria, [filter] returns
    exactly the documents of the snapshot that match every present
    criterion, in snapshot order: it is the sub-sequence of the snapshot
    selected by [criteriaMatch].  The types are compared by what they
    stand for: both sides in lower case, the spellings standards,
    principles, practices and technical-stack replaced by standard,
    principle, practice and tech-stack, and no other spelling folded.
    The tags are an all-of match, and an absent criterion constrains
    nothing. *)
Theorem filter_selects_matching_in_snapshot_order
    (snapshot : list Standard) (options : FilterOptions)
    (dec : forall d, Decision (criteriaMatch options d)) :
  Indexer.filter snapshot options = base.filter (criteriaMatch options) snapshot.
Proof.
  unfold Indexer.filter. apply list_filter_ext_dec.
  intros d. apply filterCallback_criteria.
Qed.

(** C6 fails on the plural of the type process: a document of type
    process matches the type criterion processes after plural-to-singular
    normalization of both sides, and [filter] does not return it. *)
Lemma filter_plural_of_process_counterexample :
  let d := storedAs processMetadata (js "process-backend-delivery-release-active.md") in
  let options := typeOnly (js "processes") in
  claimedMatch options d /\ Indexer.filter [d] options = [].
Proof.
  intros d options. split; [|by vm_compute].
  unfold claimedMatch, present, options, typeOnly. cbn.
  repeat split; try (intros ? [[=] _]); try (intros ? ? [=]).
  subst. by vm_compute.
Qed.

End FilterFacts.

(** ** Case sensitivity of the criteria *)
Section CaseSensitivity.
Import JS Indexer.

Lemma differsOnlyInCase_nonempty a b : differsOnlyInCase a b -> b <> [].
Proof.
  intros [Hl Hne] ->. apply Hne. by apply toLowerCase_nil_inv.
Qed.

Lemma canonicalType_folds_case a b :
  toLowerCase a = toLowerCase b -> canonicalType a = canonicalType b.
Proof. intros H. unfold canonicalType. by rewrite H. Qed.

Lemma list_filter_none {A} (f : A -> bool) (l : list A) :
  (forall x, x ∈ l -> f x = false) -> List.filter f l = [].
Proof.
  induction l as [|x l IH]; intros H; [done|]. simpl.
  rewrite (H x) by apply list_elem_of_here.
  apply IH. intros y Hy. apply H. by apply list_elem_of_further.
Qed.

Lemma filter_empty_when_criterion_unmet snapshot options :
  (forall d, d ∈ snapshot -> ~ criteriaMatch options d) ->
  Indexer.filter snapshot options = [].
Proof.
  intros H. apply list_filter_none. intros d Hd.
  apply not_true_iff_false. rewrite filterCallback_criteria. by apply H.
Qed.

Lemma filterCallback_typeOnly t d :
  t <> [] ->
  filterCallback (typeOnly t) d
  = bool_decide (canonicalType (type (metadata d)) = canonicalType t).
Proof.
  intros Ht. apply eq_true_iff_eq. rewrite filterCallback_criteria, bool_decide_eq_true.
  unfold criteriaMatch, present, typeOnly; cbn. split.
  - intros (H & _). by apply H.
  - intros H. repeat split; try (intros ? [[=] _]); try (intros ? ? [=]).
    by subst.
Qed.

(** C10, amended.  The tier, process and status criteria are compared by
    exact, case-sensitive equality: a criterion value that differs from
    the stored value of every document only in letter case selects no
    document.  The type criterion, in contrast, is compared by what it
    stands for: [normalizeTypeName] puts a value in lower case and
    replaces the spellings standards, principles, practices and
    technical-stack by standard, principle, practice and tech-stack,
    nothing else; so a type criterion selects exactly the documents
    whose type stands for the same type, among them every document whose
    type differs from it only in case. *)
Theorem filter_case_sensitive_except_type
    (snapshot : list Standard) (options : FilterOptions) (t : jstring) :
  (opt_tier options = Some t ->
   (forall d, d ∈ snapshot -> differsOnlyInCase (tier (metadata d)) t) ->
   Indexer.filter snapshot options = []) /\
  (opt_process options = Some t ->
   (forall d, d ∈ snapshot -> differsOnlyInCase (process (metadata d)) t) ->
   Indexer.filter snapshot options = []) /\
  (opt_status options = Some t ->
   (forall d, d ∈ snapshot -> differsOnlyInCase (status (metadata d)) t) ->
   Indexer.filter snapshot options = []) /\
  (forall d, d ∈ snapshot -> differsOnlyInCase (type (metadata d)) t ->
   d ∈ Indexer.filter snapshot (typeOnly t)) /\
  (t <> [] ->
   Indexer.filter snapshot (typeOnly t)
   = List.filter
       (fun d => bool_decide (canonicalType (type (metadata d)) = canonicalType t))
       snapshot) /\
  normalizeTypeName t = canonicalType t.
Proof.
  split; [|split; [|split; [|split; [|split]]]].
  - intros Ho Hall. apply filter_empty_when_criterion_unmet.
    intros d Hd (_ & Hm & _). destruct (Hall d Hd) as [Hl Hne].
    apply Hne, Hm. split; [done|]. eapply differsOnlyInCase_nonempty, (Hall d Hd).
  - intros Ho Hall. apply filter_empty_when_criterion_unmet.
    intros d Hd (_ & _ & Hm & _). destruct (Hall d Hd) as [Hl Hne].
    apply Hne, Hm. split; [done|]. eapply differsOnlyInCase_nonempty, (Hall d Hd).
  - intros Ho Hall. apply filter_empty_when_criterion_unmet.
    intros d Hd (_ & _ & _ & Hm & _). destruct (Hall d Hd) as [Hl Hne].
    apply Hne, Hm. split; [done|]. eapply differsOnlyInCase_nonempty, (Hall d Hd).
  - intros d Hd [Hl Hne]. unfold Indexer.filter.
    apply list_elem_of_In, filter_In. split; [by apply list_elem_of_In|].
    apply filterCallback_criteria. unfold criteriaMatch, present, typeOnly; simpl.
    repeat split; try (intros ? [[=] _]); try (intros ? ? [=]).
    subst. by apply canonicalType_folds_case.
  - intros Ht. unfold Indexer.filter. apply List.filter_ext.
    intros d. by apply filterCallback_typeOnly.
  - apply normalizeTypeName_canonical.
Qed.

(** The tier criterion ["Backend"] selects nothing from a snapshot whose
    only document has tier ["backend"], while the type criteria
    ["STANDARD"] and ["Standards"] select it. *)
Lemma filter_case_sensitive_except_type_witness :
  Indexer.filter [sampleDocument "a.md" "x"] (tierOnly (js "Backend")) = [] /\
  sampleDocument "a.md" "x"
    ∈ Indexer.filter [sampleDocument "a.md" "x"] (typeOnly (js "STANDARD")) /\
  Indexer.filter [sampleDocument "a.md" "x"] (typeOnly (js "Standards"))
  = [sampleDocument "a.md" "x"].
Proof.
  split; [|split].
  - apply (proj1 (filter_case_sensitive_except_type
                    [sampleDocument "a.md" "x"] (tierOnly (js "Backend")) (js "Backend"))).
    + reflexivity.
    + intros d Hd. apply list_elem_of_singleton in Hd. subst d.
      split; [reflexivity | discriminate].
  - apply (proj1 (proj2 (proj2 (proj2 (filter_case_sensitive_except_type
                    [sampleDocument "a.md" "x"] (typeOnly (js "STANDARD"))
                    (js "STANDARD")))))).
    + apply list_elem_of_here.
    + split; [reflexivity | discriminate].
  - rewrite (proj1 (proj2 (proj2 (proj2 (proj2 (filter_case_sensitive_except_type
                    [sampleDocument "a.md" "x"] noCriteria (js "Standards"))))))).
    + reflexivity.
    + discriminate.
Defined.

(** C10 fails on the plural of the type tech-stack: lower-cased and
    plural-normalized, the criterion Tech-Stacks and the stored type
    tech-stack are the same type, and [filter] selects nothing. *)
Lemma filter_plural_of_tech_stack_counterexample :
  let d := storedAs techStackMetadata
             (js "tech-stack-backend-development-spring-boot-active.md") in
  singularOf (toLowerCase (type (metadata d))) = singularOf (toLowerCase (js "Tech-Stacks")) /\
  Indexer.filter [d] (typeOnly (js "Tech-Stacks")) = [].
Proof. split; by vm_compute. Qed.

End CaseSensitivity.

(** ** Path lookup *)
Section FindByPath.
Import JS Indexer.

(** The callback of the second [find] of [findByPath] is the substring
    test alone: the equality test before it never decides anything. *)
Lemma findByPath_second_pass_is_substring (sBase normalizedBase : jstring) :
  (if bool_decide (sBase = normalizedBase) then true
   else if includes sBase normalizedBase then true else false)
  = includes sBase normalizedBase.
Proof.
  case_bool_decide as E.
  - subst. by rewrite includes_refl.
  - by destruct (includes _ _).
Qed.

(** What [findByPath] computes: the first document whose stored path is
    the normalized path; failing that, the first document, in snapshot
    order, whose base name contains the queried base name. *)
Lemma findByPath_unfold (snapshot : list Standard) (p : jstring) :
  findByPath snapshot p =
  match normalizeIndexPath p with
  | [] => None
  | c :: q =>
      match List.find (fun s => bool_decide (path s = c :: q)) snapshot with
      | Some m => Some m
      | None => List.find (fun s => includes (baseName (path s)) (baseName (c :: q)))
                  snapshot
      end
  end.
Proof.
  unfold findByPath. destruct (normalizeIndexPath p) as [|c q]; [done|].
  destruct (List.find _ snapshot); [done|].
  induction snapshot as [|s l IH]; [done|]. simpl.
  rewrite findByPath_second_pass_is_substring.
  destruct (includes _ _); [done | apply IH].
Qed.

(** C1.  With the snapshot [spring-boot-security.md; spring-boot.md], the
    lookup of ["spring-boot"] finds no stored path equal to it and then
    returns [spring-boot-security.md], whose base name merely contains
    the queried base name, although the later document [spring-boot.md]
    has exactly that base name: the base-name stage has no priority over
    the substring stage. *)
Theorem findByPath_substring_wins_over_exact_base_name :
  let snapshot := [sampleDocument "spring-boot-security.md" "a";
                   sampleDocument "spring-boot.md" "b"] in
  baseName (js "spring-boot.md") = baseName (js "spring-boot") /\
  baseName (js "spring-boot-security.md") <> baseName (js "spring-boot") /\
  findByPath snapshot (js "spring-boot")
    = Some (sampleDocument "spring-boot-security.md" "a").
Proof. vm_compute. repeat split. discriminate. Qed.

End FindByPath.

(** ** Occurrences and [indexOf] *)
Section IndexOfFacts.
Import JS.

Lemma occursAt_lt s q i : q <> [] -> occursAt s q i -> i < length s.
Proof.
  intros Hq [Hi [r Hr]]. destruct (decide (i < length s)) as [|Hge]; [done|].
  rewrite drop_ge in Hr by lia. destruct q; [done | discriminate].
Qed.

Lemma firstOccurrence_Some s q i :
  firstOccurrence s q = Some i ->
  occursAt s q i /\ forall j, j < i -> ~ occursAt s q j.
Proof.
  revert i. induction s as [|c s IH]; intros i; cbn [firstOccurrence].
  - destruct (startsWith [] q) eqn:E; [|done]. intros [= <-].
    split; [|lia]. split; [done|]. by apply startsWith_prefix.
  - destruct (startsWith (c :: s) q) eqn:E.
    + intros [= <-]. split; [|lia]. split; [simpl; lia|]. by apply startsWith_prefix.
    + destruct (firstOccurrence s q) as [i'|] eqn:E'; [|done].
      intros [= <-]. destruct (IH i' eq_refl) as [[Hi Hp] Hmin]. split.
      * split; [simpl; lia | done].
      * intros [|j] Hj [_ Hpj].
        -- apply startsWith_prefix in Hpj. rewrite drop_0 in Hpj. congruence.
        -- apply (Hmin j); [lia|]. split; [|done].
           destruct (decide (j <= length s)); [done|].
           assert (i' <= length s) by done. lia.
Qed.

Lemma firstOccurrence_None s q :
  firstOccurrence s q = None -> forall j, ~ occursAt s q j.
Proof.
  induction s as [|c s IH]; cbn [firstOccurrence].
  - destruct (startsWith [] q) eqn:E; [done|]. intros _ j [Hj Hp].
    simpl in Hj. replace j with 0 in Hp by lia.
    apply startsWith_prefix in Hp. rewrite drop_0 in Hp. congruence.
  - destruct (startsWith (c :: s) q) eqn:E; [done|].
    destruct (firstOccurrence s q) eqn:E'; [done|]. intros _ [|j] [Hj Hp].
    + apply startsWith_prefix in Hp. rewrite drop_0 in Hp. congruence.
    + apply (IH eq_refl j). split; [simpl in Hj; lia | done].
Qed.

Lemma occursAt_drop s q k i :
  k <= length s -> occursAt (drop k s) q i <-> occursAt s q (k + i).
Proof.
  intros Hk. unfold occursAt. rewrite length_drop, drop_drop.
  split; intros [? ?]; (split; [lia | done]).
Qed.

Lemma indexOf_Some s q k i :
  q <> [] -> indexOf s q k = Some i ->
  k <= i /\ occursAt s q i /\ forall j, k <= j < i -> ~ occursAt s q j.
Proof.
  intros Hq. unfold indexOf.
  destruct (firstOccurrence (drop (k `min` length s) s) q) as [i'|] eqn:E; [|done].
  intros [= <-]. apply firstOccurrence_Some in E as [Hocc Hmin].
  assert (Hk : k `min` length s <= length s) by lia.
  apply occursAt_drop in Hocc; [|done].
  pose proof (occursAt_lt _ _ _ Hq Hocc). repeat split; [lia | apply Hocc.. |].
  intros j Hj Hoj. apply (Hmin (j - k `min` length s)); [lia|].
  apply occursAt_drop; [done|]. by replace (k `min` length s + (j - k `min` length s)) with j by lia.
Qed.

Lemma indexOf_None s q k :
  indexOf s q k = None -> forall j, k <= j -> ~ occursAt s q j.
Proof.
  unfold indexOf.
  destruct (firstOccurrence (drop (k `min` length s) s) q) as [i'|] eqn:E; [done|].
  intros _ j Hj Hoj. pose proof Hoj as [Hlen _].
  apply (firstOccurrence_None _ _ E (j - k `min` length s)).
  apply occursAt_drop; [lia|]. by replace (k `min` length s + (j - k `min` length s)) with j by lia.
Qed.

(** With the empty query, [indexOf] never answers [-1]. *)
Lemma indexOf_empty_query s k : indexOf s [] k = Some (k `min` length s).
Proof.
  unfold indexOf. destruct (drop _ s); cbn [firstOccurrence startsWith]; simpl; f_equal; lia.
Qed.

Lemma filter_none {A} (P : A -> Prop) `{forall x, Decision (P x)} (l : list A) :
  (forall x, x ∈ l -> ~ P x) -> base.filter P l = [].
Proof.
  induction l as [|x l IH]; intros Hl; [done|].
  rewrite filter_cons_False by (apply Hl, list_elem_of_here).
  apply IH. intros y Hy. apply Hl. by apply list_elem_of_further.
Qed.

Lemma occurrencesFrom_none s q k :
  (forall j, k <= j -> ~ occursAt s q j) -> occurrencesFrom s q k = [].
Proof.
  intros H. unfold occurrencesFrom. apply filter_none.
  intros j Hj. apply elem_of_seq in Hj. apply H. lia.
Qed.

Lemma occurrencesFrom_next s q k i :
  k <= i -> i < length s -> occursAt s q i ->
  (forall j, k <= j < i -> ~ occursAt s q j) ->
  occurrencesFrom s q k = i :: occurrencesFrom s q (S i).
Proof.
  intros Hki Hi Ho Hmin. unfold occurrencesFrom.
  replace (S (length s) - k) with ((i - k) + S (S (length s) - S i)) by lia.
  rewrite seq_app, filter_app. replace (k + (i - k)) with i by lia.
  cbn [seq]. rewrite filter_cons_True by done.
  rewrite filter_none; [done|].
  intros j Hj. apply elem_of_seq in Hj. apply Hmin. lia.
Qed.

End IndexOfFacts.

(** ** The stable sort by descending score *)
Section SortFacts.
Import JS Indexer.

Lemma byScore_le a b : (byScore a b <=? 0)%Z = true <-> score b <= score a.
Proof. unfold byScore. rewrite Z.leb_le. lia. Qed.

Lemma elem_of_sortInsert x l z :
  z ∈ sortInsert byScore x l <-> z = x \/ z ∈ l.
Proof.
  induction l as [|y l IH]; simpl.
  - rewrite list_elem_of_singleton, elem_of_nil. tauto.
  - destruct (byScore x y <=? 0)%Z; [rewrite !elem_of_cons; tauto|].
    rewrite !elem_of_cons, IH. tauto.
Qed.

Lemma sortInsert_perm x l : sortInsert byScore x l ≡ₚ x :: l.
Proof.
  induction l as [|y l IH]; simpl; [done|].
  destruct (byScore x y <=? 0)%Z; [done|].
  rewrite IH. apply Permutation_swap.
Qed.

Lemma sort_perm l : sort byScore l ≡ₚ l.
Proof.
  induction l as [|x l IH]; simpl; [done|].
  by rewrite sortInsert_perm, IH.
Qed.

Lemma sortInsert_sorted x l :
  StronglySorted scoreGe l -> StronglySorted scoreGe (sortInsert byScore x l).
Proof.
  induction l as [|y l IH]; intros Hs; simpl.
  - repeat constructor.
  - inversion Hs as [|? ? Hl Hy]; subst.
    destruct (byScore x y <=? 0)%Z eqn:E.
    + apply byScore_le in E. constructor; [done|].
      constructor; [done|]. eapply Forall_impl; [exact Hy|].
      unfold scoreGe. intros z Hz. lia.
    + assert (score x < score y).
      { destruct (decide (score y <= score x)) as [Hle|]; [|lia].
        apply byScore_le in Hle. congruence. }
      constructor; [by apply IH|].
      apply Forall_forall. intros z Hz. apply elem_of_sortInsert in Hz as [->|Hz].
      * unfold scoreGe. lia.
      * rewrite Forall_forall in Hy. by apply Hy.
Qed.

Lemma sort_sorted l : StronglySorted scoreGe (sort byScore l).
Proof.
  induction l as [|x l IH]; simpl; [constructor | by apply sortInsert_sorted].
Qed.

Lemma sortInsert_stable k x l :
  base.filter (fun r => score r = k) (sortInsert byScore x l)
  = base.filter (fun r => score r = k) (x :: l).
Proof.
  induction l as [|y l IH]; simpl; [done|].
  destruct (byScore x y <=? 0)%Z eqn:E; [done|].
  assert (score x < score y).
  { destruct (decide (score y <= score x)) as [Hle|]; [|lia].
    apply byScore_le in Hle. congruence. }
  rewrite (filter_cons _ y), IH, !(filter_cons _ x), (filter_cons _ y).
  repeat case_decide; try done. lia.
Qed.

(** Documents of equal score keep their relative order. *)
Lemma sort_stable k l :
  base.filter (fun r => score r = k) (sort byScore l)
  = base.filter (fun r => score r = k) l.
Proof.
  induction l as [|x l IH]; simpl; [done|].
  by rewrite sortInsert_stable, !(filter_cons _ x), IH.
Qed.

Lemma slice_0_take {A} (l : list A) (n : Z) :
  (0 <= n)%Z -> slice l 0 n = take (Z.to_nat n) l.
Proof.
  intros Hn. unfold slice.
  replace (0 <? 0)%Z with false by done.
  replace (n <? 0)%Z with false by (symmetry; apply Z.ltb_ge; lia).
  replace (Z.to_nat (0 `min` Z.of_nat (length l))) with 0 by lia.
  rewrite drop_0. destruct (decide (n <= Z.of_nat (length l))%Z).
  - f_equal. lia.
  - rewrite !take_ge; [done | lia | lia].
Qed.

End SortFacts.

(** ** Full-text search *)
Section SearchFacts.
Import JS Indexer.
Variable extractContext : jstring -> nat -> nat -> jstring.
Variable SEARCH_CONTEXT_LENGTH : nat.

Local Abbreviation scanContent := (Indexer.scanContent extractContext SEARCH_CONTEXT_LENGTH).
Local Abbreviation searchOne := (Indexer.searchOne extractContext SEARCH_CONTEXT_LENGTH).
Local Abbreviation searchLoop := (Indexer.searchLoop extractContext SEARCH_CONTEXT_LENGTH).
Local Abbreviation search := (Indexer.search extractContext SEARCH_CONTEXT_LENGTH).
Local Abbreviation matchAt := (matchAt extractContext SEARCH_CONTEXT_LENGTH).
Local Abbreviation specResult := (specResult extractContext SEARCH_CONTEXT_LENGTH).

Lemma scanContent_occurrences fuel body s q queryLength k ms sc :
  q <> [] -> S (length s) - k <= fuel ->
  scanContent fuel body s q queryLength (indexOf s q k) ms sc
  = Some (ms ++ map (matchAt body queryLength) (occurrencesFrom s q k),
          sc + length (occurrencesFrom s q k)).
Proof.
  intros Hq. revert k ms sc. induction fuel as [|fuel IH]; intros k ms sc Hfuel.
  - destruct (indexOf s q k) as [i|] eqn:E.
    + apply indexOf_Some in E as (Hki & Ho & _); [|done].
      pose proof (occursAt_lt _ _ _ Hq Ho). lia.
    + rewrite occurrencesFrom_none by (by apply indexOf_None).
      simpl. by rewrite app_nil_r, Nat.add_0_r.
  - destruct (indexOf s q k) as [i|] eqn:E.
    + apply indexOf_Some in E as (Hki & Ho & Hmin); [|done].
      pose proof (occursAt_lt _ _ _ Hq Ho) as Hi.
      rewrite (occurrencesFrom_next s q k i) by done.
      cbn [Indexer.scanContent]. replace (i + 1) with (S i) by lia.
      rewrite IH by lia. cbn [map length]. f_equal. f_equal.
      * by rewrite <- app_assoc.
      * lia.
    + rewrite occurrencesFrom_none by (by apply indexOf_None).
      simpl. by rewrite app_nil_r, Nat.add_0_r.
Qed.

(** With the empty query the loop over the body never ends, whatever the
    fuel: [indexOf] keeps answering a position. *)
Lemma scanContent_empty_query_runs_on fuel body s queryLength i ms sc :
  scanContent fuel body s [] queryLength (Some i) ms sc = None.
Proof.
  revert i ms sc. induction fuel as [|fuel IH]; intros i ms sc; [done|].
  cbn [Indexer.scanContent]. rewrite indexOf_empty_query. apply IH.
Qed.

Lemma spaced_join parts : spaced parts = JS.join (js " ") parts.
Proof.
  induction parts as [|part rest IH]; [done|]. destruct rest as [|next rest]; [done|].
  cbn [spaced JS.join] in *. by rewrite IH.
Qed.

(** The text the code searches for the flat two points is the
    concatenation in lower case. *)
Lemma metadataText_concatenation m : metadataText m = toLowerCase (concatenation m).
Proof. unfold metadataText, concatenation. by rewrite spaced_join. Qed.

Lemma includes_occursIn s q :
  includes (toLowerCase s) (toLowerCase q) = bool_decide (occursIn s q).
Proof.
  apply eq_true_iff_eq. by rewrite includes_occurs, bool_decide_eq_true.
Qed.

Lemma searchOne_spec fuel query d :
  query <> [] -> length (content d) < fuel ->
  searchOne fuel query (toLowerCase query) d = Some (specResult query d).
Proof.
  intros Hq Hfuel. unfold Indexer.searchOne.
  rewrite scanContent_occurrences.
  2: { intros H. by apply toLowerCase_nil_inv in H. }
  2: { rewrite toLowerCase_length. lia. }
  cbn [app length Nat.add]. unfold specResult, specScore, bodyOccurrences.
  rewrite length_map.
  rewrite metadataText_concatenation, !includes_occursIn.
  set (occ := occurrencesFrom _ _ 0).
  set (bm := bool_decide (occursIn (concatenation _) _)).
  set (bp := bool_decide (occursIn (path d) _)).
  rewrite slice_0_take by lia.
  destruct occ as [|o occ], bm, bp; simpl; try done.
  all: do 3 f_equal; lia.
Qed.

(** On the empty query the scan of the first document never ends. *)
Lemma searchLoop_empty_query fuel query filtered results :
  filtered <> [] -> searchLoop fuel query [] filtered results = None.
Proof.
  destruct filtered as [|d rest]; [done|]. intros _.
  cbn [Indexer.searchLoop]. unfold Indexer.searchOne.
  by rewrite indexOf_empty_query, scanContent_empty_query_runs_on.
Qed.

Lemma searchLoop_spec fuel query filtered results :
  query <> [] -> Forall (fun d => length (content d) < fuel) filtered ->
  searchLoop fuel query (toLowerCase query) filtered results
  = Some (results ++ omap (specResult query) filtered).
Proof.
  intros Hq. revert results. induction filtered as [|d l IH]; intros results Hfuel.
  - simpl. by rewrite app_nil_r.
  - inversion Hfuel as [|? ? Hd Hl]; subst.
    cbn [Indexer.searchLoop omap list_omap]. rewrite searchOne_spec by done.
    destruct (specResult query d) as [r|].
    + rewrite IH by done. by rewrite <- app_assoc.
    + by rewrite IH.
Qed.

(** C5, amended.  On a query that is not empty, [search] applies
    [filter], gives every remaining document the score of the
    specification (one point per case-insensitive occurrence in the
    body, two points flat when the query occurs in the space-separated
    concatenation of type, tier, process, tags and author, one point
    flat when it occurs in the path), drops the documents scoring zero,
    keeps at most three body snippets per result, orders the results by
    descending score with ties in filter order, and returns
    [slice(0, limit)] of the ordered list, that is its first [limit]
    results for every non-negative [limit]; an omitted [limit] is 10.
    On the empty query the search does not return, however many
    iterations it is granted, as soon as one document passes the
    filter; it returns the empty list when none does. *)
Theorem search_scores_sorts_and_truncates
    (fuel : nat) (snapshot : list Standard) (query : jstring)
    (options : FilterOptions) (limit : Z) :
  (query <> [] ->
   Forall (fun d => length (content d) < fuel) snapshot ->
   let scored := omap (specResult query) (Indexer.filter snapshot options) in
   exists sorted,
     sorted ≡ₚ scored /\
     StronglySorted scoreGe sorted /\
     (forall k, base.filter (fun r => score r = k) sorted
                = base.filter (fun r => score r = k) scored) /\
     Forall (fun r => length (matches r) <= 3 /\ 0 < score r) scored /\
     search fuel snapshot query options (Some limit) = Some (slice sorted 0 limit) /\
     ((0 <= limit)%Z -> slice sorted 0 limit = take (Z.to_nat limit) sorted) /\
     search fuel snapshot query options None = Some (take 10 sorted)) /\
  (query = [] -> Indexer.filter snapshot options <> [] ->
   search fuel snapshot query options (Some limit) = None /\
   search fuel snapshot query options None = None) /\
  (query = [] -> Indexer.filter snapshot options = [] ->
   search fuel snapshot query options (Some limit) = Some [] /\
   search fuel snapshot query options None = Some []).
Proof.
  split; [|split].
  - intros Hq Hfuel scored. exists (sort byScore scored).
    assert (Hloop : searchLoop fuel query (toLowerCase query)
                      (Indexer.filter snapshot options) [] = Some scored).
    { rewrite searchLoop_spec; [done | done |].
      apply Forall_forall. intros d Hd. rewrite Forall_forall in Hfuel.
      apply Hfuel. apply list_elem_of_In. apply list_elem_of_In in Hd.
      unfold Indexer.filter in Hd. by apply filter_In in Hd as [? _]. }
    split; [apply sort_perm|]. split; [apply sort_sorted|].
    split; [intros k; apply sort_stable|]. split.
    { apply Forall_forall. intros r Hr. subst scored.
      apply list_elem_of_omap in Hr as (d & _ & Hr). unfold specResult in Hr.
      destruct (specScore d query =? 0) eqn:E; [done|]. injection Hr as <-.
      simpl. split; [rewrite length_take; lia|]. apply Nat.eqb_neq in E. lia. }
    unfold Indexer.search. simpl default. rewrite Hloop.
    split; [done|]. split; [apply slice_0_take|].
    f_equal. by apply slice_0_take.
  - intros -> Hne. unfold Indexer.search. cbn [toLowerCase map].
    by rewrite searchLoop_empty_query.
  - intros -> He. unfold Indexer.search. rewrite He. cbn [Indexer.searchLoop].
    change (sort byScore []) with (@nil SearchResult).
    split; f_equal; unfold slice; by rewrite drop_nil, take_nil.
Qed.

(** C9, amended to non-empty queries.  The scan of the body restarts one
    character after each hit, so it ends after finitely many steps and
    the points it contributes are the number of starting positions at
    which the lower-cased query occurs in the lower-cased body,
    overlapping occurrences included. *)
Theorem body_scan_counts_every_occurrence
    (fuel : nat) (body query : jstring) :
  query <> [] -> length body < fuel ->
  let bodyLower := toLowerCase body in
  let queryLower := toLowerCase query in
  scanContent fuel body bodyLower queryLower (length query)
    (indexOf bodyLower queryLower 0) [] 0
  = Some (map (matchAt body (length query)) (bodyOccurrences body query),
          length (base.filter (occursAt bodyLower queryLower) (seq 0 (S (length body))))).
Proof.
  intros Hq Hfuel bodyLower queryLower. subst bodyLower queryLower.
  rewrite scanContent_occurrences.
  - unfold bodyOccurrences, occurrencesFrom.
    by rewrite toLowerCase_length, Nat.sub_0_r.
  - intros H. by apply toLowerCase_nil_inv in H.
  - rewrite toLowerCase_length. lia.
Qed.

End SearchFacts.

(** ** Search on concrete stores *)
Section SearchExamples.
Import JS Indexer.

(** Query ["aa"] on body ["aaa"]: the two overlapping occurrences both
    count. *)
Lemma body_scan_counts_every_occurrence_witness :
  snd <$> Indexer.scanContent windowAround 100 10 (js "aaa") (toLowerCase (js "aaa"))
            (toLowerCase (js "aa")) (length (js "aa"))
            (indexOf (toLowerCase (js "aaa")) (toLowerCase (js "aa")) 0)
            [] 0
  = Some 2.
Proof.
  rewrite (body_scan_counts_every_occurrence windowAround 100 10 (js "aaa") (js "aa")).
  - reflexivity.
  - discriminate.
  - simpl. lia.
Defined.

(** C9 fails on the empty query: the scan of the body ["aaa"] for [""]
    yields no score, however many iterations it is granted. *)
Lemma body_scan_empty_query_counterexample :
  ~ exists extractContext contextLength fuel result,
      Indexer.scanContent extractContext contextLength fuel (js "aaa")
        (toLowerCase (js "aaa")) (toLowerCase []) 0
        (indexOf (toLowerCase (js "aaa")) (toLowerCase []) 0) [] 0
      = Some result.
Proof.
  intros (ec & n & fuel & result & H).
  rewrite indexOf_empty_query in H. simpl toLowerCase in H.
  by rewrite scanContent_empty_query_runs_on in H.
Qed.

(** Two documents mention "spring"; the search with limit 1 returns the
    head of the list ordered by score. *)
Lemma search_scores_sorts_and_truncates_witness :
  let snapshot := [sampleDocument "a.md" "spring"; sampleDocument "spring.md" "spring spring"] in
  exists sorted,
    StronglySorted scoreGe sorted /\
    Indexer.search windowAround 100 50 snapshot (js "Spring") noCriteria (Some 1%Z)
    = Some (take 1 sorted).
Proof.
  intros snapshot.
  destruct (proj1 (search_scores_sorts_and_truncates windowAround 100 50 snapshot
                     (js "Spring") noCriteria 1%Z))
    as (sorted & _ & Hs & _ & _ & Hr & Ht & _).
  - discriminate.
  - repeat constructor; simpl; lia.
  - exists sorted. split; [exact Hs|]. rewrite Hr. f_equal. apply Ht. lia.
Defined.

(** C5 fails on the empty query: on a store with one document, [search]
    returns no result list, however many iterations it is granted. *)
Lemma search_empty_query_counterexample :
  ~ exists extractContext contextLength fuel results,
      Indexer.search extractContext contextLength fuel
        [sampleDocument "a.md" "spring"] [] noCriteria (Some 10%Z)
      = Some results.
Proof.
  intros (ec & n & fuel & results & H).
  unfold Indexer.search in H. simpl in H. unfold Indexer.searchOne in H.
  rewrite indexOf_empty_query in H.
  by rewrite scanContent_empty_query_runs_on in H.
Qed.

End SearchExamples.

(** ** Slices *)
Section SliceFacts.
Import JS.

Lemma sliceFrom_drop {A} (l : list A) (k : nat) :
  sliceFrom l (Z.of_nat k) = drop k l.
Proof.
  unfold sliceFrom, slice.
  replace (Z.of_nat k <? 0)%Z with false by (symmetry; apply Z.ltb_ge; lia).
  replace (Z.of_nat (length l) <? 0)%Z with false by (symmetry; apply Z.ltb_ge; lia).
  destruct (decide (k <= length l)).
  - replace (Z.to_nat (Z.of_nat k `min` Z.of_nat (length l))) with k by lia.
    apply take_ge. rewrite length_drop. lia.
  - replace (Z.to_nat (Z.of_nat k `min` Z.of_nat (length l))) with (length l) by lia.
    rewrite !drop_ge by lia. by destruct (Z.to_nat _).
Qed.

Lemma slice_middle {A} (l : list A) (k : nat) :
  S k <= length l ->
  slice l (Z.of_nat k) (Z.of_nat (length l) - 1) = take (length l - 1 - k) (drop k l).
Proof.
  intros Hk. unfold slice.
  replace (Z.of_nat k <? 0)%Z with false by (symmetry; apply Z.ltb_ge; lia).
  replace (Z.of_nat (length l) - 1 <? 0)%Z with false by (symmetry; apply Z.ltb_ge; lia).
  f_equal; [lia | f_equal; lia].
Qed.

Lemma slice_drop_last {A} (l : list A) (n : nat) :
  0 < n <= length l -> slice l 0 (- Z.of_nat n) = take (length l - n) l.
Proof.
  intros Hn. unfold slice. replace (0 <? 0)%Z with false by done.
  replace (Z.to_nat (0 `min` Z.of_nat (length l))) with 0 by lia. rewrite drop_0.
  replace (- Z.of_nat n <? 0)%Z with true by (symmetry; apply Z.ltb_lt; lia).
  f_equal. lia.
Qed.

End SliceFacts.

(** ** Path normalization *)
Section NormalizationFacts.
Import JS Indexer.

Lemma standardsPrefixLength_bounds p n :
  standardsPrefixLength p = Some n -> 0 < n <= length p.
Proof.
  unfold standardsPrefixLength.
  assert (Htry : forall skip n',
    (if startsWithFolded (drop skip p) (js "standards") then
       match drop 9 (drop skip p) with
       | c :: _ => if isSep c then Some (skip + 10) else None
       | [] => None
       end
     else None) = Some n' -> 0 < n' <= length p).
  { intros skip n'. destruct (startsWithFolded _ _); [|done].
    destruct (drop 9 (drop skip p)) as [|c r] eqn:E; [done|].
    destruct (isSep c); [|done]. intros [= <-].
    assert (Hl : length (drop 9 (drop skip p)) = S (length r)) by (by rewrite E).
    rewrite !length_drop in Hl. lia. }
  destruct p as [|c p]; [done|].
  destruct (isSep c).
  - destruct (if startsWithFolded (drop 1 (c :: p)) _ then _ else _) as [n1|] eqn:E1.
    + intros [= <-]. by apply (Htry 1).
    + apply (Htry 0).
  - apply (Htry 0).
Qed.

Lemma stripStandardsPrefix_fixed p :
  stripStandardsPrefix p = p <-> standardsPrefixLength p = None.
Proof.
  unfold stripStandardsPrefix.
  destruct (standardsPrefixLength p) as [n|] eqn:E; [|done].
  apply standardsPrefixLength_bounds in E. split; [|done].
  intros H. assert (Hl : length (drop n p) = length p) by (by rewrite H).
  rewrite length_drop in Hl. lia.
Qed.

Lemma normalizeIndexPath_strip p : normalizeIndexPath p = stripStandardsPrefix p.
Proof. by destruct p. Qed.

(** Where the normalization is idempotent: normalizing twice equals
    normalizing once exactly when the normalized path does not itself
    begin with a store-directory segment (index engine), and whenever it
    is relative and does not begin with one (storage layer). *)
Theorem normalization_idempotent_unless_prefix_remains
    (STANDARDS_DIR cwd p : jstring) :
  let indexed := normalizeIndexPath p in
  let stored := Storage.normalizeTargetPath STANDARDS_DIR cwd p in
  (normalizeIndexPath indexed = indexed <-> standardsPrefixLength indexed = None) /\
  (Path.isAbsolute stored = false -> standardsPrefixLength stored = None ->
   Storage.normalizeTargetPath STANDARDS_DIR cwd stored = stored).
Proof.
  intros indexed stored. split.
  - rewrite (normalizeIndexPath_strip indexed). apply stripStandardsPrefix_fixed.
  - intros Habs Hnone. unfold Storage.normalizeTargetPath at 1.
    destruct stored as [|c q]; [done|]. rewrite Habs.
    by apply stripStandardsPrefix_fixed.
Qed.

(** A file name with one redundant store-directory segment: both layers
    strip the segment, and a second normalization changes nothing. *)
Lemma normalization_idempotent_unless_prefix_remains_witness :
  let p := js "standards/spring-boot.md" in
  let stored := Storage.normalizeTargetPath (js "/srv/kb/standards") (js "/srv/kb") p in
  stored = js "spring-boot.md" /\
  normalizeIndexPath (normalizeIndexPath p) = normalizeIndexPath p /\
  Storage.normalizeTargetPath (js "/srv/kb/standards") (js "/srv/kb") stored = stored.
Proof.
  intros p stored.
  pose proof (normalization_idempotent_unless_prefix_remains
                (js "/srv/kb/standards") (js "/srv/kb") p) as [Hi Hs].
  split; [reflexivity|]. split.
  - apply Hi. reflexivity.
  - apply Hs; reflexivity.
Defined.

(** C7.  The normalization is not idempotent: it removes one leading
    store-directory segment per application.  On the path
    [standards/standards/a.md], and in the storage layer on the absolute
    path of that file, one application leaves [standards/a.md], the path
    of the file relative to the store, and a second application leaves
    [a.md], the path of another file. *)
Theorem normalization_removes_one_segment_per_application :
  let store := js "/srv/kb/standards" in
  let cwd := js "/srv/kb" in
  let p := js "standards/standards/a.md" in
  let absolute := js "/srv/kb/standards/standards/a.md" in
  normalizeIndexPath p = js "standards/a.md" /\
  normalizeIndexPath (normalizeIndexPath p) = js "a.md" /\
  Storage.normalizeTargetPath store cwd p = js "standards/a.md" /\
  Storage.normalizeTargetPath store cwd (Storage.normalizeTargetPath store cwd p)
  = js "a.md" /\
  Storage.normalizeTargetPath store cwd absolute = js "standards/a.md" /\
  Storage.normalizeTargetPath store cwd (Storage.normalizeTargetPath store cwd absolute)
  = js "a.md".
Proof. repeat split; by vm_compute. Qed.

End NormalizationFacts.

(** ** Recovering the title from a file name *)
Section TitleFacts.
Import JS Storage.

(** The two probes of [extractTitleBaseFromFilename] on a name of at
    least five segments. *)
Lemma extractTitleBase_cases (basename : jstring) (m : StandardMetadata) :
  let parts := split "-" basename in
  let n := length parts in
  let title := extractTitleBaseFromFilename basename m in
  5 <= n ->
  (last parts = Some (status m) ->
   title = JS.join (js "-") (take (n - 4) (drop 3 parts))) /\
  (last parts <> Some (status m) -> parts !! 3 = Some (status m) ->
   title = JS.join (js "-") (drop 4 parts)) /\
  (last parts <> Some (status m) -> parts !! 3 <> Some (status m) ->
   title = JS.join (js "-") (drop 3 parts)).
Proof.
  intros parts n title Hn. subst title. unfold extractTitleBaseFromFilename.
  fold parts. fold n. rewrite (last_lookup parts), <- Nat.sub_1_r. fold n.
  change 3%Z with (Z.of_nat 3). change 4%Z with (Z.of_nat 4).
  rewrite !sliceFrom_drop.
  replace (5 <=? n) with true by (symmetry; apply Nat.leb_le; lia).
  repeat split.
  - intros Hlast. rewrite bool_decide_eq_true_2 by done.
    subst n. rewrite slice_middle by lia. do 2 f_equal. lia.
  - intros Hlast Hfourth.
    rewrite bool_decide_eq_false_2 by done. by rewrite bool_decide_eq_true_2 by done.
  - intros Hlast Hfourth. rewrite !bool_decide_eq_false_2 by done.
    by replace (3 <? n) with true by (symmetry; apply Nat.ltb_lt; lia).
Qed.

(** C2, amended.  With at least five segments: when the last segment is
    the current status the title is made of the segments between the third
    and the last; otherwise, when the fourth segment is the current status,
    of the segments after the fourth; otherwise of the segments after the
    third.  With four segments the title is the fourth segment; with at
    most three the whole base name is returned. *)
Theorem extractTitleBase_by_layout (basename : jstring) (m : StandardMetadata) :
  let parts := split "-" basename in
  let n := length parts in
  let title := extractTitleBaseFromFilename basename m in
  (5 <= n -> last parts = Some (status m) ->
   title = JS.join (js "-") (take (n - 4) (drop 3 parts))) /\
  (5 <= n -> last parts <> Some (status m) -> parts !! 3 = Some (status m) ->
   title = JS.join (js "-") (drop 4 parts)) /\
  (5 <= n -> last parts <> Some (status m) -> parts !! 3 <> Some (status m) ->
   title = JS.join (js "-") (drop 3 parts)) /\
  (n = 4 -> title = JS.join (js "-") (drop 3 parts)) /\
  (n <= 3 -> title = basename).
Proof.
  intros parts n title.
  pose proof (extractTitleBase_cases basename m) as Hlong. cbv zeta in Hlong.
  fold parts n title in Hlong.
  split; [intros Hn; by apply Hlong|].
  split; [intros Hn; by apply Hlong|].
  split; [intros Hn; by apply Hlong|].
  subst title. unfold extractTitleBaseFromFilename. fold parts. fold n.
  change 3%Z with (Z.of_nat 3). rewrite !sliceFrom_drop. split.
  - intros ->. by simpl.
  - intros Hn. replace (5 <=? n) with false by (symmetry; apply Nat.leb_gt; lia).
    by replace (3 <? n) with false by (symmetry; apply Nat.ltb_ge; lia).
Qed.

(** The two layouts of the README on a concrete name. *)
Lemma extractTitleBase_by_layout_witness :
  extractTitleBaseFromFilename
    (js "standard-backend-development-spring-boot-security-active") sampleMetadata
  = js "spring-boot-security".
Proof.
  rewrite (proj1 (extractTitleBase_by_layout
                    (js "standard-backend-development-spring-boot-security-active")
                    sampleMetadata)).
  - reflexivity.
  - simpl. lia.
  - reflexivity.
Defined.

(** C2 fails on a name of four segments whose last segment is the current
    status: the title is that segment, not the (empty) run of segments
    between the third and the last. *)
Lemma extractTitleBase_four_segments_counterexample :
  let basename := js "standard-backend-development-active" in
  let parts := split "-" basename in
  last parts = Some (status sampleMetadata) /\
  extractTitleBaseFromFilename basename sampleMetadata
  <> JS.join (js "-") (slice parts 3 (Z.of_nat (length parts) - 1)).
Proof. split; [reflexivity | vm_compute; discriminate]. Qed.

(** C4.  With the title ["!!!"], which sanitizes to the empty string, the
    derived name is [standard-backend-development--active.md]; deriving
    again from that name yields
    [standard-backend-development-active-active.md]: the status suffix
    appears twice and the two names differ. *)
Theorem generateFilePath_duplicates_suffix_on_empty_title :
  let first := generateFilePath sampleMetadata (Some (js "!!!")) in
  let second := generateFilePath sampleMetadata (Some first) in
  first = js "standard-backend-development--active.md" /\
  second = js "standard-backend-development-active-active.md" /\
  second <> first.
Proof. vm_compute. repeat split. discriminate. Qed.

End TitleFacts.

(** ** Paths of a flat store *)
Section PathFacts.
Import JS.

Lemma isSep_slash : isSep "/" = true.
Proof. done. Qed.

Lemma flatName_plain s : flatName s -> plainSegment s.
Proof.
  intros (H1 & H2 & H3 & H4). repeat split; try done.
  intros Hin. rewrite Forall_forall in H4. apply H4 in Hin. by rewrite isSep_slash in Hin.
Qed.

Lemma split_without_separator sep s : sep ∉ s -> split sep s = [s].
Proof.
  induction s as [|c s IH]; intros Hs; [done|]. cbn [split].
  apply not_elem_of_cons in Hs as [Hc Hs].
  rewrite bool_decide_eq_false_2 by congruence. by rewrite IH.
Qed.

Lemma split_nonempty sep s : split sep s <> [].
Proof.
  destruct s as [|c s]; [done|]. cbn [split].
  destruct (bool_decide (c = sep)); [done|]. by destruct (split sep s).
Qed.

Lemma split_app_separator sep a b :
  split sep (a ++ sep :: b) = split sep a ++ split sep b.
Proof.
  induction a as [|c a IH]; cbn [app split].
  - by rewrite bool_decide_eq_true_2.
  - destruct (bool_decide (c = sep)); [by rewrite IH|].
    rewrite IH. pose proof (split_nonempty sep a). by destruct (split sep a).
Qed.

Lemma join_cons_cons sep x y l :
  JS.join sep (x :: y :: l) = x ++ sep ++ JS.join sep (y :: l).
Proof. done. Qed.

Lemma split_join sep l :
  l <> [] -> Forall (fun s => sep ∉ s) l -> split sep (JS.join [sep] l) = l.
Proof.
  induction l as [|x l IH]; [done|]. intros _ Hl.
  apply Forall_cons in Hl as [Hx Hl]. destruct l as [|y l].
  - by apply split_without_separator.
  - rewrite join_cons_cons. cbn [app].
    rewrite split_app_separator, split_without_separator by done.
    by rewrite IH.
Qed.

Lemma join_snoc sep l x :
  l <> [] -> JS.join sep (l ++ [x]) = JS.join sep l ++ sep ++ x.
Proof.
  induction l as [|y l IH]; [done|]. intros _. destruct l as [|z l]; [done|].
  change ((y :: z :: l) ++ [x]) with (y :: z :: (l ++ [x])).
  rewrite !join_cons_cons. change (z :: l ++ [x]) with ((z :: l) ++ [x]).
  rewrite IH by done. by rewrite <- !app_assoc.
Qed.

Lemma pushSegment_plain allow acc s :
  plainSegment s -> Path.pushSegment allow acc s = s :: acc.
Proof.
  intros (H1 & H2 & H3 & _). unfold Path.pushSegment.
  by rewrite !bool_decide_eq_false_2 by done.
Qed.

Lemma fold_pushSegment_plain allow segs acc :
  Forall plainSegment segs ->
  fold_left (Path.pushSegment allow) segs acc = rev segs ++ acc.
Proof.
  revert acc. induction segs as [|s segs IH]; intros acc Hs; [done|].
  apply Forall_cons in Hs as [Hs Hl]. cbn [fold_left rev].
  rewrite pushSegment_plain, IH by done. by rewrite <- app_assoc.
Qed.

Lemma fold_pushSegment_join allow segs acc :
  Forall plainSegment segs ->
  fold_left (Path.pushSegment allow) (split "/" (JS.join (js "/") segs)) acc
  = rev segs ++ acc.
Proof.
  intros Hs. destruct segs as [|s segs]; [done|].
  change (js "/") with ["/"%char]. rewrite split_join; [by apply fold_pushSegment_plain|done|].
  eapply Forall_impl; [exact Hs|]. by intros x (_ & _ & _ & ?).
Qed.

Lemma normalizeSegments_canonicalDir allow segs :
  Forall plainSegment segs ->
  Path.normalizeSegments allow (canonicalDir segs) = segs.
Proof.
  intros Hs. unfold Path.normalizeSegments, canonicalDir. cbn [split].
  rewrite bool_decide_eq_true_2 by done. cbn [fold_left].
  change (Path.pushSegment allow [] []) with (@nil jstring).
  rewrite fold_pushSegment_join by done. by rewrite app_nil_r, rev_involutive.
Qed.

Lemma canonicalDir_snoc segs name :
  canonicalDir segs ++ js "/" ++ name =
  match segs with
  | [] => "/"%char :: "/"%char :: name
  | _ :: _ => canonicalDir (segs ++ [name])
  end.
Proof.
  unfold canonicalDir. destruct segs as [|s segs]; [done|].
  rewrite join_snoc by done. by rewrite <- app_comm_cons.
Qed.

Lemma normalizeSegments_child allow segs name :
  Forall plainSegment segs -> plainSegment name ->
  Path.normalizeSegments allow (canonicalDir segs ++ js "/" ++ name) = segs ++ [name].
Proof.
  intros Hs Hn. rewrite canonicalDir_snoc. destruct segs as [|s segs].
  - unfold Path.normalizeSegments. cbn [split].
    rewrite !bool_decide_eq_true_2 by done.
    rewrite split_without_separator by apply Hn. cbn [fold_left].
    change (Path.pushSegment allow [] []) with (@nil jstring).
    by rewrite pushSegment_plain.
  - apply normalizeSegments_canonicalDir. apply Forall_app. split; [done|].
    by apply Forall_singleton.
Qed.

Lemma join_last_nonempty sep l x : x <> [] -> JS.join sep (l ++ [x]) <> [].
Proof.
  intros Hx. destruct l as [|y l]; [done|].
  rewrite join_snoc by done. intros H. apply app_eq_nil in H as [_ H].
  apply app_eq_nil in H as [_ H]. done.
Qed.

Lemma endsWith_slash_false p name :
  plainSegment name -> endsWith (p ++ name) (js "/") = false.
Proof.
  intros (Hne & _ & _ & Hns). unfold endsWith. apply andb_false_iff. right.
  apply bool_decide_eq_false_2. intros H.
  destruct (exists_last Hne) as (init & c & ->).
  rewrite app_assoc in H. rewrite drop_app_length' in H.
  2: { rewrite !length_app. simpl. lia. }
  injection H as ->. apply Hns. apply elem_of_app. right. apply list_elem_of_here.
Qed.

Lemma normalize_child segs name :
  Forall plainSegment segs -> plainSegment name ->
  Path.normalize (canonicalDir segs ++ js "/" ++ name) = canonicalDir (segs ++ [name]).
Proof.
  intros Hs Hn. pose proof Hn as (Hne & _). unfold Path.normalize.
  remember (canonicalDir segs ++ js "/" ++ name) as p eqn:Ep.
  destruct p as [|d r]; [discriminate Ep|]. rewrite Ep.
  replace (Path.isAbsolute (canonicalDir segs ++ js "/" ++ name)) with true by done.
  unfold Path.normalizeString. rewrite normalizeSegments_child by done.
  rewrite (app_assoc (canonicalDir segs)), endsWith_slash_false by done.
  pose proof (join_last_nonempty (js "/") segs name Hne) as Hj.
  unfold canonicalDir at 1. simpl negb. cbv iota.
  by destruct (JS.join (js "/") (segs ++ [name])).
Qed.

(** Joining the store directory with a plain name appends the name. *)
Lemma join_canonicalDir segs name :
  Forall plainSegment segs -> plainSegment name ->
  Path.join (canonicalDir segs) name = canonicalDir (segs ++ [name]).
Proof.
  intros Hs Hn. rewrite <- normalize_child by done.
  destruct Hn as (Hne & _). by destruct name.
Qed.

Lemma resolveSegments_canonicalDir cwd segs :
  Forall plainSegment segs -> Path.resolveSegments cwd (canonicalDir segs) = segs.
Proof.
  intros Hs. unfold Path.resolveSegments.
  change (Path.isAbsolute (canonicalDir segs)) with true. cbv iota.
  by apply normalizeSegments_canonicalDir.
Qed.

Lemma commonSegments_prefix l k : Path.commonSegments l (l ++ k) = length l.
Proof.
  induction l as [|x l IH]; [by destruct k|]. simpl.
  by rewrite bool_decide_eq_true_2, IH.
Qed.

Lemma canonicalDir_inj a b :
  Forall plainSegment a -> Forall plainSegment b ->
  canonicalDir a = canonicalDir b -> a = b.
Proof.
  intros Ha Hb H.
  rewrite <- (normalizeSegments_canonicalDir false a), <- (normalizeSegments_canonicalDir false b)
    by done.
  by rewrite H.
Qed.

(** The path of a child of the store directory, relative to it, is its
    name. *)
Lemma relative_child cwd segs name :
  Forall plainSegment segs -> plainSegment name ->
  Path.relative cwd (canonicalDir segs) (canonicalDir (segs ++ [name])) = name.
Proof.
  intros Hs Hn. unfold Path.relative.
  assert (Hall : Forall plainSegment (segs ++ [name])).
  { apply Forall_app. split; [done | by apply Forall_singleton]. }
  rewrite bool_decide_eq_false_2.
  2: { intros H. apply canonicalDir_inj in H; [|done..].
       assert (Hl : length segs = length (segs ++ [name])) by (by rewrite <- H).
       rewrite length_app in Hl. simpl in Hl. lia. }
  rewrite !resolveSegments_canonicalDir by done.
  rewrite commonSegments_prefix, Nat.sub_diag, drop_app_length. done.
Qed.

End PathFacts.

(** ** The two historical layouts, segment by segment *)
Section LayoutFacts.
Import JS Storage.

(** A name in the new layout [type-tier-process-title-status]: the title
    comes back, whatever hyphen-separated words it is made of. *)
Lemma extractTitleBase_new_layout (a b c : jstring) (title : list jstring)
    (m : StandardMetadata) :
  title <> [] -> Forall hyphenFree ([a; b; c] ++ title ++ [status m]) ->
  extractTitleBaseFromFilename
    (JS.join (js "-") ([a; b; c] ++ title ++ [status m])) m
  = JS.join (js "-") title.
Proof.
  intros Hne Hfree.
  pose proof (extractTitleBase_cases
                (JS.join (js "-") ([a; b; c] ++ title ++ [status m])) m) as Hlong.
  cbv zeta in Hlong. change (js "-") with ["-"%char] in *.
  rewrite split_join in Hlong by done.
  destruct Hlong as (Hnew & _).
  { rewrite !length_app. simpl. destruct title; [done | simpl; lia]. }
  rewrite Hnew.
  - rewrite !length_app. simpl length.
    replace (3 + (length title + 1) - 4) with (length title) by lia.
    change (drop 3 ([a; b; c] ++ title ++ [status m])) with (title ++ [status m]).
    by rewrite take_app_length.
  - rewrite !app_assoc. apply last_snoc.
Qed.

(** A name in the old layout [type-tier-process-status-title], whose last
    word is not the status. *)
Lemma extractTitleBase_old_layout (a b c : jstring) (title : list jstring)
    (m : StandardMetadata) :
  last title <> None -> last title <> Some (status m) ->
  Forall hyphenFree ([a; b; c; status m] ++ title) ->
  extractTitleBaseFromFilename
    (JS.join (js "-") ([a; b; c; status m] ++ title)) m
  = JS.join (js "-") title.
Proof.
  intros Hne Hlast Hfree.
  pose proof (extractTitleBase_cases
                (JS.join (js "-") ([a; b; c; status m] ++ title)) m) as Hlong.
  cbv zeta in Hlong. change (js "-") with ["-"%char] in *.
  rewrite split_join in Hlong by done.
  destruct Hlong as (_ & Hold & _).
  { simpl. destruct title; [done | simpl; lia]. }
  apply Hold.
  - destruct title as [|t title]; [done|].
    change ([a; b; c; status m] ++ t :: title) with ([a; b; c; status m] ++ (t :: title)).
    by rewrite last_app_cons.
  - done.
Qed.

End LayoutFacts.

(** ** Reading, updating and bulk loading *)
Section ServiceFacts.
Import JS Storage.
Variable STANDARDS_DIR : jstring.
Variable cwd : jstring.
Variable parseFrontmatter : jstring -> option (StandardMetadata * jstring).
Variable serializeStandard : Standard -> jstring.
Variable validateMetadata : StandardMetadata -> option StandardMetadata.
Variable generateISODate : jstring.

Local Abbreviation normalizeTargetPath := (Storage.normalizeTargetPath STANDARDS_DIR cwd).
Local Abbreviation fullPathOf := (Storage.fullPathOf STANDARDS_DIR).
Local Abbreviation readStandard := (Storage.readStandard STANDARDS_DIR cwd parseFrontmatter).
Local Abbreviation updateStandard :=
  (Storage.updateStandard STANDARDS_DIR cwd parseFrontmatter serializeStandard
     validateMetadata generateISODate).
Local Abbreviation loadFrom := (loadFrom STANDARDS_DIR cwd parseFrontmatter).
Local Abbreviation mergedMetadata := (mergedMetadata generateISODate).
Local Abbreviation oldFullPathOf := (oldFullPathOf STANDARDS_DIR cwd).
Local Abbreviation newFullPathOf := (newFullPathOf STANDARDS_DIR cwd).
Local Abbreviation updatedDocument := (updatedDocument STANDARDS_DIR cwd).
Local Abbreviation rewritten := (rewritten serializeStandard).

Lemma readStandard_outcome filePath w :
  readStandard filePath w = (loadFrom (files w) filePath, w).
Proof.
  unfold Storage.readStandard, loadFrom, tryCatch, bind, readFile, parseStandard.
  destruct (files w !! _) as [f|]; [|done].
  destruct (readable f); [|done].
  by destruct (parseFrontmatter (data f)) as [[m body]|].
Qed.

Lemma writeFile_outcome p text w :
  writeFile p text w = (Ok tt, after w [written (files w) p text]).
Proof.
  unfold writeFile, setFiles, after, written. simpl.
  by destruct (files w !! p).
Qed.

(** [updateStandard], step by step, once the existing document is loaded
    and the merged metadata validated. *)
Lemma updateStandard_steps filePath updates w existing validated :
  loadFrom (files w) filePath = Ok existing ->
  validateMetadata (mergedMetadata existing updates) = Some validated ->
  let old := oldFullPathOf existing in
  let new := newFullPathOf existing validated in
  let updated := updatedDocument existing updates validated in
  updateStandard filePath updates w =
  if decide (old = new) then
    (Ok updated,
     after w [rewritten (files w) (fullPathOf (normalizeTargetPath (path updated))) updated])
  else
    match files w !! new with
    | Some _ =>
        (Throw (TargetExists (normalizeTargetPath (newFilenameFor existing validated))), w)
    | None =>
        match files w !! old with
        | None => (Throw (ErrnoException ENOENT), w)
        | Some f =>
            let moved := renamed (files w) old new f in
            (Ok updated, after w [moved; rewritten moved new updated])
        end
    end.
Proof.
  intros Hload Hvalid old new updated.
  unfold Storage.updateStandard. unfold bind at 1.
  rewrite readStandard_outcome, Hload.
  fold (mergedMetadata existing updates). rewrite Hvalid.
  fold (newFilenameFor existing validated). fold (oldFullPathOf existing).
  fold (newFullPathOf existing validated). fold (updatedDocument existing updates validated).
  fold old new updated.
  destruct (decide (old = new)) as [Heq|Hne].
  - rewrite bool_decide_eq_false_2 by (intros H; by apply H).
    cbv beta iota zeta delta [bind Storage.writeStandard tryCatch mkdirFor ret].
    by rewrite writeFile_outcome.
  - rewrite bool_decide_eq_true_2 by done.
    cbv beta iota zeta delta [bind tryCatch access mkdirFor ret throw rename setFiles].
    destruct (files w !! new) as [g|] eqn:Enew; [done|].
    replace (bool_decide (errorCode (ErrnoException ENOENT) <> Some ENOENT)) with false by done.
    destruct (files w !! old) as [f|] eqn:Eold; [|done].
    rewrite writeFile_outcome. unfold after, rewritten, written, renamed. simpl.
    rewrite lookup_insert_eq. by rewrite <- app_assoc.
Qed.

End ServiceFacts.

(** ** Names free of path separators *)
Section FlatNames.
Import JS Storage.

Lemma lowerAlnum_not_sep c : isLowerAlnum c = true -> isSep c = false.
Proof. destruct c as [[] [] [] [] [] [] [] []]; vm_compute; intros; congruence. Qed.

Lemma isSep_lower_char c : isSep (lower_char c) = isSep c.
Proof. destruct c as [[] [] [] [] [] [] [] []]; vm_compute; reflexivity. Qed.

Lemma sepFree_toLowerCase s : sepFree s -> sepFree (toLowerCase s).
Proof.
  unfold sepFree, toLowerCase. intros H. apply Forall_map.
  eapply Forall_impl; [exact H|]. intros c Hc. simpl. by rewrite isSep_lower_char.
Qed.

Lemma sepFree_app a b : sepFree a -> sepFree b -> sepFree (a ++ b).
Proof. intros Ha Hb. apply Forall_app. by split. Qed.

Lemma sepFree_slice s i j : sepFree s -> sepFree (slice s i j).
Proof. intros H. unfold slice. by apply Forall_take, Forall_drop. Qed.

Lemma sepFree_join l : Forall sepFree l -> sepFree (JS.join (js "-") l).
Proof.
  induction l as [|x l IH]; intros Hl; [constructor|].
  apply Forall_cons in Hl as [Hx Hl]. destruct l as [|y l]; [done|].
  rewrite join_cons_cons. apply sepFree_app; [done|].
  apply sepFree_app; [by repeat constructor | by apply IH].
Qed.

Lemma sepFree_replaceNonAlnumRuns inRun s : sepFree (replaceNonAlnumRuns inRun s).
Proof.
  revert inRun. induction s as [|c s IH]; intros inRun; [constructor|]. simpl.
  destruct (isLowerAlnum c) eqn:E.
  - constructor; [by apply lowerAlnum_not_sep | apply IH].
  - destruct inRun; [apply IH|]. constructor; [done | apply IH].
Qed.

Lemma sepFree_collapseHyphens inRun s : sepFree s -> sepFree (collapseHyphens inRun s).
Proof.
  revert inRun. induction s as [|c s IH]; intros inRun Hs; [constructor|]. simpl.
  apply Forall_cons in Hs as [Hc Hs].
  destruct (bool_decide (c = "-"%char)); [destruct inRun|].
  - by apply IH.
  - constructor; [done | by apply IH].
  - constructor; [done | by apply IH].
Qed.

Lemma sepFree_rev s : sepFree s -> sepFree (rev s).
Proof. unfold sepFree. apply Forall_rev. Qed.

Lemma sepFree_trimHyphens s : sepFree s -> sepFree (trimHyphens s).
Proof.
  intros Hs. unfold trimHyphens.
  set (s1 := match s with | [] => s | c :: r => if bool_decide (c = "-"%char) then r else s end).
  assert (H1 : sepFree s1).
  { subst s1. destruct s as [|c r]; [done|]. destruct (bool_decide _); [|done].
    by apply Forall_cons in Hs as [_ ?]. }
  destruct (rev s1) as [|c r] eqn:E; [done|].
  destruct (bool_decide _); [|done].
  apply sepFree_rev. apply sepFree_rev in H1. rewrite E in H1.
  by apply Forall_cons in H1 as [_ ?].
Qed.

Lemma sepFree_sanitizeFilename filename : sepFree (sanitizeFilename filename).
Proof.
  unfold sanitizeFilename. apply sepFree_app; [|by repeat constructor].
  apply sepFree_trimHyphens, sepFree_collapseHyphens, sepFree_replaceNonAlnumRuns.
Qed.

Lemma sepFree_generateDefaultFilename m : sepFree (generateDefaultFilename m).
Proof.
  unfold generateDefaultFilename.
  destruct (tags m); [destruct (tier m)|]; apply sepFree_sanitizeFilename.
Qed.

Lemma sepFree_generateFilePath m filename :
  separatorFree m -> sepFree (generateFilePath m filename).
Proof.
  intros (Hty & Hti & Hpr & Hst). unfold generateFilePath.
  set (sanitized := match filename with
                    | Some (c :: f) => sanitizeFilename (c :: f)
                    | _ => generateDefaultFilename m
                    end).
  assert (Hsan : sepFree sanitized).
  { subst sanitized. destruct filename as [[|c f]|];
      auto using sepFree_sanitizeFilename, sepFree_generateDefaultFilename. }
  set (titleBase := if endsWith sanitized MARKDOWN_EXTENSION then _ else _).
  assert (Htitle : sepFree (toLowerCase titleBase)).
  { apply sepFree_toLowerCase. subst titleBase.
    destruct (endsWith _ _); [by apply sepFree_slice | done]. }
  set (pre := JS.join (js "-") _ ++ js "-").
  assert (Hpre : sepFree pre).
  { subst pre. apply sepFree_app; [|by repeat constructor].
    apply sepFree_join, Forall_map.
    assert (Hall : Forall sepFree [type m; tier m; process m]) by (by repeat constructor).
    apply Forall_forall. intros x Hx. apply sepFree_toLowerCase.
    rewrite Forall_forall in Hall. apply Hall.
    apply list_elem_of_In, filter_In in Hx as [Hx _]. by apply list_elem_of_In. }
  assert (Hsuf : sepFree (js "-" ++ toLowerCase (status m))).
  { apply sepFree_app; [by repeat constructor | by apply sepFree_toLowerCase]. }
  apply sepFree_app; [exact Hpre|]. apply sepFree_app.
  - unfold sliceFrom.
    repeat match goal with |- context [if ?b then _ else _] => destruct b end;
      first [ exact Htitle
            | apply sepFree_slice; exact Htitle
            | apply sepFree_slice, sepFree_slice; exact Htitle ].
  - apply sepFree_app; [exact Hsuf | by repeat constructor].
Qed.

Lemma generateFilePath_flat m filename :
  separatorFree m -> flatName (generateFilePath m filename).
Proof.
  intros Hm. pose proof (sepFree_generateFilePath m filename Hm) as Hs.
  assert (Hlen : 3 <= length (generateFilePath m filename)).
  { unfold generateFilePath. rewrite !length_app. simpl. lia. }
  repeat split; [| | |done]; intros H; rewrite H in Hlen; simpl in Hlen; lia.
Qed.

Lemma standardsPrefixLength_separator p n :
  standardsPrefixLength p = Some n -> exists c, c ∈ p /\ isSep c = true.
Proof.
  unfold standardsPrefixLength.
  assert (Htry : forall skip n',
    (if startsWithFolded (drop skip p) (js "standards") then
       match drop 9 (drop skip p) with
       | c :: _ => if isSep c then Some (skip + 10) else None
       | [] => None
       end
     else None) = Some n' -> exists c, c ∈ p /\ isSep c = true).
  { intros skip n'. destruct (startsWithFolded _ _); [|done].
    destruct (drop 9 (drop skip p)) as [|c r] eqn:E; [done|].
    destruct (isSep c) eqn:Ec; [|done]. intros _. exists c. split; [|done].
    rewrite drop_drop in E.
    apply (list_elem_of_lookup_2 _ (skip + 9 + 0)). by rewrite <- lookup_drop, E. }
  destruct p as [|c p]; [done|].
  destruct (isSep c).
  - destruct (if startsWithFolded (drop 1 (c :: p)) _ then _ else _) as [n1|] eqn:E1.
    + intros _. by apply (Htry 1 n1).
    + apply (Htry 0).
  - apply (Htry 0).
Qed.

Lemma sepFree_no_prefix p : sepFree p -> standardsPrefixLength p = None.
Proof.
  intros Hp. destruct (standardsPrefixLength p) as [n|] eqn:E; [|done].
  apply standardsPrefixLength_separator in E as (c & Hin & Hc).
  unfold sepFree in Hp. rewrite Forall_forall in Hp. apply Hp in Hin. congruence.
Qed.

Lemma flatName_not_absolute a : flatName a -> Path.isAbsolute a = false.
Proof.
  intros (Hne & _ & _ & Hs). destruct a as [|c a]; [done|]. simpl.
  apply Forall_cons in Hs as [Hc _]. apply bool_decide_eq_false_2. by intros ->.
Qed.

Lemma flatName_normalizeTargetPath STANDARDS_DIR cwd a :
  flatName a -> normalizeTargetPath STANDARDS_DIR cwd a = a.
Proof.
  intros Ha. pose proof (flatName_not_absolute a Ha) as Habs.
  destruct Ha as (Hne & _ & _ & Hs). unfold normalizeTargetPath.
  destruct a as [|c a]; [done|]. rewrite Habs.
  apply stripStandardsPrefix_fixed. by apply sepFree_no_prefix.
Qed.

Lemma flatName_fullPathOf segs a :
  Forall plainSegment segs -> flatName a ->
  fullPathOf (canonicalDir segs) a = canonicalDir (segs ++ [a]).
Proof.
  intros Hs Ha. unfold fullPathOf. rewrite flatName_not_absolute by done.
  apply join_canonicalDir; [done | by apply flatName_plain].
Qed.

Lemma canonicalDir_child_inj segs a b :
  Forall plainSegment segs -> flatName a -> flatName b ->
  canonicalDir (segs ++ [a]) = canonicalDir (segs ++ [b]) -> a = b.
Proof.
  intros Hs Ha Hb H. apply canonicalDir_inj in H.
  - by apply app_inv_head in H as [= ->].
  - apply Forall_app. split; [done|]. by apply Forall_singleton, flatName_plain.
  - apply Forall_app. split; [done|]. by apply Forall_singleton, flatName_plain.
Qed.

End FlatNames.

(** ** Updating a document of a flat store *)
Section UpdateFacts.
Import JS Storage.
Variable segs : list jstring.
Variable cwd : jstring.
Variable parseFrontmatter : jstring -> option (StandardMetadata * jstring).
Variable serializeStandard : Standard -> jstring.
Variable validateMetadata : StandardMetadata -> option StandardMetadata.
Variable generateISODate : jstring.

Local Abbreviation STANDARDS_DIR := (canonicalDir segs).
Local Abbreviation updateStandard :=
  (Storage.updateStandard STANDARDS_DIR cwd parseFrontmatter serializeStandard
     validateMetadata generateISODate).

(** X19.  The update of a document that lies directly in the store.  The store
    directory is an absolute directory and [filePath] names a readable,
    well-formed file directly in it; the merged metadata validate to
    [validated].  When the derived name differs from the
    existing one and a file already has the new name, the update throws
    the conflict error and the world is unchanged; when no file has the
    new name, the old file is renamed and then rewritten with the
    serialized merged document, and in the file system between the two
    steps the document is at the new path and not at the old one; when
    the derived name is the existing one, the file is rewritten in
    place. *)
Theorem updateStandard_renames_then_rewrites
    (w : World) (filePath : jstring) (updates : Updates)
    (f : File) (m0 : StandardMetadata) (body0 : jstring)
    (validated : StandardMetadata) :
  let oldName := normalizeTargetPath STANDARDS_DIR cwd filePath in
  let existing := {| metadata := m0; content := body0; path := oldName |} in
  let newName := newFilenameFor existing validated in
  let old := canonicalDir (segs ++ [oldName]) in
  let new := canonicalDir (segs ++ [newName]) in
  let updated := {| metadata := validated;
                    content := default body0 (u_content updates);
                    path := newName |} in
  Forall plainSegment segs -> flatName oldName ->
  files w !! old = Some f -> readable f = true ->
  parseFrontmatter (data f) = Some (m0, body0) ->
  validateMetadata (mergedMetadata generateISODate existing updates) = Some validated ->
  separatorFree validated ->
  (newName <> oldName -> files w !! new <> None ->
   updateStandard filePath updates w = (Throw (TargetExists newName), w)) /\
  (newName <> oldName -> files w !! new = None ->
   let moved := renamed (files w) old new f in
   let final := rewritten serializeStandard moved new updated in
   updateStandard filePath updates w = (Ok updated, after w [moved; final]) /\
   moved !! old = None /\ moved !! new = Some f /\
   final !! old = None /\ data <$> final !! new = Some (serializeStandard updated)) /\
  (newName = oldName ->
   let final := rewritten serializeStandard (files w) old updated in
   updateStandard filePath updates w = (Ok updated, after w [final]) /\
   data <$> final !! old = Some (serializeStandard updated)).
Proof.
  intros oldName existing newName old new updated Hsegs Hflat Hfile Hread Hparse Hvalid Hsep.
  assert (HnewFlat : flatName newName) by (by apply generateFilePath_flat).
  assert (Hload : loadFrom STANDARDS_DIR cwd parseFrontmatter (files w) filePath = Ok existing).
  { unfold loadFrom. fold oldName. rewrite flatName_fullPathOf by done. fold old.
    rewrite Hfile, Hread, Hparse. unfold existing. do 2 f_equal.
    apply relative_child; [done | by apply flatName_plain]. }
  assert (Hold : oldFullPathOf STANDARDS_DIR cwd existing = old).
  { unfold oldFullPathOf. simpl path. rewrite flatName_normalizeTargetPath by done.
    apply join_canonicalDir; [done | by apply flatName_plain]. }
  assert (Hnew : newFullPathOf STANDARDS_DIR cwd existing validated = new).
  { unfold newFullPathOf. fold newName. rewrite flatName_normalizeTargetPath by done.
    apply join_canonicalDir; [done | by apply flatName_plain]. }
  assert (Hupd : updatedDocument STANDARDS_DIR cwd existing updates validated = updated).
  { unfold updatedDocument, updated. rewrite Hnew. simpl content. f_equal.
    apply relative_child; [done | by apply flatName_plain]. }
  assert (Hneq : newName <> oldName -> old <> new).
  { intros Hne Heq. apply Hne. symmetry. by apply (canonicalDir_child_inj segs). }
  pose proof (updateStandard_steps STANDARDS_DIR cwd parseFrontmatter serializeStandard
                validateMetadata generateISODate filePath updates w existing validated
                Hload Hvalid) as Hsteps.
  cbv zeta in Hsteps. rewrite Hold, Hnew, Hupd in Hsteps. fold newName in Hsteps.
  rewrite !(flatName_normalizeTargetPath _ _ newName) in Hsteps by done.
  rewrite flatName_fullPathOf in Hsteps by done. fold new in Hsteps.
  split; [|split].
  - intros Hne Hocc. rewrite Hsteps. rewrite decide_False by auto.
    by destruct (files w !! new).
  - intros Hne Hfree moved final. rewrite Hsteps. rewrite decide_False by auto.
    rewrite Hfree, Hfile. split; [done|].
    assert (Hon : old <> new) by auto.
    assert (Hno : new <> old) by auto.
    unfold final, rewritten, written, moved, renamed.
    repeat split.
    + by rewrite lookup_insert_ne, lookup_delete_eq.
    + by rewrite lookup_insert_eq.
    + by rewrite !lookup_insert_ne, lookup_delete_eq.
    + by rewrite (lookup_insert_eq (<[new:=f]> (delete old (files w)))).
  - intros Heq final. rewrite Hsteps.
    assert (Hsame : new = old) by (unfold new; by rewrite Heq).
    rewrite decide_True by done. rewrite Hsame. split; [done|].
    unfold final, rewritten, written. by rewrite lookup_insert_eq.
Qed.

End UpdateFacts.

(** ** Bulk loading and refresh *)
Section BulkReadFacts.
Import JS Storage.
Variable STANDARDS_DIR : jstring.
Variable cwd : jstring.
Variable parseFrontmatter : jstring -> option (StandardMetadata * jstring).
Variable glob : gmap jstring File -> list jstring.
Variable newDate : jstring.

Local Abbreviation loadFrom := (loadFrom STANDARDS_DIR cwd parseFrontmatter).
Local Abbreviation readEach := (Storage.readEach STANDARDS_DIR cwd parseFrontmatter).
Local Abbreviation readAllStandards :=
  (Storage.readAllStandards STANDARDS_DIR cwd parseFrontmatter glob).
Local Abbreviation refresh :=
  (Indexer.refresh STANDARDS_DIR cwd parseFrontmatter glob newDate).
Local Abbreviation loaded := (loaded STANDARDS_DIR cwd parseFrontmatter).
Local Abbreviation failure := (failure STANDARDS_DIR cwd parseFrontmatter).
Local Abbreviation enumerated := (enumerated STANDARDS_DIR cwd glob).

Lemma logging_nil w : logging w [] = w.
Proof. destruct w. unfold logging. simpl. by rewrite app_nil_r. Qed.

Lemma logging_logging w a b : logging (logging w a) b = logging w (a ++ b).
Proof. unfold logging. simpl. by rewrite app_assoc. Qed.

Lemma readEach_outcome names acc w :
  readEach names acc w
  = (Ok (acc ++ omap (loaded (files w)) names),
     logging w (omap (failure (files w)) names)).
Proof.
  revert acc w. induction names as [|file names IH]; intros acc w.
  - simpl. by rewrite app_nil_r, logging_nil.
  - cbn [Storage.readEach omap list_omap].
    cbv beta iota zeta delta [bind tryCatch ret consoleError].
    rewrite readStandard_outcome. unfold loaded at 1, failure at 1.
    destruct (loadFrom (files w) file) as [d|e].
    + rewrite IH. by rewrite <- app_assoc.
    + rewrite IH. simpl files.
      change {| files := files w; history := history w;
                console := console w ++ [(file, e)] |} with (logging w [(file, e)]).
      by rewrite logging_logging.
Qed.

Lemma omap_partition_length {A B C} (f : A -> option B) (g : A -> option C) (l : list A) :
  (forall x, is_Some (f x) <-> g x = None) ->
  length (omap f l) + length (omap g l) = length l.
Proof.
  intros H. induction l as [|x l IH]; [done|]. cbn [omap list_omap length].
  destruct (f x) eqn:Ef, (g x) eqn:Eg; simpl; try lia.
  - assert (is_Some (f x)) as Hs by (by rewrite Ef). apply H in Hs. congruence.
  - assert (g x = None) as Hn by done. apply H in Hn. rewrite Ef in Hn. by destruct Hn.
Qed.

(** [readAllStandards] never fails: it returns, in enumeration order,
    the documents [readStandard] loads for the enumerated names, and
    writes one console entry for every name it fails on, leaving the
    files untouched.  A refresh therefore completes with a snapshot whose
    count is the number of enumerated files minus the number of failures:
    2 for three files of which one is malformed. *)
Theorem readAll_skips_unreadable_and_malformed (w : World) (this : Indexer.StandardsIndex) :
  let names := enumerated (files w) in
  let documents := omap (loaded (files w)) names in
  let failures := omap (failure (files w)) names in
  readAllStandards w = (Ok documents, logging w failures) /\
  refresh this w
    = (Ok {| Indexer.standards := documents; Indexer.lastRefresh := Some newDate |},
       logging w failures) /\
  (forall d, d ∈ documents <-> exists file, file ∈ names /\ loadFrom (files w) file = Ok d) /\
  Indexer.getCount {| Indexer.standards := documents; Indexer.lastRefresh := Some newDate |}
    + length failures = length names /\
  (length names = 3 -> length failures = 1 ->
   Indexer.getCount {| Indexer.standards := documents; Indexer.lastRefresh := Some newDate |} = 2).
Proof.
  intros names documents failures.
  assert (Hall : readAllStandards w = (Ok documents, logging w failures)).
  { unfold Storage.readAllStandards, bind, listAllStandardFiles.
    by rewrite readEach_outcome. }
  assert (Hcount : length documents + length failures = length names).
  { apply omap_partition_length. intros file. unfold loaded, failure.
    destruct (loadFrom (files w) file) as [d|e].
    - split; [done | intros _; by eexists].
    - split; [by intros [? ?] | done]. }
  split; [exact Hall|]. split; [|split; [|split]].
  - unfold Indexer.refresh, bind, ret. by rewrite Hall.
  - intros d. unfold documents. rewrite list_elem_of_omap. unfold loaded. split.
    + intros (file & Hin & Hd). exists file. split; [done|].
      by destruct (loadFrom (files w) file) as [d'|]; simplify_eq.
    + intros (file & Hin & Hd). exists file. split; [done|]. by rewrite Hd.
  - exact Hcount.
  - unfold Indexer.getCount. simpl. lia.
Qed.

End BulkReadFacts.

(** ** A concrete store *)
Section StoreExamples.
Import JS Storage.

(** Deprecating the only document of a store: the file moves to the name
    carrying the new status, and between the rename and the rewrite it is
    at the new path only. *)
Lemma updateStandard_renames_then_rewrites_witness :
  let old := inStore "standard-backend-development-spring-boot-active.md" in
  let new := inStore "standard-backend-development-spring-boot-deprecated.md" in
  let moved := renamed (files oneDocumentWorld) old new (storedFile "---body") in
  fst (Storage.updateStandard (canonicalDir storeSegments) storeCwd parseSample
         serializeSample validateSample (js "2024-06-01T00:00:00.000Z")
         (js "standards/standard-backend-development-spring-boot-active.md")
         deprecate oneDocumentWorld)
  = Ok {| metadata := deprecatedMetadata; content := js "body";
          path := js "standard-backend-development-spring-boot-deprecated.md" |} /\
  moved !! old = None /\ moved !! new = Some (storedFile "---body").
Proof.
  intros old new moved.
  destruct (updateStandard_renames_then_rewrites storeSegments storeCwd parseSample
              serializeSample validateSample (js "2024-06-01T00:00:00.000Z")
              oneDocumentWorld
              (js "standards/standard-backend-development-spring-boot-active.md")
              deprecate (storedFile "---body") sampleMetadata (js "body")
              deprecatedMetadata) as (_ & Hrename & _).
  - apply (bool_decide_unpack _). by vm_compute.
  - apply (bool_decide_unpack _). by vm_compute.
  - by vm_compute.
  - reflexivity.
  - reflexivity.
  - reflexivity.
  - apply (bool_decide_unpack _). by vm_compute.
  - destruct Hrename as (Hrun & Hold & Hnew & _).
    + vm_compute. discriminate.
    + by vm_compute.
    + split; [|split].
      * rewrite Hrun. reflexivity.
      * exact Hold.
      * exact Hnew.
Defined.

(** One malformed file among three: the refresh completes, the snapshot
    counts two documents and the console names the malformed file. *)
Lemma refresh_with_one_malformed_file :
  let outcome := Indexer.refresh (canonicalDir storeSegments) storeCwd parseSample
                   globSample (js "2024-06-01T00:00:00.000Z")
                   Indexer.emptyIndex threeFileWorld in
  (Indexer.getCount <$> match fst outcome with Ok idx => Some idx | Throw _ => None end)
    = Some 2 /\
  console (snd outcome) = [(js "b.md", FileReadError MalformedDocument)].
Proof.
  intros outcome. subst outcome.
  destruct (readAll_skips_unreadable_and_malformed (canonicalDir storeSegments) storeCwd
              parseSample globSample (js "2024-06-01T00:00:00.000Z")
              threeFileWorld Indexer.emptyIndex) as (_ & Hrefresh & _).
  rewrite Hrefresh. split; by vm_compute.
Defined.

(** C3.  An update through a path with two store-directory segments.
    The store holds [standards/foo.md], in a sub-directory, and another
    document [foo.md].  The update of [standards/standards/foo.md] reads
    the first; it then normalizes the path of the document it read once
    more, so the file it renames and rewrites is that of the other
    document: the document it read stays where it was, unchanged, and the
    other document is gone.  Without the other document the rename fails
    and the update throws the bare error of [fs.rename]. *)
Theorem updateStandard_renames_a_file_it_did_not_read :
  let update :=
    Storage.updateStandard (canonicalDir storeSegments) storeCwd parseSample
      serializeSample validateSample (js "2024-06-01T00:00:00.000Z")
      (js "standards/standards/foo.md") deprecate in
  let updated :=
    {| metadata := deprecatedMetadata; content := js "nested";
       path := js "standard-backend-development-foo-deprecated.md" |} in
  fst (Storage.readStandard (canonicalDir storeSegments) storeCwd parseSample
         (js "standards/standards/foo.md") nestedWorld)
  = Ok {| metadata := sampleMetadata; content := js "nested";
          path := js "standards/foo.md" |} /\
  fst (update nestedWorld) = Ok updated /\
  files (snd (update nestedWorld)) !! inStore "standards/foo.md"
  = Some (storedFile "---nested") /\
  files (snd (update nestedWorld)) !! inStore "foo.md" = None /\
  files (snd (update nestedWorld))
    !! inStore "standard-backend-development-foo-deprecated.md"
  = Some {| data := serializeSample updated; readable := true |} /\
  update nestedOnlyWorld = (Throw (ErrnoException ENOENT), nestedOnlyWorld).
Proof. repeat split; by vm_compute. Qed.

(** C8.  A store whose root holds a file named [standards\a.md] beside
    [a.md], both readable and well formed.  Both names are enumerated;
    [readStandard] strips the leading [standards\] of the first as if it
    were a store-directory segment, so [readAllStandards] reads [a.md]
    for both: it returns the document of [a.md] twice, never the
    document of the other file, and logs nothing. *)
Theorem readAll_reads_another_file_for_a_backslash_name :
  let outcome :=
    Storage.readAllStandards (canonicalDir storeSegments) storeCwd parseSample
      globBackslash backslashWorld in
  let second := {| metadata := sampleMetadata; content := js "second";
                   path := js "a.md" |} in
  enumerated (canonicalDir storeSegments) storeCwd globBackslash (files backslashWorld)
  = [js "standards\a.md"; js "a.md"] /\
  files backslashWorld !! inStore "standards\a.md" = Some (storedFile "---first") /\
  parseSample (js "---first") = Some (sampleMetadata, js "first") /\
  fst outcome = Ok [second; second] /\
  snd outcome = backslashWorld.
Proof. repeat split; by vm_compute. Qed.

End StoreExamples.

(** ** Kebab-case strings and the derivation of file names *)
Section KebabFacts.
Import JS Storage.

Lemma lowerAlnum_lower c : isLowerAlnum c = true -> lower_char c = c.
Proof. destruct c as [[] [] [] [] [] [] [] []]; vm_compute; intros; congruence. Qed.

Lemma hyphen_not_alnum : isLowerAlnum "-" = false.
Proof. done. Qed.

Lemma endsInHyphen_cons b c l :
  endsInHyphen b (c :: l) = endsInHyphen (bool_decide (c = "-"%char)) l.
Proof.
  unfold endsInHyphen. destruct l as [|d l]; [reflexivity|].
  change (last (c :: d :: l)) with (last (d :: l)).
  destruct (last (d :: l)) eqn:E; [done|]. by apply last_None in E.
Qed.

Lemma hyphenated_app b l k :
  hyphenated b (l ++ k) = hyphenated b l && hyphenated (endsInHyphen b l) k.
Proof.
  revert b. induction l as [|c l IH]; intros b; [done|].
  cbn [app hyphenated]. rewrite endsInHyphen_cons, !IH.
  destruct (bool_decide (c = "-"%char)); by rewrite andb_assoc.
Qed.

Lemma hyphenated_lower b s : hyphenated b s = true -> toLowerCase s = s.
Proof.
  revert b. induction s as [|c s IH]; intros b; [done|]. cbn [hyphenated toLowerCase map].
  case_bool_decide as Hc.
  - subst c. intros [_ H]%andb_true_iff. f_equal. by apply (IH true).
  - intros [Ha H]%andb_true_iff. f_equal; [by apply lowerAlnum_lower | by apply (IH false)].
Qed.

Lemma hyphenated_replace b inRun s :
  hyphenated b s = true -> (inRun = true -> b = true) ->
  replaceNonAlnumRuns inRun s = s.
Proof.
  revert b inRun. induction s as [|c s IH]; intros b inRun; [done|].
  cbn [hyphenated replaceNonAlnumRuns]. case_bool_decide as Hc.
  - subst c. intros [Hb H]%andb_true_iff Hrun. rewrite hyphen_not_alnum.
    destruct inRun; [by rewrite Hrun in Hb|]. f_equal. by apply (IH true).
  - intros [Ha H]%andb_true_iff _. rewrite Ha. f_equal. by apply (IH false).
Qed.

Lemma hyphenated_collapse b inRun s :
  hyphenated b s = true -> (inRun = true -> b = true) ->
  collapseHyphens inRun s = s.
Proof.
  revert b inRun. induction s as [|c s IH]; intros b inRun; [done|].
  cbn [hyphenated collapseHyphens]. case_bool_decide as Hc.
  - subst c. intros [Hb H]%andb_true_iff Hrun.
    destruct inRun; [by rewrite Hrun in Hb|]. f_equal. by apply (IH true).
  - intros [Ha H]%andb_true_iff _. f_equal. by apply (IH false).
Qed.

Lemma replace_hyphenated inRun s : hyphenated inRun (replaceNonAlnumRuns inRun s) = true.
Proof.
  revert inRun. induction s as [|c s IH]; intros inRun; [done|].
  cbn [replaceNonAlnumRuns]. destruct (isLowerAlnum c) eqn:Ea.
  - cbn [hyphenated]. rewrite bool_decide_eq_false_2, Ea, IH; [done|].
    intros ->. by rewrite hyphen_not_alnum in Ea.
  - destruct inRun; [apply IH|]. cbn [hyphenated].
    by rewrite bool_decide_eq_true_2, IH.
Qed.

Lemma kebab_nonempty s : kebab s -> s <> [].
Proof. by intros [_ H] ->. Qed.

Lemma kebab_head s : kebab s -> exists c r, s = c :: r /\ c <> "-"%char.
Proof.
  intros [Hh He]. destruct s as [|c r]; [done|]. exists c, r. split; [done|].
  intros ->. cbn [hyphenated] in Hh. by rewrite bool_decide_eq_true_2 in Hh.
Qed.

Lemma kebab_last s : kebab s -> exists r c, s = r ++ [c] /\ c <> "-"%char.
Proof.
  intros Hk. pose proof (kebab_nonempty s Hk) as Hne. destruct Hk as [_ He].
  destruct (exists_last Hne) as (r & c & ->). exists r, c. split; [done|].
  unfold endsInHyphen in He. rewrite last_snoc in He. by apply bool_decide_eq_false_1 in He.
Qed.

Lemma kebab_trim s : kebab s -> trimHyphens s = s.
Proof.
  intros Hk. destruct (kebab_head s Hk) as (c & r & -> & Hc).
  destruct (kebab_last _ Hk) as (r' & c' & Hs & Hc').
  unfold trimHyphens. rewrite (bool_decide_eq_false_2 _ Hc).
  rewrite Hs, rev_unit. by rewrite (bool_decide_eq_false_2 _ Hc').
Qed.

(** A kebab-case string is a fixed point of the sanitizing pipeline. *)
Lemma kebab_sanitize_fixed s :
  kebab s ->
  trimHyphens (collapseHyphens false (replaceNonAlnumRuns false (toLowerCase s))) = s.
Proof.
  intros Hk. pose proof Hk as [Hh _].
  rewrite (hyphenated_lower true s Hh).
  rewrite (hyphenated_replace true false s Hh) by done.
  rewrite (hyphenated_collapse true false s Hh) by done.
  by apply kebab_trim.
Qed.

Lemma kebab_join a b : kebab a -> kebab b -> kebab (a ++ "-"%char :: b).
Proof.
  intros [Ha Hae] Hb. destruct (kebab_head b Hb) as (c & r & -> & Hc).
  destruct Hb as [Hb Hbe]. split.
  - rewrite hyphenated_app, Ha, Hae. cbn [hyphenated andb negb] in *.
    rewrite bool_decide_eq_true_2 by done. by rewrite bool_decide_eq_false_2 in * by done.
  - unfold endsInHyphen in *.
    change (a ++ "-"%char :: c :: r) with (a ++ ["-"%char] ++ (c :: r)).
    by rewrite app_assoc, last_app_cons.
Qed.

(** What remains of a kebab-case string after a kebab-case word and its
    hyphen are removed from the front. *)
Lemma kebab_strip_prefix a r : kebab (a ++ "-"%char :: r) -> kebab r.
Proof.
  intros [Hh He]. rewrite hyphenated_app in Hh.
  apply andb_true_iff in Hh as [_ Hh]. cbn [hyphenated] in Hh.
  rewrite bool_decide_eq_true_2 in Hh by done.
  apply andb_true_iff in Hh as [_ Hh]. split; [done|].
  unfold endsInHyphen in *. destruct r as [|c r].
  - by rewrite last_snoc, bool_decide_eq_true_2 in He.
  - change (a ++ "-"%char :: c :: r) with (a ++ ["-"%char] ++ (c :: r)) in He.
    by rewrite app_assoc, last_app_cons in He.
Qed.

(** What remains after a hyphen and a word are removed from the back. *)
Lemma kebab_strip_suffix a b : kebab (a ++ "-"%char :: b) -> kebab a.
Proof.
  intros [Hh _]. rewrite hyphenated_app in Hh.
  apply andb_true_iff in Hh as [Ha Hh]. cbn [hyphenated] in Hh.
  rewrite bool_decide_eq_true_2 in Hh by done.
  apply andb_true_iff in Hh as [He _]. split; [done|].
  by apply negb_true_iff in He.
Qed.

(** The sanitizing pipeline yields the empty string or kebab case. *)
Lemma sanitize_kebab x :
  let t := trimHyphens (collapseHyphens false (replaceNonAlnumRuns false x)) in
  t = [] \/ kebab t.
Proof.
  intros t. subst t. set (y := replaceNonAlnumRuns false x).
  assert (Hy : hyphenated false y = true) by apply replace_hyphenated.
  rewrite (hyphenated_collapse false false y Hy) by done.
  unfold trimHyphens.
  set (s1 := match y with | [] => y | c :: r => if bool_decide (c = "-"%char) then r else y end).
  assert (H1 : hyphenated true s1 = true).
  { subst s1. destruct y as [|c r]; [done|]. cbn [hyphenated] in Hy.
    case_bool_decide as Hc.
    - by apply andb_true_iff in Hy as [_ ?].
    - cbn [hyphenated]. by rewrite bool_decide_eq_false_2. }
  destruct (rev s1) as [|c r] eqn:E.
  - left. apply (f_equal (@rev _)) in E. by rewrite rev_involutive in E.
  - assert (Hs : s1 = rev r ++ [c]).
    { apply (f_equal (@rev _)) in E. by rewrite rev_involutive in E. }
    case_bool_decide as Hc.
    + subst c. rewrite Hs, hyphenated_app in H1. apply andb_true_iff in H1 as [Hr Hl].
      cbn [hyphenated] in Hl. rewrite bool_decide_eq_true_2 in Hl by done.
      apply andb_true_iff in Hl as [Hl _]. apply negb_true_iff in Hl.
      destruct (rev r) as [|d r'] eqn:Er; [by left|]. right. by split.
    + right. split; [done|]. unfold endsInHyphen. rewrite Hs, last_snoc.
      by apply bool_decide_eq_false_2.
Qed.

End KebabFacts.

(** ** Re-deriving a derived file name *)
Section DerivationFacts.
Import JS Storage.

Lemma endsWith_app a b : endsWith (a ++ b) b = true.
Proof.
  unfold endsWith. rewrite length_app. apply andb_true_iff. split.
  - apply Nat.leb_le. lia.
  - apply bool_decide_eq_true_2. by rewrite drop_app_length' by lia.
Qed.

Lemma endsWith_split s q :
  endsWith s q = true -> s = take (length s - length q) s ++ q /\ length q <= length s.
Proof.
  unfold endsWith. intros [Hl Hq]%andb_true_iff.
  apply Nat.leb_le in Hl. apply bool_decide_eq_true_1 in Hq. split; [|done].
  rewrite <- Hq at 2. by rewrite take_drop.
Qed.

Lemma startsWith_split s q :
  startsWith s q = true -> s = q ++ drop (length q) s.
Proof.
  intros [k ->]%startsWith_prefix. by rewrite drop_app_length.
Qed.

Lemma strip_extension t :
  (if endsWith (t ++ MARKDOWN_EXTENSION) MARKDOWN_EXTENSION
   then slice (t ++ MARKDOWN_EXTENSION) 0 (- Z.of_nat (length MARKDOWN_EXTENSION))
   else t ++ MARKDOWN_EXTENSION) = t.
Proof.
  rewrite endsWith_app, slice_drop_last.
  - rewrite length_app, Nat.add_sub. by rewrite take_app_length.
  - rewrite length_app. simpl. lia.
Qed.

Lemma sanitizeFilename_shape filename :
  exists t, sanitizeFilename filename = t ++ MARKDOWN_EXTENSION /\ (t = [] \/ kebab t).
Proof.
  unfold sanitizeFilename. eexists. split; [reflexivity|]. apply sanitize_kebab.
Qed.

Lemma sanitizedTitle_kebab m filename :
  sanitizedTitle m filename = [] \/ kebab (sanitizedTitle m filename).
Proof.
  unfold sanitizedTitle.
  assert (Hshape : exists t,
            match filename with
            | Some (c :: f) => sanitizeFilename (c :: f)
            | _ => generateDefaultFilename m
            end = t ++ MARKDOWN_EXTENSION /\ (t = [] \/ kebab t)).
  { unfold generateDefaultFilename.
    destruct filename as [[|c f]|]; [| apply sanitizeFilename_shape |];
      (destruct (tags m); [destruct (tier m)|]; apply sanitizeFilename_shape). }
  destruct Hshape as (t & -> & Ht). cbv zeta. by rewrite strip_extension.
Qed.

Lemma hyphenated_sepFree b s : hyphenated b s = true -> sepFree s.
Proof.
  revert b. induction s as [|c s IH]; intros b; [constructor|]. cbn [hyphenated].
  case_bool_decide as Hc.
  - subst c. intros [_ H]%andb_true_iff. constructor; [done | by apply (IH true)].
  - intros [Ha H]%andb_true_iff.
    constructor; [by apply lowerAlnum_not_sep | by apply (IH false)].
Qed.

Lemma basename_without_slash s : "/"%char ∉ s -> Path.basename s = s.
Proof.
  intros Hs. unfold Path.basename.
  assert (Hr : "/"%char ∉ rev s).
  { intros Hin. apply Hs. apply list_elem_of_In, in_rev. by apply list_elem_of_In. }
  assert (Hd : Path.dropTrailingSlashes (rev s) = rev s).
  { destruct (rev s) as [|c r]; [done|]. simpl.
    rewrite bool_decide_eq_false_2; [done|]. intros ->. apply Hr, list_elem_of_here. }
  rewrite Hd. clear Hd.
  assert (Ht : forall r, "/"%char ∉ r -> Path.takeUntilSlash r = r).
  { induction r as [|c r IH]; intros Hn; [done|]. simpl.
    apply not_elem_of_cons in Hn as [Hc Hn].
    rewrite bool_decide_eq_false_2 by done. by rewrite IH. }
  by rewrite Ht, rev_involutive.
Qed.

Lemma sepFree_no_slash s : sepFree s -> "/"%char ∉ s.
Proof.
  intros Hs Hin. unfold sepFree in Hs. rewrite Forall_forall in Hs. by apply Hs in Hin.
Qed.

Lemma stem_kebab m title :
  kebabMetadata m -> kebab title ->
  kebab ((prefixWord m ++ js "-") ++ title ++ (js "-" ++ toLowerCase (status m))).
Proof.
  intros [Hp Hs] Ht.
  replace ((prefixWord m ++ js "-") ++ title ++ js "-" ++ toLowerCase (status m))
    with (prefixWord m ++ "-"%char :: (title ++ "-"%char :: toLowerCase (status m)))
    by (by rewrite <- app_assoc).
  by repeat apply kebab_join.
Qed.

(** A derived name with a kebab-case title is a fixed point of the
    sanitizer. *)
Lemma sanitizeFilename_derived m title :
  kebabMetadata m -> kebab title ->
  sanitizeFilename (nameWith m title) = nameWith m title.
Proof.
  intros Hm Ht. pose proof (stem_kebab m title Hm Ht) as Hstem.
  set (stem := (prefixWord m ++ js "-") ++ title ++ (js "-" ++ toLowerCase (status m))) in *.
  assert (Hname : nameWith m title = stem ++ MARKDOWN_EXTENSION).
  { unfold nameWith, stem. by rewrite <- !app_assoc. }
  assert (Hfree : sepFree (nameWith m title)).
  { rewrite Hname. apply sepFree_app; [|by repeat constructor].
    by apply (hyphenated_sepFree true), Hstem. }
  unfold sanitizeFilename.
  rewrite (proj2 (stripStandardsPrefix_fixed _)) by (by apply sepFree_no_prefix).
  rewrite basename_without_slash by (by apply sepFree_no_slash).
  rewrite Hname.
  assert (Hlow : toLowerCase (stem ++ MARKDOWN_EXTENSION) = stem ++ MARKDOWN_EXTENSION).
  { unfold toLowerCase. rewrite map_app. fold (toLowerCase stem).
    by rewrite (hyphenated_lower true stem) by apply Hstem. }
  rewrite Hlow, strip_extension. by rewrite kebab_sanitize_fixed.
Qed.

(** [generateFilePath] in terms of the sanitized title. *)
Lemma generateFilePath_by_title m filename :
  generateFilePath m filename =
  let pre := prefixWord m ++ js "-" in
  let suf := js "-" ++ toLowerCase (status m) in
  let t := toLowerCase (sanitizedTitle m filename) in
  let t1 := if startsWith t pre then sliceFrom t (Z.of_nat (length pre)) else t in
  let t2 := if endsWith t1 suf then slice t1 0 (- Z.of_nat (length suf)) else t1 in
  pre ++ t2 ++ suf ++ MARKDOWN_EXTENSION.
Proof. reflexivity. Qed.

Lemma sanitizedTitle_derived m title :
  kebabMetadata m -> kebab title ->
  sanitizedTitle m (Some (nameWith m title))
  = (prefixWord m ++ js "-") ++ title ++ (js "-" ++ toLowerCase (status m)).
Proof.
  intros Hm Ht. unfold sanitizedTitle.
  destruct (nameWith m title) as [|c f] eqn:E.
  { destruct Hm as [Hp _]. destruct (kebab_head _ Hp) as (c & r & Hc & _).
    unfold nameWith in E. by rewrite Hc in E. }
  rewrite <- E. cbv zeta. rewrite sanitizeFilename_derived by done.
  replace (nameWith m title)
    with (((prefixWord m ++ js "-") ++ title ++ (js "-" ++ toLowerCase (status m)))
          ++ MARKDOWN_EXTENSION)
    by (unfold nameWith; by rewrite <- !app_assoc).
  apply strip_extension.
Qed.

(** Deriving from a derived name gives the same name. *)
Lemma generateFilePath_derived m title :
  kebabMetadata m -> kebab title ->
  generateFilePath m (Some (nameWith m title)) = nameWith m title.
Proof.
  intros Hm Ht. pose proof (stem_kebab m title Hm Ht) as Hstem.
  rewrite generateFilePath_by_title. cbv zeta.
  rewrite sanitizedTitle_derived by done.
  rewrite (hyphenated_lower true _ (proj1 Hstem)).
  rewrite startsWith_app. rewrite sliceFrom_drop, drop_app_length.
  rewrite endsWith_app. rewrite slice_drop_last.
  2: { rewrite !length_app. simpl. lia. }
  rewrite length_app, Nat.add_sub, take_app_length. done.
Qed.

(** The first derivation yields a name of that shape, unless the title
    sanitizes to the empty string. *)
Lemma generateFilePath_shape m filename :
  kebabMetadata m -> sanitizedTitle m filename <> [] ->
  exists title, kebab title /\ generateFilePath m filename = nameWith m title.
Proof.
  intros Hm Hne. pose proof Hm as [Hp Hs].
  destruct (sanitizedTitle_kebab m filename) as [|Hk]; [done|].
  rewrite generateFilePath_by_title. cbv zeta.
  set (t := sanitizedTitle m filename) in *.
  rewrite (hyphenated_lower true t) by apply Hk.
  set (pre := prefixWord m ++ js "-"). set (suf := js "-" ++ toLowerCase (status m)).
  set (t1 := if startsWith t pre then sliceFrom t (Z.of_nat (length pre)) else t).
  assert (H1 : kebab t1).
  { subst t1. destruct (startsWith t pre) eqn:E; [|done].
    rewrite sliceFrom_drop. apply startsWith_split in E.
    apply (kebab_strip_prefix (prefixWord m)). rewrite E in Hk.
    unfold pre in Hk at 1. by rewrite <- app_assoc in Hk. }
  set (t2 := if endsWith t1 suf then slice t1 0 (- Z.of_nat (length suf)) else t1).
  assert (H2 : kebab t2).
  { subst t2. destruct (endsWith t1 suf) eqn:E; [|done].
    apply endsWith_split in E as [E Hl]. rewrite slice_drop_last.
    2: { unfold suf in *. simpl in *. lia. }
    apply (kebab_strip_suffix _ (toLowerCase (status m))). by rewrite E in H1. }
  exists t2. split; [done|]. unfold nameWith. done.
Qed.

(** Idempotence of the derivation, wherever the title does not sanitize
    to the empty string. *)
Theorem generateFilePath_idempotent_on_nonempty_title
    (m : StandardMetadata) (filename : option jstring) :
  kebabMetadata m -> sanitizedTitle m filename <> [] ->
  generateFilePath m (Some (generateFilePath m filename)) = generateFilePath m filename.
Proof.
  intros Hm Hne. destruct (generateFilePath_shape m filename Hm Hne) as (title & Ht & ->).
  by apply generateFilePath_derived.
Qed.

Lemma generateFilePath_idempotent_on_nonempty_title_example :
  generateFilePath sampleMetadata
    (Some (generateFilePath sampleMetadata (Some (js "Spring Boot_Security.MD"))))
  = generateFilePath sampleMetadata (Some (js "Spring Boot_Security.MD")).
Proof.
  apply generateFilePath_idempotent_on_nonempty_title.
  - apply (bool_decide_unpack _). by vm_compute.
  - by vm_compute.
Defined.

End DerivationFacts.

(** ** Valid metadata *)
Section ValidMetadata.
Import JS Storage.

Ltac choose_value H :=
  repeat (apply elem_of_cons in H as [H|H]);
  [rewrite H; clear H .. | by apply elem_of_nil in H].

Lemma validMetadata_kebab m : validMetadata m -> kebabMetadata m.
Proof.
  intros (Hty & Hti & Hpr & Hst & _). unfold kebabMetadata, prefixWord.
  choose_value Hty; choose_value Hti; choose_value Hpr; choose_value Hst;
    (split; apply (bool_decide_unpack _); vm_compute; exact I).
Qed.

(** X7.  For valid metadata the derivation is idempotent on every slug
    whose sanitized title is not empty: deriving a name from a derived
    name gives the same name, with prefix and suffix once. *)
Corollary generateFilePath_idempotent_for_valid_metadata
    (m : StandardMetadata) (filename : option jstring) :
  validMetadata m -> sanitizedTitle m filename <> [] ->
  generateFilePath m (Some (generateFilePath m filename)) = generateFilePath m filename.
Proof.
  intros Hm. apply generateFilePath_idempotent_on_nonempty_title.
  by apply validMetadata_kebab.
Qed.

Lemma generateFilePath_idempotent_for_valid_metadata_witness :
  let m := techStackMetadata in
  let filename := Some (js "standards/Spring Boot.md") in
  validMetadata m /\ sanitizedTitle m filename <> [] /\
  generateFilePath m filename = js "tech-stack-backend-development-spring-boot-active.md" /\
  generateFilePath m (Some (generateFilePath m filename)) = generateFilePath m filename.
Proof.
  intros m filename.
  assert (Hv : validMetadata m) by (apply (bool_decide_unpack _); by vm_compute).
  assert (Hne : sanitizedTitle m filename <> []) by (apply (bool_decide_unpack _); by vm_compute).
  split; [done|]. split; [done|]. split; [done|].
  exact (generateFilePath_idempotent_for_valid_metadata m filename Hv Hne).
Defined.

End ValidMetadata.

(* ===================================================================== *)
(** * Part IV: further properties of the services                         *)
(* ===================================================================== *)

(** ** Sanitized and derived file names *)
Section NamingProperties.
Import JS Storage.

Lemma lower_char_idempotent c : lower_char (lower_char c) = lower_char c.
Proof. destruct c as [[] [] [] [] [] [] [] []]; vm_compute; reflexivity. Qed.

Lemma toLowerCase_idempotent s : toLowerCase (toLowerCase s) = toLowerCase s.
Proof.
  unfold toLowerCase. rewrite map_map. apply map_ext. intros c. apply lower_char_idempotent.
Qed.

Lemma toLowerCase_app a b : toLowerCase (a ++ b) = toLowerCase a ++ toLowerCase b.
Proof. apply map_app. Qed.

Lemma toLowerCase_slice s i j : toLowerCase (slice s i j) = slice (toLowerCase s) i j.
Proof.
  unfold slice, toLowerCase. rewrite length_map.
  by rewrite <- firstn_map, <- skipn_map.
Qed.

Lemma toLowerCase_join l :
  toLowerCase (JS.join (js "-") l) = JS.join (js "-") (map toLowerCase l).
Proof.
  induction l as [|x l IH]; [done|]. destruct l as [|y l]; [done|].
  rewrite join_cons_cons, !toLowerCase_app, IH. done.
Qed.

Lemma hyphenated_chars b s :
  hyphenated b s = true -> Forall (fun c => isLowerAlnum c = true \/ c = "-"%char) s.
Proof.
  revert b. induction s as [|c s IH]; intros b; [constructor|].
  cbn [hyphenated]. case_bool_decide as Hc.
  - intros [_ H]%andb_true_iff. constructor; [by right | by apply (IH true)].
  - intros [Ha H]%andb_true_iff. constructor; [by left | by apply (IH false)].
Qed.

(** The sanitizer leaves a kebab-case stem with the extension alone. *)
Lemma sanitizeFilename_kebab_stem stem :
  kebab stem -> sanitizeFilename (stem ++ MARKDOWN_EXTENSION) = stem ++ MARKDOWN_EXTENSION.
Proof.
  intros Hk.
  assert (Hfree : sepFree (stem ++ MARKDOWN_EXTENSION)).
  { apply sepFree_app; [|by repeat constructor]. by apply (hyphenated_sepFree true), Hk. }
  unfold sanitizeFilename.
  rewrite (proj2 (stripStandardsPrefix_fixed _)) by (by apply sepFree_no_prefix).
  rewrite basename_without_slash by (by apply sepFree_no_slash).
  assert (Hlow : toLowerCase (stem ++ MARKDOWN_EXTENSION) = stem ++ MARKDOWN_EXTENSION).
  { rewrite toLowerCase_app. by rewrite (hyphenated_lower true stem) by apply Hk. }
  rewrite Hlow, strip_extension. by rewrite kebab_sanitize_fixed.
Qed.

(** X1.  Sanitizing is idempotent: a sanitized file name is sanitized to
    itself, whatever the name it came from. *)
Theorem sanitizeFilename_idempotent (filename : jstring) :
  sanitizeFilename (sanitizeFilename filename) = sanitizeFilename filename.
Proof.
  destruct (sanitizeFilename_shape filename) as (t & -> & [->|Hk]).
  - by vm_compute.
  - by apply sanitizeFilename_kebab_stem.
Qed.

(** X2.  Whatever the input, the sanitizer returns a stem followed by the
    markdown extension; the stem is empty or kebab case (lower-case
    alphanumeric words joined by single hyphens), so the result never
    contains a path separator. *)
Theorem sanitizeFilename_yields_kebab_stem (filename : jstring) :
  exists stem,
    sanitizeFilename filename = stem ++ MARKDOWN_EXTENSION /\
    (stem = [] \/ kebab stem) /\
    Forall (fun c => isLowerAlnum c = true \/ c = "-"%char) stem /\
    sepFree (sanitizeFilename filename).
Proof.
  destruct (sanitizeFilename_shape filename) as (t & Ht & Hk).
  exists t. split; [done|]. split; [done|]. split; [|apply sepFree_sanitizeFilename].
  destruct Hk as [->|[Hh _]]; [constructor|]. by apply (hyphenated_chars true).
Qed.

Lemma kebab_no_dot s : kebab s -> "."%char ∉ s.
Proof.
  intros [Hh _] Hin. apply hyphenated_chars in Hh.
  rewrite Forall_forall in Hh. by destruct (Hh _ Hin).
Qed.

Lemma endsWith_elem s q c : endsWith s q = true -> c ∈ q -> c ∈ s.
Proof.
  intros [-> _]%endsWith_split Hc. rewrite elem_of_app. by right.
Qed.

Lemma kebab_lower s : kebab s -> toLowerCase s = s.
Proof. intros [Hh _]. by apply (hyphenated_lower true). Qed.

Lemma kebab_sepFree s : kebab s -> sepFree s.
Proof. intros [Hh _]. by apply (hyphenated_sepFree true). Qed.

(** The sanitizer appends the extension to a kebab-case title. *)
Lemma sanitizeFilename_kebab t :
  kebab t -> sanitizeFilename t = t ++ MARKDOWN_EXTENSION.
Proof.
  intros Hk. pose proof (kebab_sepFree _ Hk) as Hfree. unfold sanitizeFilename.
  rewrite (proj2 (stripStandardsPrefix_fixed _)) by (by apply sepFree_no_prefix).
  rewrite basename_without_slash by (by apply sepFree_no_slash).
  rewrite (kebab_lower _ Hk).
  destruct (endsWith t MARKDOWN_EXTENSION) eqn:He.
  - exfalso. apply (kebab_no_dot _ Hk), (endsWith_elem _ _ _ He). by left.
  - by rewrite kebab_sanitize_fixed.
Qed.

(** A kebab-case title that neither starts with the prefix nor ends with
    the suffix is placed between them as it is. *)
Lemma generateFilePath_fresh_title m t :
  kebab t -> freshTitle m t -> generateFilePath m (Some t) = nameWith m t.
Proof.
  intros Hk [Hp Hs]. rewrite generateFilePath_by_title. cbv zeta.
  assert (Ht : sanitizedTitle m (Some t) = t).
  { unfold sanitizedTitle. destruct t as [|c t]; [by destruct Hk|].
    rewrite (sanitizeFilename_kebab _ Hk). apply strip_extension. }
  rewrite Ht, (kebab_lower _ Hk), Hp, Hs. unfold nameWith. by rewrite <- !app_assoc.
Qed.

Lemma afterLastDot_None s : "."%char ∉ s -> afterLastDot s = None.
Proof.
  induction s as [|c s IH]; [done|]. rewrite not_elem_of_cons. intros [Hc Hs].
  cbn [afterLastDot]. rewrite IH by done. by rewrite bool_decide_eq_false_2.
Qed.

Lemma afterLastDot_app s ext k :
  afterLastDot ext = Some k -> afterLastDot (s ++ ext) = Some (length s + k).
Proof.
  intros He. induction s as [|c s IH]; [done|]. cbn [app afterLastDot length]. by rewrite IH.
Qed.

Lemma stripLastExtension_md stem :
  "."%char ∉ stem -> stripLastExtension (stem ++ MARKDOWN_EXTENSION) = stem.
Proof.
  intros Hd. unfold stripLastExtension.
  rewrite (afterLastDot_app stem MARKDOWN_EXTENSION 1) by done.
  rewrite length_app. change (length MARKDOWN_EXTENSION) with 3.
  replace (length stem + 1 <? length stem + 3) with true by (symmetry; apply Nat.ltb_lt; lia).
  replace (length stem + 1 - 1) with (length stem) by lia. by rewrite take_app_length.
Qed.

Lemma join_split sep s : JS.join [sep] (split sep s) = s.
Proof.
  induction s as [|c s IH]; [done|]. cbn [split].
  pose proof (split_nonempty sep s) as Hne.
  destruct (split sep s) as [|w ws] eqn:E; [done|]. case_bool_decide as Hc.
  - subst c. rewrite join_cons_cons, IH. done.
  - destruct ws as [|w' ws]; [by simpl in *; subst|].
    rewrite join_cons_cons in *. simpl. by rewrite <- IH.
Qed.

Lemma split_free sep s : Forall (fun w => sep ∉ w) (split sep s).
Proof.
  induction s as [|c s IH]; [repeat constructor; by apply not_elem_of_nil|]. cbn [split].
  case_bool_decide as Hc.
  - constructor; [apply not_elem_of_nil | done].
  - destruct (split sep s) as [|w ws]; [repeat constructor|].
    + rewrite not_elem_of_cons. split; [congruence | apply not_elem_of_nil].
    + inversion_clear IH. constructor; [|done]. rewrite not_elem_of_cons. split; congruence.
Qed.

Lemma last_split_endsWith sep t w :
  last (split sep t) = Some w -> endsWith (sep :: t) (sep :: w) = true.
Proof.
  intros Hl. rewrite <- (join_split sep t) at 1.
  destruct (split sep t) as [|x l] using rev_ind; [done|]. clear IHl.
  rewrite last_snoc in Hl. injection Hl as ->.
  destruct l as [|y l].
  - simpl. apply (endsWith_app []).
  - rewrite join_snoc by done. 
    change (sep :: JS.join [sep] (y :: l) ++ [sep] ++ w)
      with ((sep :: JS.join [sep] (y :: l)) ++ (sep :: w)).
    apply endsWith_app.
Qed.

Lemma prefixWord_kebab_fields m :
  kebab (type m) -> kebab (tier m) -> kebab (process m) ->
  prefixWord m = type m ++ "-"%char :: tier m ++ "-"%char :: process m.
Proof.
  intros Ht Hi Hp. unfold prefixWord.
  pose proof (kebab_nonempty _ Ht). pose proof (kebab_nonempty _ Hi).
  pose proof (kebab_nonempty _ Hp).
  destruct (type m) as [|c1 r1] eqn:E1; [done|].
  destruct (tier m) as [|c2 r2] eqn:E2; [done|].
  destruct (process m) as [|c3 r3] eqn:E3; [done|].
  cbn [List.filter nonEmpty map]. rewrite !kebab_lower by done. done.
Qed.

Lemma singleWordMetadata_kebab m : singleWordMetadata m -> kebabMetadata m.
Proof.
  intros ([Ht _] & [Hi _] & [Hp _] & [Hs _]). split.
  - rewrite prefixWord_kebab_fields by done. by repeat apply kebab_join.
  - by rewrite kebab_lower.
Qed.

(** The hyphen-separated parts of a generated name: those of the type,
    the tier, the process, those of the title, the status. *)
Lemma split_nameWith m title :
  kebab (type m) -> singleWord (tier m) -> singleWord (process m) ->
  singleWord (status m) -> kebab title ->
  stripLastExtension (Path.basename (nameWith m title))
  = JS.join (js "-")
      (split "-" (type m) ++ [tier m; process m] ++ split "-" title ++ [status m]) /\
  split "-" (stripLastExtension (Path.basename (nameWith m title)))
  = split "-" (type m) ++ [tier m; process m] ++ split "-" title ++ [status m].
Proof.
  intros Ht [Hi Hi'] [Hp Hp'] [Hs Hs'] Hk.
  assert (Hm : kebabMetadata m).
  { split; [|by rewrite kebab_lower].
    rewrite prefixWord_kebab_fields by done. by repeat apply kebab_join. }
  pose proof (stem_kebab m title Hm Hk) as Hstem.
  assert (Hname : nameWith m title =
                  ((prefixWord m ++ js "-") ++ title ++ (js "-" ++ toLowerCase (status m)))
                  ++ MARKDOWN_EXTENSION).
  { unfold nameWith. by rewrite <- !app_assoc. }
  assert (Hparts :
    split "-" ((prefixWord m ++ js "-") ++ title ++ (js "-" ++ toLowerCase (status m)))
    = split "-" (type m) ++ [tier m; process m] ++ split "-" title ++ [status m]).
  { rewrite prefixWord_kebab_fields, (kebab_lower (status m)) by done.
    rewrite <- !app_assoc. cbn [app js list_ascii_of_string].
    rewrite !split_app_separator.
    by rewrite (split_without_separator _ (tier m)), (split_without_separator _ (process m)),
      (split_without_separator _ (status m)), <- !app_assoc by done. }
  rewrite Hname, basename_without_slash.
  2:{ apply sepFree_no_slash, sepFree_app; [by apply kebab_sepFree | by repeat constructor]. }
  rewrite stripLastExtension_md by (by apply kebab_no_dot). split; [|done].
  rewrite <- Hparts. change (js "-") with ["-"%char]. by rewrite join_split.
Qed.

(** X3.  A generated name is a fixed point of the sanitizer: for valid
    metadata and a file name whose sanitized title is not empty, the name
    [generateFilePath] returns is sanitized to itself. *)
Theorem generated_name_is_sanitized (m : StandardMetadata) (filename : option jstring) :
  validMetadata m -> sanitizedTitle m filename <> [] ->
  sanitizeFilename (generateFilePath m filename) = generateFilePath m filename.
Proof.
  intros Hv Hne. pose proof (validMetadata_kebab m Hv) as Hm.
  destruct (generateFilePath_shape m filename Hm Hne) as (title & Hk & ->).
  by apply sanitizeFilename_derived.
Qed.

Lemma generated_name_is_sanitized_witness :
  let m := sampleMetadata in
  let filename := Some (js "Spring Boot_Security.MD") in
  validMetadata m /\ sanitizedTitle m filename <> [] /\
  sanitizeFilename (generateFilePath m filename) = generateFilePath m filename.
Proof.
  intros m filename.
  assert (Hv : validMetadata m) by (apply (bool_decide_unpack _); by vm_compute).
  assert (Hne : sanitizedTitle m filename <> []) by (apply (bool_decide_unpack _); by vm_compute).
  split; [done|]. split; [done|]. exact (generated_name_is_sanitized m filename Hv Hne).
Defined.

(** X4.  An update keeps the title of a generated name.  When the stored
    document has single-word type, tier, process and status and its file
    name is the generated name of a kebab-case title, the name
    [updateStandard] derives for validated metadata is the generated name
    of the same title under the validated metadata, provided the title
    neither starts with the new prefix nor ends with the new suffix. *)
Theorem update_keeps_title_of_generated_name (m validated : StandardMetadata)
    (title : jstring) :
  singleWordMetadata m -> kebab title -> freshTitle validated title ->
  newFilenameFor (storedAs m (nameWith m title)) validated = nameWith validated title.
Proof.
  intros (Ht & Hi & Hp & Hs) Hk Hfresh. unfold newFilenameFor, storedAs. cbn [path metadata].
  destruct (split_nameWith m title (proj1 Ht) Hi Hp Hs Hk) as [_ Hparts].
  pose proof (extractTitleBase_cases
                (stripLastExtension (Path.basename (nameWith m title))) m) as Hcases.
  cbv zeta in Hcases. rewrite Hparts in Hcases.
  rewrite (split_without_separator _ (type m)) in Hcases by apply Ht.
  pose proof (split_nonempty "-" title) as Hne.
  destruct Hcases as (Hnew & _).
  { rewrite !length_app. simpl. destruct (split "-" title); [done | simpl; lia]. }
  rewrite Hnew.
  - rewrite !length_app. cbn [length].
    replace (1 + (2 + (length (split "-" title) + 1)) - 4)
      with (length (split "-" title)) by lia.
    change (drop 3 ([type m] ++ [tier m; process m] ++ split "-" title ++ [status m]))
      with (split "-" title ++ [status m]).
    rewrite take_app_length. change (js "-") with ["-"%char]. rewrite join_split.
    by apply generateFilePath_fresh_title.
  - rewrite !app_assoc. apply last_snoc.
Qed.

Lemma update_keeps_title_of_generated_name_witness :
  let m := sampleMetadata in
  let validated := deprecatedMetadata in
  let title := js "spring-boot-security" in
  singleWordMetadata m /\ kebab title /\ freshTitle validated title /\
  newFilenameFor (storedAs m (nameWith m title)) validated = nameWith validated title.
Proof.
  intros m validated title.
  assert (Hm : singleWordMetadata m) by (apply (bool_decide_unpack _); by vm_compute).
  assert (Hk : kebab title) by (apply (bool_decide_unpack _); by vm_compute).
  assert (Hf : freshTitle validated title) by (apply (bool_decide_unpack _); by vm_compute).
  split; [done|]. split; [done|]. split; [done|].
  exact (update_keeps_title_of_generated_name m validated title Hm Hk Hf).
Defined.

Lemma stem_of_kebab_name stem :
  kebab stem -> stripLastExtension (Path.basename (stem ++ MARKDOWN_EXTENSION)) = stem.
Proof.
  intros Hk. rewrite basename_without_slash.
  - by apply stripLastExtension_md, kebab_no_dot.
  - apply sepFree_no_slash, sepFree_app; [by apply kebab_sepFree | by repeat constructor].
Qed.

(** X5.  An update moves a name of the old layout to the new one.  When
    the stored document has single-word type, tier, process and status
    and its file name is type-tier-process-status-title.md for a
    kebab-case title whose last word is not the status, the name
    [updateStandard] derives is the generated name
    type-tier-process-title-status.md of that title under the validated
    metadata. *)
Theorem update_moves_old_layout_to_new (m validated : StandardMetadata)
    (title : jstring) :
  singleWordMetadata m -> kebab title ->
  endsWith (js "-" ++ title) (js "-" ++ status m) = false ->
  freshTitle validated title ->
  newFilenameFor (storedAs m (oldLayoutName m title)) validated = nameWith validated title.
Proof.
  intros (Ht & Hi & Hp & Hs) Hk Hlast Hfresh.
  unfold newFilenameFor, storedAs. cbn [path metadata].
  assert (Hname : oldLayoutName m title =
    (type m ++ "-"%char :: tier m ++ "-"%char :: process m ++ "-"%char :: status m
       ++ "-"%char :: title) ++ MARKDOWN_EXTENSION).
  { unfold oldLayoutName.
    rewrite prefixWord_kebab_fields, (kebab_lower (status m))
      by (apply Ht || apply Hi || apply Hp || apply Hs).
    by repeat (progress (rewrite <- ?app_assoc; cbn [js list_ascii_of_string app])). }
  rewrite Hname, stem_of_kebab_name.
  2:{ repeat apply kebab_join; (apply Ht || apply Hi || apply Hp || apply Hs || done). }
  pose proof (extractTitleBase_cases
    (type m ++ "-"%char :: tier m ++ "-"%char :: process m ++ "-"%char :: status m
       ++ "-"%char :: title) m) as Hcases.
  cbv zeta in Hcases. rewrite !split_app_separator in Hcases.
  rewrite (split_without_separator _ (type m)), (split_without_separator _ (tier m)),
    (split_without_separator _ (process m)), (split_without_separator _ (status m))
    in Hcases by (apply Ht || apply Hi || apply Hp || apply Hs).
  pose proof (split_nonempty "-" title) as Hne.
  destruct Hcases as (_ & Hold & _).
  { rewrite !length_app. simpl. destruct (split "-" title); [done | simpl; lia]. }
  rewrite Hold.
  - change (drop 4 ([type m] ++ [tier m] ++ [process m] ++ [status m] ++ split "-" title))
      with (split "-" title).
    change (js "-") with ["-"%char]. rewrite join_split.
    by apply generateFilePath_fresh_title.
  - intros Hl.
    assert (Hl' : last (split "-" title) = Some (status m)).
    { destruct (split "-" title) as [|w ws]; [done|].
      change ([type m] ++ [tier m] ++ [process m] ++ [status m] ++ w :: ws)
        with ([type m; tier m; process m; status m] ++ w :: ws) in Hl.
      by rewrite last_app_cons in Hl. }
    apply last_split_endsWith in Hl'. cbn [js list_ascii_of_string app] in Hlast. congruence.
  - done.
Qed.

Lemma update_moves_old_layout_to_new_witness :
  let m := sampleMetadata in
  let validated := sampleMetadata in
  let title := js "spring-boot" in
  singleWordMetadata m /\ kebab title /\
  endsWith (js "-" ++ title) (js "-" ++ status m) = false /\
  freshTitle validated title /\
  oldLayoutName m title = js "standard-backend-development-active-spring-boot.md" /\
  newFilenameFor (storedAs m (oldLayoutName m title)) validated
  = js "standard-backend-development-spring-boot-active.md".
Proof.
  intros m validated title.
  assert (Hm : singleWordMetadata m) by (apply (bool_decide_unpack _); by vm_compute).
  assert (Hk : kebab title) by (apply (bool_decide_unpack _); by vm_compute).
  assert (Hf : freshTitle validated title) by (apply (bool_decide_unpack _); by vm_compute).
  split; [done|]. split; [done|]. split; [done|]. split; [done|]. split; [done|].
  exact (update_moves_old_layout_to_new m validated title Hm Hk eq_refl Hf).
Defined.

(** X6.  With a two-word type the recovered title grows.  When the type
    of the stored document is two words joined by a hyphen (as
    tech-stack is), tier, process and status are single words and the
    file name is the generated name of a kebab-case title, the parts of
    the name are counted from the wrong position: the name
    [updateStandard] derives is the generated name of the title
    process-title, not of the title. *)
Theorem update_with_two_word_type_prepends_process (m validated : StandardMetadata)
    (a b title : jstring) :
  type m = a ++ js "-" ++ b -> singleWord a -> singleWord b ->
  singleWord (tier m) -> singleWord (process m) -> singleWord (status m) ->
  kebab title -> freshTitle validated (process m ++ js "-" ++ title) ->
  newFilenameFor (storedAs m (nameWith m title)) validated
  = nameWith validated (process m ++ js "-" ++ title).
Proof.
  intros Etype Ha Hb Hi Hp Hs Hk Hfresh.
  unfold newFilenameFor, storedAs. cbn [path metadata].
  assert (Ht : kebab (type m)).
  { rewrite Etype. apply kebab_join; [apply Ha | apply Hb]. }
  destruct (split_nameWith m title Ht Hi Hp Hs Hk) as [_ Hparts].
  pose proof (extractTitleBase_cases
                (stripLastExtension (Path.basename (nameWith m title))) m) as Hcases.
  cbv zeta in Hcases. rewrite Hparts, Etype in Hcases.
  cbn [js list_ascii_of_string app] in Hcases. rewrite split_app_separator in Hcases.
  rewrite (split_without_separator _ a), (split_without_separator _ b) in Hcases
    by (apply Ha || apply Hb).
  pose proof (split_nonempty "-" title) as Hne.
  destruct Hcases as (Hnew & _).
  { cbn [app length]. rewrite length_app. cbn [length]. lia. }
  rewrite Hnew.
  - rewrite !length_app. cbn [length]. rewrite length_app. cbn [length].
    replace (1 + 1 + S (S (length (split "-" title) + 1)) - 4)
      with (S (length (split "-" title))) by lia.
    change (drop 3 (([a] ++ [b]) ++ tier m :: process m :: split "-" title ++ [status m]))
      with ((process m :: split "-" title) ++ [status m]).
    rewrite (take_app_length' _ _ (S _)) by done.
    destruct (split "-" title) as [|w ws] eqn:E; [done|].
    rewrite join_cons_cons, <- E. change (js "-") with ["-"%char]. rewrite join_split.
    apply generateFilePath_fresh_title; [|done].
    apply kebab_join; [apply Hp | done].
  - change (([a] ++ [b]) ++ tier m :: process m :: split "-" title ++ [status m])
      with ([a; b; tier m; process m] ++ split "-" title ++ [status m]).
    rewrite !app_assoc. apply last_snoc.
Qed.

Lemma update_with_two_word_type_prepends_process_witness :
  let m := techStackMetadata in
  let title := js "spring-boot" in
  type m = js "tech" ++ js "-" ++ js "stack" /\
  singleWord (js "tech") /\ singleWord (js "stack") /\
  singleWord (tier m) /\ singleWord (process m) /\ singleWord (status m) /\
  kebab title /\ freshTitle m (process m ++ js "-" ++ title) /\
  nameWith m title = js "tech-stack-backend-development-spring-boot-active.md" /\
  newFilenameFor (storedAs m (nameWith m title)) m
  = js "tech-stack-backend-development-development-spring-boot-active.md".
Proof.
  intros m title.
  assert (Ha : singleWord (js "tech")) by (apply (bool_decide_unpack _); by vm_compute).
  assert (Hb : singleWord (js "stack")) by (apply (bool_decide_unpack _); by vm_compute).
  assert (Hi : singleWord (tier m)) by (apply (bool_decide_unpack _); by vm_compute).
  assert (Hp : singleWord (process m)) by (apply (bool_decide_unpack _); by vm_compute).
  assert (Hs : singleWord (status m)) by (apply (bool_decide_unpack _); by vm_compute).
  assert (Hk : kebab title) by (apply (bool_decide_unpack _); by vm_compute).
  assert (Hf : freshTitle m (process m ++ js "-" ++ title))
    by (apply (bool_decide_unpack _); by vm_compute).
  do 8 (split; [done|]). split; [done|].
  exact (update_with_two_word_type_prepends_process m m (js "tech") (js "stack") title
           eq_refl Ha Hb Hi Hp Hs Hk Hf).
Defined.

End NamingProperties.

(** ** The hierarchical index and its count *)
Section HierarchyFacts.
Import JS Indexer.

Lemma addEntry_insert (index : HierarchicalIndex) (s : Standard) :
  let ty := type (metadata s) in
  let ti := tier (metadata s) in
  let pr := process (metadata s) in
  let tiers := default ∅ (index !! ty) in
  let processes := default ∅ (tiers !! ti) in
  let entries := default [] (processes !! pr) in
  addEntry index s
  = <[ty := <[ti := <[pr := entries ++ [entryOf s]]> processes]> tiers]> index.
Proof.
  intros ty ti pr tiers processes entries. unfold addEntry.
  fold ty ti pr. subst entries processes tiers.
  destruct (index !! ty) as [tiers|] eqn:Ety; cbn [default from_option id].
  - rewrite Ety. cbn [default from_option id].
    destruct (tiers !! ti) as [processes|] eqn:Eti; cbn [default from_option id].
    + rewrite Eti. cbn [default from_option id].
      destruct (processes !! pr) as [entries|] eqn:Epr; cbn [default from_option id].
      * by rewrite Epr.
      * by rewrite lookup_insert_eq, insert_insert_eq.
    + rewrite lookup_insert_eq. cbn [default from_option id]. rewrite lookup_empty.
      rewrite lookup_insert_eq. cbn [default from_option id]. by rewrite !insert_insert_eq.
  - rewrite lookup_insert_eq. cbn [default from_option id]. rewrite !lookup_empty.
    rewrite lookup_insert_eq. cbn [default from_option id]. rewrite lookup_empty.
    rewrite lookup_insert_eq. cbn [default from_option id]. by rewrite !insert_insert_eq.
Qed.

Lemma entriesAt_addEntry index s ty ti pr :
  entriesAt (addEntry index s) ty ti pr
  = entriesAt index ty ti pr ++
    (if inGroup ty ti pr (entryOf s) then [entryOf s] else []).
Proof.
  rewrite addEntry_insert. cbv zeta. unfold entriesAt, groupAt, inGroup.
  cbn [entryOf e_metadata].
  destruct (decide (type (metadata s) = ty)) as [<-|Hty].
  - rewrite lookup_insert_eq, bool_decide_eq_true_2 by done.
    destruct (decide (tier (metadata s) = ti)) as [<-|Hti].
    + rewrite lookup_insert_eq, (bool_decide_eq_true_2 (tier _ = _)) by done.
      destruct (decide (process (metadata s) = pr)) as [<-|Hpr].
      * rewrite lookup_insert_eq, (bool_decide_eq_true_2 (process _ = _)) by done.
        cbn [default from_option id andb].
        destruct (index !! _) as [tiers|]; cbn [default from_option id]; [|by rewrite lookup_empty].
        destruct (tiers !! _) as [processes|]; cbn [default from_option id]; [|by rewrite lookup_empty].
        done.
      * rewrite lookup_insert_ne, (bool_decide_eq_false_2 (process _ = _)) by done.
        cbn [andb]. rewrite app_nil_r.
        destruct (index !! _) as [tiers|]; cbn [default from_option id]; [|by rewrite lookup_empty].
        destruct (tiers !! _) as [processes|]; cbn [default from_option id]; [|by rewrite lookup_empty].
        done.
    + rewrite lookup_insert_ne, (bool_decide_eq_false_2 (tier _ = _)) by done.
      cbn [andb]. rewrite app_nil_r.
      destruct (index !! _) as [tiers|]; cbn [default from_option id]; [|by rewrite lookup_empty].
      done.
  - rewrite lookup_insert_ne, bool_decide_eq_false_2 by done.
    cbn [andb]. by rewrite app_nil_r.
Qed.

Lemma buildLoop_foldl l index :
  Forall (fun s => ownKeys s = true) l -> buildLoop l index = Some (foldl addEntry index l).
Proof.
  intros Hl. revert index. induction Hl as [|s l Hs _ IH]; intros index; [done|].
  cbn [buildLoop foldl]. by rewrite Hs.
Qed.

Lemma buildLoop_Some l index index' :
  buildLoop l index = Some index' ->
  Forall (fun s => ownKeys s = true) l /\ index' = foldl addEntry index l.
Proof.
  revert index. induction l as [|s l IH]; intros index; cbn [buildLoop foldl].
  - intros [= <-]. by split.
  - destruct (ownKeys s) eqn:Hs; [|done]. intros [Hl ->]%IH. split; [by constructor | done].
Qed.

Lemma entriesAt_foldl l index ty ti pr :
  entriesAt (foldl addEntry index l) ty ti pr
  = entriesAt index ty ti pr ++ List.filter (inGroup ty ti pr) (map entryOf l).
Proof.
  revert index. induction l as [|s l IH]; intros index; cbn [foldl map List.filter].
  - by rewrite app_nil_r.
  - rewrite IH, entriesAt_addEntry, <- app_assoc.
    by destruct (inGroup ty ti pr (entryOf s)).
Qed.

Lemma foldl_sum {A} (F : nat -> A -> nat) (f : A -> nat) (l : list A) (n : nat) :
  (forall n x, F n x = n + f x) -> foldl F n l = n + sum_list_with f l.
Proof.
  intros HF. revert n. induction l as [|x l IH]; intros n; cbn [foldl sum_list_with]; [lia|].
  rewrite IH, HF. lia.
Qed.

Lemma values_empty {A} : values (∅ : gmap jstring A) = [].
Proof. unfold values. by rewrite map_to_list_empty. Qed.

Lemma sum_values_insert {A} (f : A -> nat) (m : gmap jstring A) (k : jstring) (v d : A) :
  f d = 0 ->
  sum_list_with f (values (<[k:=v]> m)) + f (default d (m !! k))
  = sum_list_with f (values m) + f v.
Proof.
  intros Hd. unfold values. destruct (m !! k) as [old|] eqn:E; cbn [default from_option id].
  - rewrite <- (insert_delete_eq m k v).
    rewrite (map_to_list_insert (delete k m) k v) by apply lookup_delete_eq.
    rewrite <- (map_to_list_delete m k old E). cbn [fmap list_fmap snd sum_list_with]. lia.
  - rewrite (map_to_list_insert m k v E). cbn [fmap list_fmap snd sum_list_with]. lia.
Qed.

(** The count of [listIndex] as a sum over the groups. *)
Lemma totalCount_sum index :
  totalCount index
  = sum_list_with
      (fun tiers : Tiers =>
         sum_list_with
           (fun processes : Processes => sum_list_with length (values processes))
           (values tiers))
      (values index).
Proof.
  unfold totalCount.
  rewrite (foldl_sum _
    (fun tiers : Tiers =>
       sum_list_with
         (fun processes : Processes => sum_list_with length (values processes))
         (values tiers))); [done|].
  intros n tiers.
  rewrite (foldl_sum _
    (fun processes : Processes => sum_list_with length (values processes))); [done|].
  intros n' processes. by rewrite (foldl_sum _ length).
Qed.

Lemma totalCount_addEntry index s : totalCount (addEntry index s) = S (totalCount index).
Proof.
  rewrite !totalCount_sum, addEntry_insert. cbv zeta.
  set (c2 := fun processes : Processes => sum_list_with length (values processes)).
  set (c1 := fun tiers : Tiers => sum_list_with c2 (values tiers)).
  set (ty := type (metadata s)). set (ti := tier (metadata s)).
  set (pr := process (metadata s)).
  set (tiers := default ∅ (index !! ty)).
  set (processes := default ∅ (tiers !! ti)).
  set (entries := default [] (processes !! pr)).
  pose proof (sum_values_insert c1 index ty
                (<[ti := <[pr := entries ++ [entryOf s]]> processes]> tiers) ∅) as H0.
  pose proof (sum_values_insert c2 tiers ti (<[pr := entries ++ [entryOf s]]> processes) ∅)
    as H1.
  pose proof (sum_values_insert length processes pr (entries ++ [entryOf s]) []) as H2.
  fold tiers in H0. fold processes in H1. fold entries in H2.
  assert (Hc2 : c2 ∅ = 0) by (unfold c2; by rewrite values_empty).
  assert (Hc1 : c1 ∅ = 0) by (unfold c1; by rewrite values_empty).
  specialize (H0 Hc1). specialize (H1 Hc2). specialize (H2 eq_refl).
  rewrite length_app in H2. cbn [length] in H2.
  change (sum_list_with length (values (<[pr:=entries ++ [entryOf s]]> processes)))
    with (c2 (<[pr:=entries ++ [entryOf s]]> processes)) in H2.
  change (sum_list_with length (values processes)) with (c2 processes) in H2.
  change (sum_list_with c2 (values (<[ti:=<[pr:=entries ++ [entryOf s]]> processes]> tiers)))
    with (c1 (<[ti:=<[pr:=entries ++ [entryOf s]]> processes]> tiers)) in H1.
  change (sum_list_with c2 (values tiers)) with (c1 tiers) in H1.
  lia.
Qed.

Lemma totalCount_foldl l index :
  totalCount (foldl addEntry index l) = totalCount index + length l.
Proof.
  revert index. induction l as [|s l IH]; intros index; cbn [foldl length]; [lia|].
  rewrite IH, totalCount_addEntry. lia.
Qed.

Lemma noEmptyGroup_empty : noEmptyGroup ∅.
Proof. intros ty tiers H. by rewrite lookup_empty in H. Qed.

Lemma noEmptyGroup_addEntry index s : noEmptyGroup index -> noEmptyGroup (addEntry index s).
Proof.
  intros Hinv. rewrite addEntry_insert. cbv zeta.
  intros ty tiers. destruct (decide (type (metadata s) = ty)) as [<-|Hty].
  - rewrite lookup_insert_eq. intros [= <-]. split; [apply insert_non_empty|].
    intros ti processes. destruct (decide (tier (metadata s) = ti)) as [<-|Hti].
    + rewrite lookup_insert_eq. intros [= <-]. split; [apply insert_non_empty|].
      intros pr entries. destruct (decide (process (metadata s) = pr)) as [<-|Hpr].
      * rewrite lookup_insert_eq. intros [= <-]. by destruct (default [] _).
      * rewrite lookup_insert_ne by done.
        destruct (index !! type (metadata s)) as [tiers|] eqn:Ety;
          cbn [default from_option id]; [|by rewrite !lookup_empty].
        destruct (tiers !! tier (metadata s)) as [processes|] eqn:Eti;
          cbn [default from_option id]; [|by rewrite lookup_empty].
        intros Hpr'. destruct (Hinv _ _ Ety) as [_ Htiers].
        destruct (Htiers _ _ Eti) as [_ Hprocesses]. by apply (Hprocesses pr).
    + rewrite lookup_insert_ne by done.
      destruct (index !! type (metadata s)) as [tiers|] eqn:Ety;
        cbn [default from_option id]; [|by rewrite lookup_empty].
      intros Hti'. destruct (Hinv _ _ Ety) as [_ Htiers]. by apply (Htiers ti).
  - rewrite lookup_insert_ne by done. apply Hinv.
Qed.

Lemma noEmptyGroup_foldl l index :
  noEmptyGroup index -> noEmptyGroup (foldl addEntry index l).
Proof.
  revert index. induction l as [|s l IH]; intros index Hinv; [done|].
  cbn [foldl]. by apply IH, noEmptyGroup_addEntry.
Qed.







End HierarchyFacts.

(** ** Normalizing file names *)
Section NormalizedNames.
Import JS Storage Indexer.

Lemma fold_char_lower_ascii c :
  code (lower_char c) < 128 -> fold_char c = lower_char c.
Proof. destruct c as [[] [] [] [] [] [] [] []]; vm_compute; intros; (reflexivity || lia). Qed.

Lemma fold_lower_ascii word lit :
  Forall (fun x => code x < 128) lit -> toLowerCase word = lit -> map fold_char word = lit.
Proof.
  intros Hlit <-. induction word as [|c word IH]; [done|].
  cbn [toLowerCase map] in *. apply Forall_cons in Hlit as [Hc Hw].
  by rewrite fold_char_lower_ascii, IH.
Qed.

Lemma lower_s_not_sep c : lower_char c = "s"%char -> isSep c = false.
Proof. destruct c as [[] [] [] [] [] [] [] []]; vm_compute; congruence. Qed.

Lemma standardsPrefixLength_segment prefix rest :
  storeSegment prefix -> standardsPrefixLength (prefix ++ rest) = Some 10.
Proof.
  intros (word & sep & -> & Hword & Hsep).
  assert (Hfold : map fold_char word = js "standards").
  { apply fold_lower_ascii; [|done]. repeat constructor; vm_compute; lia. }
  assert (Hlen : length word = 9) by (by rewrite <- (length_map fold_char), Hfold).
  destruct word as [|c word]; [done|].
  assert (Hc : isSep c = false).
  { apply lower_s_not_sep. by injection Hword. }
  unfold standardsPrefixLength. cbn [app]. rewrite Hc. rewrite drop_0.
  unfold startsWithFolded.
  change (c :: (word ++ [sep]) ++ rest) with (((c :: word) ++ [sep]) ++ rest).
  rewrite <- app_assoc, map_app, Hfold, startsWith_app.
  rewrite drop_app_length' by done. cbn [app]. by rewrite Hsep.
Qed.

(** A bare file name is normalized to itself, and a file name behind one
    redundant store-directory segment to the file name. *)
Lemma stripStandardsPrefix_names prefix name :
  flatName name -> storeSegment prefix ->
  stripStandardsPrefix name = name /\ stripStandardsPrefix (prefix ++ name) = name.
Proof.
  intros Hname Hprefix. split.
  - apply stripStandardsPrefix_fixed, sepFree_no_prefix. apply Hname.
  - unfold stripStandardsPrefix. rewrite standardsPrefixLength_segment by done.
    destruct Hprefix as (word & sep & -> & Hword & _).
    assert (Hlen : length (word ++ [sep]) = 10).
    { rewrite length_app, <- (toLowerCase_length word), Hword. done. }
    by rewrite drop_app_length' by done.
Qed.

Lemma normalization_removes_prefix STANDARDS_DIR cwd prefix name :
  flatName name -> storeSegment prefix ->
  Storage.normalizeTargetPath STANDARDS_DIR cwd (prefix ++ name) = name /\
  normalizeIndexPath (prefix ++ name) = name.
Proof.
  intros Hname Hprefix.
  destruct (stripStandardsPrefix_names prefix name Hname Hprefix) as [Hbare Hstrip].
  split; [|by rewrite normalizeIndexPath_strip].
  destruct Hprefix as (word & sep & -> & Hword & Hsep).
  destruct word as [|c word]; [done|].
  unfold Storage.normalizeTargetPath. cbn [app Path.isAbsolute].
  rewrite bool_decide_eq_false_2; [apply Hstrip|].
  intros ->. injection Hword as Hc _. by vm_compute in Hc.
Qed.

(** X11.  Both normalizations return a bare file name as it is and strip
    one redundant store-directory segment (the word standards in any
    letter case, with a slash or a backslash) in front of a file name;
    on these inputs a second normalization changes nothing. *)
Theorem normalization_of_file_names (STANDARDS_DIR cwd prefix name : jstring) :
  flatName name -> storeSegment prefix ->
  let normalizeTargetPath := Storage.normalizeTargetPath STANDARDS_DIR cwd in
  normalizeIndexPath name = name /\
  normalizeIndexPath (prefix ++ name) = name /\
  normalizeIndexPath (normalizeIndexPath (prefix ++ name)) = normalizeIndexPath (prefix ++ name) /\
  normalizeTargetPath name = name /\
  normalizeTargetPath (prefix ++ name) = name /\
  normalizeTargetPath (normalizeTargetPath (prefix ++ name)) = normalizeTargetPath (prefix ++ name).
Proof.
  intros Hname Hprefix normalizeTargetPath.
  destruct (stripStandardsPrefix_names prefix name Hname Hprefix) as [Hbare Hstrip].
  assert (Hi : normalizeIndexPath (prefix ++ name) = name).
  { by rewrite normalizeIndexPath_strip. }
  assert (Ht : normalizeTargetPath (prefix ++ name) = name).
  { destruct Hprefix as (word & sep & -> & Hword & Hsep).
    destruct word as [|c word]; [done|].
    unfold normalizeTargetPath, Storage.normalizeTargetPath. cbn [app Path.isAbsolute].
    rewrite bool_decide_eq_false_2.
    - apply Hstrip.
    - intros ->. injection Hword as Hc _. by vm_compute in Hc. }
  split; [by rewrite normalizeIndexPath_strip|]. split; [done|].
  split; [by rewrite Hi, normalizeIndexPath_strip|].
  split; [by apply flatName_normalizeTargetPath|]. split; [done|].
  rewrite Ht. by apply flatName_normalizeTargetPath.
Qed.

Lemma normalization_of_file_names_witness :
  let store := js "/srv/kb/standards" in
  let cwd := js "/srv/kb" in
  flatName (js "spring-boot.md") /\ storeSegment (js "Standards\") /\
  normalizeIndexPath (js "Standards\" ++ js "spring-boot.md") = js "spring-boot.md" /\
  Storage.normalizeTargetPath store cwd
    (Storage.normalizeTargetPath store cwd (js "Standards\" ++ js "spring-boot.md"))
  = Storage.normalizeTargetPath store cwd (js "Standards\" ++ js "spring-boot.md").
Proof.
  intros store cwd.
  assert (Hname : flatName (js "spring-boot.md"))
    by (apply (bool_decide_unpack _); by vm_compute).
  assert (Hprefix : storeSegment (js "Standards\")).
  { exists (js "Standards"), "\"%char. repeat split; by vm_compute. }
  pose proof (normalization_of_file_names store cwd (js "Standards\") (js "spring-boot.md")
                Hname Hprefix) as (_ & Hi & _ & _ & _ & Ht).
  split; [exact Hname|]. split; [exact Hprefix|]. split; [exact Hi | exact Ht].
Defined.

End NormalizedNames.

(** ** Bulk loading from a store of plain file names *)
Section FlatStore.
Import JS Storage.
Variable segs : list jstring.
Variable cwd : jstring.
Variable parseFrontmatter : jstring -> option (StandardMetadata * jstring).
Variable glob : gmap jstring File -> list jstring.

Local Abbreviation STANDARDS_DIR := (canonicalDir segs).
Local Abbreviation stored := (documentOf parseFrontmatter segs).

Lemma enumerated_flat fs :
  Forall plainSegment segs -> Forall flatName (glob fs) ->
  enumerated STANDARDS_DIR cwd glob fs = glob fs.
Proof.
  intros Hsegs Hflat. unfold enumerated. rewrite map_map.
  induction Hflat as [|name names Hname _ IH]; [done|]. cbn [map]. rewrite IH. f_equal.
  rewrite join_canonicalDir by (done || by apply flatName_plain).
  apply relative_child; [done | by apply flatName_plain].
Qed.

Lemma loaded_flat fs name :
  Forall plainSegment segs -> flatName name ->
  loaded STANDARDS_DIR cwd parseFrontmatter fs name = stored fs name.
Proof.
  intros Hsegs Hname. unfold loaded, loadFrom, documentOf.
  rewrite flatName_normalizeTargetPath, flatName_fullPathOf by done.
  destruct (fs !! _) as [f|]; [|done]. destruct (readable f); [|done].
  destruct (parseFrontmatter (data f)) as [[m body]|]; [|done].
  by rewrite relative_child by (done || by apply flatName_plain).
Qed.

Lemma failure_flat fs name :
  Forall plainSegment segs -> flatName name ->
  fst <$> failure STANDARDS_DIR cwd parseFrontmatter fs name
  = match stored fs name with Some _ => None | None => Some name end.
Proof.
  intros Hsegs Hname. rewrite <- loaded_flat by done. unfold failure, loaded.
  by destruct (loadFrom _ _ _ fs name).
Qed.

Lemma omap_loaded_flat fs names :
  Forall plainSegment segs -> Forall flatName names ->
  omap (loaded STANDARDS_DIR cwd parseFrontmatter fs) names = omap (stored fs) names.
Proof.
  intros Hsegs Hflat. induction Hflat as [|name l Hname _ IH]; [done|].
  cbn [omap list_omap]. rewrite loaded_flat by done. by rewrite IH.
Qed.

Lemma omap_failure_flat fs names :
  Forall plainSegment segs -> Forall flatName names ->
  (omap (failure STANDARDS_DIR cwd parseFrontmatter fs) names).*1
  = List.filter (fun name => negb (bool_decide (is_Some (stored fs name)))) names.
Proof.
  intros Hsegs Hflat. induction Hflat as [|name l Hname _ IH]; [done|].
  cbn [omap list_omap List.filter].
  pose proof (failure_flat fs name Hsegs Hname) as Hf.
  destruct (failure _ _ _ fs name) as [[n e]|];
    destruct (stored fs name) as [d|]; cbn in Hf; try done.
  injection Hf as ->. rewrite bool_decide_eq_false_2 by (by intros [? ?]).
  cbn [negb fmap list_fmap fst]. f_equal. apply IH.
Qed.

Lemma readAll_flat_outcome w :
  Forall plainSegment segs -> Forall flatName (glob (files w)) ->
  Storage.readAllStandards STANDARDS_DIR cwd parseFrontmatter glob w
  = (Ok (omap (stored (files w)) (glob (files w))),
     logging w (omap (failure STANDARDS_DIR cwd parseFrontmatter (files w)) (glob (files w)))).
Proof.
  intros Hsegs Hflat.
  unfold Storage.readAllStandards, bind, listAllStandardFiles.
  fold (enumerated STANDARDS_DIR cwd glob (files w)).
  rewrite enumerated_flat by done. rewrite readEach_outcome.
  cbn [app]. by rewrite omap_loaded_flat.
Qed.

(** X12.  In a store whose enumerated names are plain file names,
    [readAllStandards] never fails and leaves the files untouched: it
    returns, in enumeration order, the documents of exactly the
    enumerated files that are there, readable and well formed, each
    under its file name, and it writes one console entry, in order, for
    each of the other names. *)
Theorem readAll_returns_the_well_formed_files (w : World) :
  Forall plainSegment segs -> Forall flatName (glob (files w)) ->
  let names := glob (files w) in
  let outcome := Storage.readAllStandards STANDARDS_DIR cwd parseFrontmatter glob w in
  fst outcome = Ok (omap (stored (files w)) names) /\
  files (snd outcome) = files w /\
  history (snd outcome) = history w /\
  exists entries,
    console (snd outcome) = console w ++ entries /\
    entries.*1
    = List.filter (fun name => negb (bool_decide (is_Some (stored (files w) name)))) names.
Proof.
  intros Hsegs Hflat names outcome. subst outcome names.
  rewrite readAll_flat_outcome by done.
  cbn [fst snd logging files history console].
  split; [done|]. split; [done|]. split; [done|].
  eexists. split; [done|]. by apply omap_failure_flat.
Qed.

(** X13.  In such a store a refresh never fails: the snapshot becomes
    the list of those documents, stamped with the date of the refresh,
    whatever the index held before, and the count of the index is the
    number of enumerated names less the number of names logged. *)
Theorem refresh_counts_the_well_formed_files
    (newDate : jstring) (this : Indexer.StandardsIndex) (w : World) :
  Forall plainSegment segs -> Forall flatName (glob (files w)) ->
  let names := glob (files w) in
  let failed :=
    List.filter (fun name => negb (bool_decide (is_Some (stored (files w) name)))) names in
  exists refreshed w',
    Indexer.refresh STANDARDS_DIR cwd parseFrontmatter glob newDate this w
    = (Ok refreshed, w') /\
    Indexer.standards refreshed = omap (stored (files w)) names /\
    Indexer.lastRefresh refreshed = Some newDate /\
    Indexer.getCount refreshed + length failed = length names /\
    files w' = files w.
Proof.
  intros Hsegs Hflat names failed. subst names failed.
  unfold Indexer.refresh, bind, ret. rewrite readAll_flat_outcome by done.
  eexists _, _. split; [done|]. cbn [Indexer.standards Indexer.lastRefresh logging files].
  split; [done|]. split; [done|]. split; [|done].
  unfold Indexer.getCount. cbn [Indexer.standards].
  generalize (glob (files w)). intros names. clear.
  induction names as [|name names IH]; [done|]. cbn [omap list_omap List.filter length].
  destruct (stored (files w) name) as [d|].
  - rewrite bool_decide_eq_true_2 by (by eexists). cbn [negb length]. lia.
  - rewrite bool_decide_eq_false_2 by (by intros [? ?]). cbn [negb length]. lia.
Qed.

End FlatStore.

Section FlatStoreExample.
Import JS Storage.

Lemma readAll_returns_the_well_formed_files_witness :
  let outcome :=
    Storage.readAllStandards (canonicalDir storeSegments) storeCwd parseSample
      globSample threeFileWorld in
  Forall plainSegment storeSegments /\ Forall flatName (globSample (files threeFileWorld)) /\
  fst outcome
  = Ok [ {| metadata := sampleMetadata; content := js "first"; path := js "a.md" |};
         {| metadata := sampleMetadata; content := js "third"; path := js "c.md" |} ] /\
  (exists entries,
     console (snd outcome) = console threeFileWorld ++ entries /\ entries.*1 = [js "b.md"]).
Proof.
  intros outcome.
  assert (Hsegs : Forall plainSegment storeSegments)
    by (apply (bool_decide_unpack _); by vm_compute).
  assert (Hflat : Forall flatName (globSample (files threeFileWorld)))
    by (apply (bool_decide_unpack _); by vm_compute).
  destruct (readAll_returns_the_well_formed_files storeSegments storeCwd parseSample
              globSample threeFileWorld Hsegs Hflat) as (Hdocs & _ & _ & entries & Hc & He).
  split; [exact Hsegs|]. split; [exact Hflat|]. split.
  - subst outcome. rewrite Hdocs. vm_compute. reflexivity.
  - exists entries. split; [exact Hc|]. rewrite He. vm_compute. reflexivity.
Defined.

Lemma refresh_counts_the_well_formed_files_witness :
  Forall plainSegment storeSegments /\ Forall flatName (globSample (files threeFileWorld)) /\
  exists refreshed w',
    Indexer.refresh (canonicalDir storeSegments) storeCwd parseSample globSample
      (js "2024-06-01T00:00:00.000Z") Indexer.emptyIndex threeFileWorld
    = (Ok refreshed, w') /\
    Indexer.getCount refreshed = 2.
Proof.
  assert (Hsegs : Forall plainSegment storeSegments)
    by (apply (bool_decide_unpack _); by vm_compute).
  assert (Hflat : Forall flatName (globSample (files threeFileWorld)))
    by (apply (bool_decide_unpack _); by vm_compute).
  destruct (refresh_counts_the_well_formed_files storeSegments storeCwd parseSample
              globSample (js "2024-06-01T00:00:00.000Z") Indexer.emptyIndex threeFileWorld
              Hsegs Hflat) as (refreshed & w' & Hrun & Hdocs & _ & _ & _).
  split; [exact Hsegs|]. split; [exact Hflat|].
  exists refreshed, w'. split; [exact Hrun|].
  unfold Indexer.getCount. rewrite Hdocs. vm_compute. reflexivity.
Defined.

End FlatStoreExample.

(** ** Looking a document up by its path *)
Section PathLookup.
Import JS Indexer.

Lemma find_by_path snapshot d :
  d ∈ snapshot ->
  exists d', List.find (fun s => bool_decide (path s = path d)) snapshot = Some d' /\
             d' ∈ snapshot /\ path d' = path d /\
             (NoDup (path <$> snapshot) -> d' = d).
Proof.
  induction snapshot as [|s l IH]; intros Hd; [by apply elem_of_nil in Hd|].
  cbn [List.find]. case_bool_decide as Hs.
  - exists s. split; [done|]. split; [by left|]. split; [done|].
    intros Hnd. apply elem_of_cons in Hd as [->|Hd]; [done|].
    cbn [fmap list_fmap] in Hnd. apply NoDup_cons in Hnd as [Hnot _].
    exfalso. apply Hnot. rewrite Hs. by apply list_elem_of_fmap_2.
  - apply elem_of_cons in Hd as [->|Hd]; [done|].
    destruct (IH Hd) as (d' & Hfind & Hin & Hpath & Huniq).
    exists d'. split; [done|]. split; [by right|]. split; [done|].
    intros Hnd. apply Huniq. cbn [fmap list_fmap] in Hnd. by apply NoDup_cons in Hnd as [_ ?].
Qed.



Lemma includes_nil s : includes s [] = true.
Proof. destruct s; cbn [includes]; by rewrite startsWith_nil. Qed.

(** X15.  A path whose base name is empty finds the first document.
    When the normalized path is not empty and is no stored path, but
    nothing is left of it once directories and the extension are
    stripped (as for [/], [docs/] or [.md]), every base name contains
    the empty base name: the lookup returns the first document of the
    snapshot, whatever it is, and fails only on the empty snapshot. *)
Theorem findByPath_with_empty_base_name_finds_the_first
    (snapshot : list Standard) (p : jstring) :
  normalizeIndexPath p <> [] ->
  baseName (normalizeIndexPath p) = [] ->
  (forall s, s ∈ snapshot -> path s <> normalizeIndexPath p) ->
  findByPath snapshot p = head snapshot.
Proof.
  intros Hne Hbase Hnone. rewrite findByPath_unfold.
  destruct (normalizeIndexPath p) as [|c q] eqn:E; [done|].
  assert (Hfirst : List.find (fun s => bool_decide (path s = c :: q)) snapshot = None).
  { clear -Hnone. induction snapshot as [|s l IH]; [done|]. cbn [List.find].
    rewrite bool_decide_eq_false_2 by (apply Hnone; by left).
    apply IH. intros s' Hs'. apply Hnone. by right. }
  rewrite Hfirst, Hbase. destruct snapshot as [|s l]; [done|].
  cbn [List.find head]. by rewrite includes_nil.
Qed.

Lemma findByPath_with_empty_base_name_finds_the_first_witness :
  let a := sampleDocument "spring-boot-security.md" "a" in
  let b := sampleDocument "spring-boot.md" "b" in
  normalizeIndexPath (js "docs/.MD") <> [] /\
  baseName (normalizeIndexPath (js "docs/.MD")) = [] /\
  findByPath [a; b] (js "docs/.MD") = Some a.
Proof.
  intros a b.
  assert (Hne : normalizeIndexPath (js "docs/.MD") <> []) by (vm_compute; discriminate).
  assert (Hbase : baseName (normalizeIndexPath (js "docs/.MD")) = []) by (vm_compute; reflexivity).
  split; [exact Hne|]. split; [exact Hbase|].
  apply (findByPath_with_empty_base_name_finds_the_first [a; b] (js "docs/.MD") Hne Hbase).
  intros s Hs. apply elem_of_cons in Hs as [->|Hs]; [vm_compute; discriminate|].
  apply list_elem_of_singleton in Hs as ->. vm_compute. discriminate.
Defined.

End PathLookup.

(** ** Creating, reading back and deleting a document *)
Section LifecycleFacts.
Import JS Storage.
Variable segs : list jstring.
Variable cwd : jstring.
Variable parseFrontmatter : jstring -> option (StandardMetadata * jstring).
Variable serializeStandard : Standard -> jstring.
Variable validateMetadata : StandardMetadata -> option StandardMetadata.
Variable generateInitialVersion : jstring.
Variable createdDate : jstring.
Variable updatedDate : jstring.

Local Abbreviation STANDARDS_DIR := (canonicalDir segs).
Local Abbreviation createStandard :=
  (Storage.createStandard STANDARDS_DIR cwd serializeStandard validateMetadata
     generateInitialVersion createdDate updatedDate).
Local Abbreviation completeMetadata :=
  (Storage.completeMetadata generateInitialVersion createdDate updatedDate).
Local Abbreviation deleteStandard := (Storage.deleteStandard STANDARDS_DIR cwd).
Local Abbreviation readStandard := (Storage.readStandard STANDARDS_DIR cwd parseFrontmatter).

(** [createStandard], step by step, once the metadata are validated. *)
Lemma createStandard_steps input body filename validated w :
  Forall plainSegment segs ->
  validateMetadata (completeMetadata input) = Some validated ->
  separatorFree validated ->
  let name := generateFilePath validated filename in
  let full := canonicalDir (segs ++ [name]) in
  let document := {| metadata := validated; content := body; path := name |} in
  createStandard input body filename w
  = match files w !! full with
    | Some _ => (inr (StandardExists name), w)
    | None => (inl document, after w [written (files w) full (serializeStandard document)])
    end.
Proof.
  intros Hsegs Hvalid Hsep name full document.
  assert (Hflat : flatName name) by (by apply generateFilePath_flat).
  unfold Storage.createStandard. rewrite Hvalid. fold name.
  rewrite flatName_normalizeTargetPath by done.
  rewrite join_canonicalDir by (done || by apply flatName_plain).
  rewrite relative_child by (done || by apply flatName_plain). fold full document.
  unfold access. destruct (files w !! full) as [f|] eqn:Efull; [done|].
  replace (bool_decide (errorCode (ErrnoException ENOENT) <> Some ENOENT)) with false by done.
  unfold Storage.writeStandard.
  cbv beta iota zeta delta [bind tryCatch mkdirFor ret].
  cbn [path document].
  replace (match name with [] => name | c :: t => c :: t end) with name by (by destruct name).
  rewrite flatName_normalizeTargetPath, flatName_fullPathOf by done. fold full.
  by rewrite writeFile_outcome.
Qed.

(** X16.  Creating a document under a free name writes exactly one file,
    at the generated name in the store directory, holding the serialized
    document, and returns the document with the validated metadata under
    that name.  Creating with the same metadata and slug once more, with
    any body, fails with the error of an existing standard and changes
    nothing; so does any creation whose generated name is taken. *)
Theorem createStandard_writes_once
    (input : MetadataInput) (body body' : jstring) (filename : option jstring)
    (validated : StandardMetadata) (w : World) :
  Forall plainSegment segs ->
  validateMetadata (completeMetadata input) = Some validated ->
  separatorFree validated ->
  let name := generateFilePath validated filename in
  let full := canonicalDir (segs ++ [name]) in
  let document := {| metadata := validated; content := body; path := name |} in
  (files w !! full = None ->
   exists w1,
     createStandard input body filename w = (inl document, w1) /\
     files w1 = <[full := {| data := serializeStandard document; readable := true |}]> (files w) /\
     createStandard input body' filename w1 = (inr (StandardExists name), w1)) /\
  (files w !! full <> None ->
   createStandard input body filename w = (inr (StandardExists name), w)).
Proof.
  intros Hsegs Hvalid Hsep name full document. split.
  - intros Hfree. eexists. split; [|split].
    + rewrite (createStandard_steps input body filename validated w) by done.
      fold name full. by rewrite Hfree.
    + unfold after, written. cbn [files last]. fold name full document. by rewrite Hfree.
    + rewrite (createStandard_steps input body' filename validated) by done.
      fold name full. unfold after, written. cbn [files last default from_option id].
      by rewrite lookup_insert_eq.
  - intros Htaken. rewrite (createStandard_steps input body filename validated w) by done.
    fold name full. by destruct (files w !! full).
Qed.

(** X17.  A created document is read back.  When the parser recovers the
    metadata and the body from what the serializer writes, reading the
    path [createStandard] returned, with or without a redundant
    store-directory segment in front, yields the created document, and
    reading changes nothing. *)
Theorem createStandard_then_readStandard
    (input : MetadataInput) (body : jstring) (filename : option jstring)
    (validated : StandardMetadata) (prefix : jstring) (w : World) :
  Forall plainSegment segs ->
  validateMetadata (completeMetadata input) = Some validated ->
  separatorFree validated ->
  let name := generateFilePath validated filename in
  let document := {| metadata := validated; content := body; path := name |} in
  files w !! canonicalDir (segs ++ [name]) = None ->
  parseFrontmatter (serializeStandard document) = Some (validated, body) ->
  storeSegment prefix ->
  exists w1,
    createStandard input body filename w = (inl document, w1) /\
    readStandard (path document) w1 = (Ok document, w1) /\
    readStandard (prefix ++ path document) w1 = (Ok document, w1).
Proof.
  intros Hsegs Hvalid Hsep name document Hfree Hparse Hprefix.
  assert (Hflat : flatName name) by (by apply generateFilePath_flat).
  eexists. split.
  { rewrite (createStandard_steps input body filename validated w) by done.
    fold name. by rewrite Hfree. }
  fold name document.
  assert (Hread : forall p,
    Storage.normalizeTargetPath STANDARDS_DIR cwd p = name ->
    readStandard p (after w [written (files w) (canonicalDir (segs ++ [name]))
                               (serializeStandard document)])
    = (Ok document,
       after w [written (files w) (canonicalDir (segs ++ [name]))
                  (serializeStandard document)])).
  { intros p Hp. rewrite readStandard_outcome. f_equal. unfold loadFrom. rewrite Hp.
    rewrite flatName_fullPathOf by done.
    unfold after, written. cbn [files last default from_option id].
    rewrite lookup_insert_eq, Hfree. cbn [readable data]. rewrite Hparse.
    by rewrite relative_child by (done || by apply flatName_plain). }
  cbn [path document]. split.
  - apply Hread. by apply flatName_normalizeTargetPath.
  - apply Hread.
    by destruct (normalization_removes_prefix STANDARDS_DIR cwd prefix name Hflat Hprefix).
Qed.

(** X18.  Deleting removes the file stored under a plain file name and
    no other; when no file is stored under the name it fails with the
    error of a missing standard and changes nothing; and deleting the
    document [createStandard] has just written restores the files of the
    store. *)
Theorem deleteStandard_removes_one_file
    (name : jstring) (input : MetadataInput) (body : jstring) (filename : option jstring)
    (validated : StandardMetadata) (w : World) :
  Forall plainSegment segs -> flatName name ->
  let full := canonicalDir (segs ++ [name]) in
  (files w !! full <> None ->
   exists w1, deleteStandard name w = (inl tt, w1) /\
              files w1 !! full = None /\
              forall other, other <> full -> files w1 !! other = files w !! other) /\
  (files w !! full = None ->
   deleteStandard name w = (inr (Raised (StandardNotFound name)), w)) /\
  (validateMetadata (completeMetadata input) = Some validated ->
   separatorFree validated ->
   files w !! canonicalDir (segs ++ [generateFilePath validated filename]) = None ->
   exists document w1 w2,
     createStandard input body filename w = (inl document, w1) /\
     deleteStandard (path document) w1 = (inl tt, w2) /\
     files w2 = files w).
Proof.
  intros Hsegs Hflat full.
  assert (Hsteps : forall n w0, flatName n ->
    deleteStandard n w0
    = match files w0 !! canonicalDir (segs ++ [n]) with
      | Some _ => (inl tt, after w0 [delete (canonicalDir (segs ++ [n])) (files w0)])
      | None => (inr (Raised (StandardNotFound n)), w0)
      end).
  { intros n w0 Hn. unfold Storage.deleteStandard.
    rewrite flatName_normalizeTargetPath, flatName_fullPathOf by done.
    unfold unlink, setFiles, after. by destruct (files w0 !! _). }
  split; [|split].
  - intros Hthere. rewrite Hsteps by done. fold full.
    destruct (files w !! full) as [f|] eqn:E; [|done].
    eexists. split; [done|]. unfold after. cbn [files last default from_option id].
    split; [apply lookup_delete_eq|]. intros other Hother. by apply lookup_delete_ne.
  - intros Hmissing. rewrite Hsteps by done. fold full. by rewrite Hmissing.
  - intros Hvalid Hsep Hfree.
    assert (Hname : flatName (generateFilePath validated filename))
      by (by apply generateFilePath_flat).
    eexists _, _, _. split; [|split].
    + rewrite (createStandard_steps input body filename validated w) by done.
      by rewrite Hfree.
    + cbn [path]. rewrite Hsteps by done.
      unfold after at 1, written. cbn [files last default from_option id].
      by rewrite lookup_insert_eq.
    + unfold after, written. cbn [files last default from_option id].
      rewrite Hfree. by rewrite delete_insert_id.
Qed.

End LifecycleFacts.

Section LifecycleExamples.
Import JS Storage.

Lemma createStandard_writes_once_witness :
  let create body :=
    Storage.createStandard (canonicalDir storeSegments) storeCwd serializeBody
      validateToSample (js "1.0.0") (js "2024-06-01T00:00:00.000Z")
      (js "2024-06-01T00:00:00.001Z") sampleInput body (Some (js "Spring Boot.md")) in
  let name := js "standard-backend-development-spring-boot-active.md" in
  generateFilePath sampleMetadata (Some (js "Spring Boot.md")) = name /\
  exists w1,
    create (js "body") emptyStore
    = (inl {| metadata := sampleMetadata; content := js "body"; path := name |}, w1) /\
    create (js "other") w1 = (inr (StandardExists name), w1).
Proof.
  intros create name.
  assert (Hname : generateFilePath sampleMetadata (Some (js "Spring Boot.md")) = name)
    by (vm_compute; reflexivity).
  assert (Hsegs : Forall plainSegment storeSegments)
    by (apply (bool_decide_unpack _); by vm_compute).
  assert (Hsep : separatorFree sampleMetadata)
    by (apply (bool_decide_unpack _); by vm_compute).
  destruct (createStandard_writes_once storeSegments storeCwd serializeBody validateToSample
              (js "1.0.0") (js "2024-06-01T00:00:00.000Z") (js "2024-06-01T00:00:00.001Z")
              sampleInput (js "body") (js "other") (Some (js "Spring Boot.md"))
              sampleMetadata emptyStore Hsegs eq_refl Hsep) as [Hfree _].
  destruct Hfree as (w1 & Hcreate & _ & Hagain); [apply lookup_empty|].
  rewrite Hname in Hcreate, Hagain.
  split; [exact Hname|]. exists w1. split; [exact Hcreate | exact Hagain].
Defined.

Lemma createStandard_then_readStandard_witness :
  let name := js "standard-backend-development-spring-boot-active.md" in
  let document := {| metadata := sampleMetadata; content := js "body"; path := name |} in
  exists w1,
    Storage.createStandard (canonicalDir storeSegments) storeCwd serializeBody
      validateToSample (js "1.0.0") (js "2024-06-01T00:00:00.000Z")
      (js "2024-06-01T00:00:00.001Z") sampleInput (js "body") (Some (js "Spring Boot.md"))
      emptyStore
    = (inl document, w1) /\
    Storage.readStandard (canonicalDir storeSegments) storeCwd parseSample
      (js "standards/" ++ name) w1
    = (Ok document, w1).
Proof.
  intros name document.
  assert (Hname : generateFilePath sampleMetadata (Some (js "Spring Boot.md")) = name)
    by (vm_compute; reflexivity).
  assert (Hsegs : Forall plainSegment storeSegments)
    by (apply (bool_decide_unpack _); by vm_compute).
  assert (Hsep : separatorFree sampleMetadata)
    by (apply (bool_decide_unpack _); by vm_compute).
  assert (Hprefix : storeSegment (js "standards/")).
  { exists (js "standards"), "/"%char. repeat split; by vm_compute. }
  destruct (createStandard_then_readStandard storeSegments storeCwd parseSample
              serializeBody validateToSample
              (js "1.0.0") (js "2024-06-01T00:00:00.000Z") (js "2024-06-01T00:00:00.001Z")
              sampleInput (js "body") (Some (js "Spring Boot.md"))
              sampleMetadata (js "standards/") emptyStore Hsegs eq_refl Hsep
              (lookup_empty _) eq_refl Hprefix) as (w1 & Hcreate & _ & Hread).
  rewrite Hname in Hcreate, Hread. cbn [path] in Hread.
  exists w1. split; [exact Hcreate | exact Hread].
Defined.

Lemma deleteStandard_removes_one_file_witness :
  let name := js "a.md" in
  exists w1,
    Storage.deleteStandard (canonicalDir storeSegments) storeCwd name threeFileWorld
    = (inl tt, w1) /\
    files w1 !! inStore "a.md" = None /\
    files w1 !! inStore "c.md" = files threeFileWorld !! inStore "c.md".
Proof.
  intros name.
  assert (Hsegs : Forall plainSegment storeSegments)
    by (apply (bool_decide_unpack _); by vm_compute).
  assert (Hflat : flatName name) by (apply (bool_decide_unpack _); by vm_compute).
  destruct (deleteStandard_removes_one_file storeSegments storeCwd serializeBody
              validateToSample
              (js "1.0.0") (js "2024-06-01T00:00:00.000Z") (js "2024-06-01T00:00:00.001Z")
              name sampleInput (js "body") None sampleMetadata threeFileWorld Hsegs Hflat)
    as [Hthere _].
  destruct Hthere as (w1 & Hrun & Hgone & Hrest).
  { vm_compute. discriminate. }
  exists w1. split; [exact Hrun|]. split; [exact Hgone|].
  apply Hrest. vm_compute. discriminate.
Defined.

End LifecycleExamples.
